(** * Expense splitter: balances and greedy settlement

    A shallow embedding of the computational core of the repository:
    [src/app1.py] (the web wizard: [settle] and the text it returns,
    [calc_with_equal_share], [calc_with_itemized], and the steps of [main]
    that lead from the inputs to the results page) and [src/main.py] (the
    desktop form: [ExpenseSplitterApp.calculate_split], from the entry
    fields to the text it writes).

    Text.  A Python [str] is the byte string of its UTF-8 encoding.

    Numbers.  The Python code computes with binary floating point; the
    embedding computes with exact rationals ([Q]), comparisons being the
    rational order and [round(x, 2)] the nearest multiple of 1/100 of the
    exact value, ties going to the even multiple.  The two part where
    floating point rounds: the difference of two amounts in cents can come
    out just below a cent or just above zero (66.66 - 66.65 is below 0.01,
    and 0.1 - (0.3 - 0.2) is 2.8e-17, not 0), a sum of shares can fall on the
    other side of a tie of [round], and a float of the size of 10^15 no
    longer carries cents.  The statements about the program are therefore
    chosen so as not to rest on exactness.  They are about which entries are
    read, compared and written; about the tests of the program itself (a
    cursor only moves past a remainder that meets the test); about sums,
    quotients and roundings used as such; or they are bounds that leave room
    for the rounding error of amounts of ordinary size ([ordinary]: at most
    10^6).  Floats that are not finite ([inf], [nan]) have no counterpart in
    [Q]: every statement is about finite amounts.

    Exceptions.  A Python exception is an explicit [Raise] result. *)

From Stdlib Require Import ZArith QArith Qround Qabs Lqa Lia DecimalString.
From Stdlib Require Import Sorting.Sorted Sorting.Permutation.
From stdpp Require Import gmap strings list sorting.

Local Open Scope Q_scope.

(** ** Python results *)

Inductive exn : Type :=
| ZeroDivisionError
| IndexError.

Inductive result (A : Type) : Type :=
| Ok (a : A)
| Raise (e : exn).

Arguments Ok {A} a.
Arguments Raise {A} e.

(** ** Float comparisons, on the rational model *)

Definition Qltb (x y : Q) : bool :=
  match Qcompare x y with
  | Lt => true
  | _ => false
  end.

Definition Qleb (x y : Q) : bool := negb (Qltb y x).

Definition Qeqb (x y : Q) : bool :=
  match Qcompare x y with
  | Eq => true
  | _ => false
  end.

(** Python's [min(a, b)]: the first argument unless the second is strictly
    smaller. *)
Definition py_min (a b : Q) : Q := if Qltb b a then b else a.

(** The tolerance [0.01] of [settle]. *)
Definition cent : Q := 1 # 100.

(** [round(x, 2)]: nearest multiple of 1/100, ties to even. *)
Definition round_half_even (y : Q) : Z :=
  let f := Qfloor y in
  match Qcompare (y - inject_Z f) (1 # 2) with
  | Lt => f
  | Gt => (f + 1)%Z
  | Eq => if Z.even f then f else (f + 1)%Z
  end.

Definition round2 (x : Q) : Q := Qmake (round_half_even (x * 100)) 100.

(** ** Lists *)

(** [enumerate(l)], counting from [start]. *)
Fixpoint enumerate_from {A : Type} (start : nat) (l : list A) : list (nat * A) :=
  match l with
  | [] => []
  | x :: l' => (start, x) :: enumerate_from (S start) l'
  end.

Definition enumerate {A : Type} (l : list A) : list (nat * A) := enumerate_from 0 l.

(** An entry [[i, amt]] of the lists [creditors] and [debtors]. *)
Abbreviation entry := (nat * Q)%type.

(** [[[i, bal] for i, bal in enumerate(balances) if bal > 0]] *)
Definition creditors_of (balances : list Q) : list entry :=
  filter (fun e : entry => Qltb 0 (snd e) = true) (enumerate balances).

(** [[[i, -bal] for i, bal in enumerate(balances) if bal < 0]] *)
Definition debtors_of (balances : list Q) : list entry :=
  map (fun e : entry => (fst e, - snd e))
      (filter (fun e : entry => Qltb (snd e) 0 = true) (enumerate balances)).

(** [sorted(l, key=lambda x: x[1], reverse=True)].  Python's sort is stable,
    also under [reverse=True]: entries with equal keys keep their relative
    order.  A list has exactly one stable descending arrangement
    (see [before_unique]), which this insertion sort computes: an
    element is inserted in front of the first entry whose key is not
    strictly larger, hence in front of every later entry with an equal key. *)
Fixpoint insert_desc (x : entry) (l : list entry) : list entry :=
  match l with
  | [] => [x]
  | y :: l' => if Qltb (snd x) (snd y) then y :: insert_desc x l' else x :: y :: l'
  end.

Fixpoint sorted_desc (l : list entry) : list entry :=
  match l with
  | [] => []
  | x :: l' => insert_desc x (sorted_desc l')
  end.

(** ** Transfers *)

(** One settlement line, [f"-> {names[d_idx]} pays {pay_amt:.2f} to {names[c_idx]}"]:
    the two names and the amount that the line prints, together with the
    two indices the names were read at. *)
Record transfer : Type := Transfer {
  t_from : nat;
  t_to : nat;
  t_from_name : string;
  t_to_name : string;
  t_amt : Q
}.

(** The variables of the settlement loop. *)
Record loop_state : Type := LoopState {
  ls_debtors : list entry;
  ls_creditors : list entry;
  ls_i : nat;
  ls_j : nat;
  ls_lines : list transfer
}.

Inductive outcome : Type :=
| Done (st : loop_state)
| Failed (e : exn)
| OutOfFuel.

(** The test that moves a cursor on: [x < 0.01] in [settle] (app1.py),
    [x == 0] in [calculate_split] (main.py). *)
Definition settled_web (x : Q) : bool := Qltb x cent.
Definition settled_desktop (x : Q) : bool := Qeqb x 0.

(** One pass through the body of the [while] loop, the cursors being in
    range. *)
Definition loop_body (settled : Q -> bool) (names : list string)
    (st : loop_state) (d c : entry) : result loop_state :=
  let '(d_idx, d_amt) := d in
  let '(c_idx, c_amt) := c in
  let pay_amt := py_min d_amt c_amt in
  match names !! d_idx with
  | None => Raise IndexError
  | Some d_name =>
    match names !! c_idx with
    | None => Raise IndexError
    | Some c_name =>
      let lines := ls_lines st ++ [Transfer d_idx c_idx d_name c_name pay_amt] in
      let d_rem := d_amt - pay_amt in
      let c_rem := c_amt - pay_amt in
      let debtors := <[ls_i st := (d_idx, d_rem)]> (ls_debtors st) in
      let creditors := <[ls_j st := (c_idx, c_rem)]> (ls_creditors st) in
      let i := if settled d_rem then S (ls_i st) else ls_i st in
      let j := if settled c_rem then S (ls_j st) else ls_j st in
      Ok (LoopState debtors creditors i j lines)
    end
  end.

(** [while i < len(debtors) and j < len(creditors): ...] *)
Fixpoint settle_loop (settled : Q -> bool) (names : list string)
    (fuel : nat) (st : loop_state) : outcome :=
  match ls_debtors st !! ls_i st, ls_creditors st !! ls_j st with
  | Some d, Some c =>
    match fuel with
    | O => OutOfFuel
    | S fuel' =>
      match loop_body settled names st d c with
      | Raise e => Failed e
      | Ok st' => settle_loop settled names fuel' st'
      end
    end
  | _, _ => Done st
  end.

(** Fuel that the loop never uses up (see [settle_loop_fuel]). *)
Definition loop_fuel (debtors creditors : list entry) : nat :=
  length debtors + length creditors.

Definition run_loop (settled : Q -> bool) (names : list string)
    (debtors creditors : list entry) : outcome :=
  settle_loop settled names (loop_fuel debtors creditors)
    (LoopState debtors creditors 0 0 []).

(** ** app1.py *)

(** [settle(balances, names)], up to the rendering of [lines] as text: the
    outcome holds the loop variables when the loop is left, [lines] among
    them. *)
Definition settle (balances : list Q) (names : list string) : outcome :=
  run_loop settled_web names
    (sorted_desc (debtors_of balances)) (sorted_desc (creditors_of balances)).

(** [[round(p - o, 2) for p, o in zip(paid, owed)]] *)
Definition derive_balances (paid owed : list Q) : list Q :=
  map (fun po : Q * Q => round2 (fst po - snd po)) (zip paid owed).

(** [calc_with_equal_share(total_amount, paid, names)] *)
Definition calc_with_equal_share (total_amount : Q) (paid : list Q)
    (names : list string) : result (list Q * list Q) :=
  let n := length names in
  match n with
  | O => Raise ZeroDivisionError
  | S _ =>
    let owed_each := replicate n (total_amount / inject_Z (Z.of_nat n)) in
    let balances := derive_balances paid owed_each in
    Ok (owed_each, balances)
  end.

Record Item : Type := MkItem {
  item_name : string;
  item_amount : Q;
  item_participants : list string
}.

(** [idx = {name: i for i, name in enumerate(names)}] *)
Definition name_index (names : list string) : gmap string nat :=
  foldl (fun (m : gmap string nat) (e : nat * string) => <[snd e := fst e]> m)
        ∅ (enumerate names).

(** [for person in participants: if person in idx: owed[idx[person]] += share] *)
Definition add_shares (idx : gmap string nat) (share : Q)
    (participants : list string) (owed : list Q) : list Q :=
  foldl (fun (owed : list Q) (person : string) =>
           match idx !! person with
           | Some k => alter (fun x : Q => x + share) k owed
           | None => owed
           end)
        owed participants.

(** One iteration of [for it in items], on the pair [(total_amount, owed)]. *)
Definition add_item (idx : gmap string nat) (acc : Q * list Q) (it : Item) :
    Q * list Q :=
  let amount := item_amount it in
  let participants := item_participants it in
  if Qleb amount 0 || bool_decide (participants = [])
  then acc
  else
    let total_amount := fst acc + amount in
    let share := amount / inject_Z (Z.of_nat (length participants)) in
    (total_amount, add_shares idx share participants (snd acc)).

(** The accumulators after the loop over the items, before any rounding. *)
Definition itemized_raw (items : list Item) (names : list string) : Q * list Q :=
  foldl (add_item (name_index names)) (0, replicate (length names) 0) items.

(** [calc_with_itemized(items, paid, names)] *)
Definition calc_with_itemized (items : list Item) (paid : list Q)
    (names : list string) : Q * list Q * list Q :=
  let '(total_amount, owed) := itemized_raw items names in
  let owed := map round2 owed in
  let balances := derive_balances paid owed in
  (total_amount, owed, balances).

(** ** main.py *)

(** The computation of [ExpenseSplitterApp.calculate_split] once the entry
    fields have been read into [names] and [contributions]: the balances and
    the settlement loop.  [total_people] is the count typed into the form. *)
Definition desktop_balances (total_amount : Q) (total_people : Z)
    (contributions : list Q) : result (list Q) :=
  if Z.eqb total_people 0 then Raise ZeroDivisionError
  else
    let equal_share := total_amount / inject_Z total_people in
    Ok (map (fun paid : Q => round2 (paid - equal_share)) contributions).

Definition desktop_settle (balances : list Q) (names : list string) : outcome :=
  run_loop settled_desktop names (debtors_of balances) (creditors_of balances).

Definition calculate_split (total_amount : Q) (total_people : Z)
    (names : list string) (contributions : list Q) : outcome :=
  match desktop_balances total_amount total_people contributions with
  | Raise e => Failed e
  | Ok balances => desktop_settle balances names
  end.

(** * What the properties are stated with *)

(** ** Steps and ends of the loop *)

(** What the two cursor tests have in common: a remainder of exactly zero
    moves the cursor on, and a non-negative remainder that does not move it
    on is strictly positive. *)
Class CursorTest (settled : Q -> bool) : Prop := {
  settled_zero : forall x, x == 0 -> settled x = true;
  unsettled_pos : forall x, 0 <= x -> settled x = false -> 0 < x
}.

(** The cursors of [st] are in range and the body turns [st] into [st']. *)
Definition loop_step (settled : Q -> bool) (names : list string)
    (st st' : loop_state) : Prop :=
  exists d c,
    ls_debtors st !! ls_i st = Some d /\
    ls_creditors st !! ls_j st = Some c /\
    loop_body settled names st d c = Ok st'.

(** Neither cursor of [st] can go on. *)
Definition exhausted (st : loop_state) : Prop :=
  ls_i st = length (ls_debtors st) \/ ls_j st = length (ls_creditors st).

(** What is left to walk: the loop body makes it strictly smaller. *)
Definition remaining (st : loop_state) : nat :=
  (length (ls_debtors st) - ls_i st) + (length (ls_creditors st) - ls_j st).

(** ** Amounts, sums and counts *)

(** The sum of a list of amounts. *)
Definition Qsum (l : list Q) : Q := foldr Qplus 0 l.

(** The sum of the amounts of a list of entries. *)
Fixpoint total_of (l : list entry) : Q :=
  match l with
  | [] => 0
  | e :: l' => snd e + total_of l'
  end.

(** [x] is a whole number of hundredths, as every result of [round(_, 2)]. *)
Definition is_cents (x : Q) : Prop := exists z : Z, x == z # 100.

(** The number of balances that are not zero. *)
Definition nonzero_count (balances : list Q) : nat :=
  length (filter (fun b : Q => Qeqb b 0 = false) balances).

(** The balance of participant [k]. *)
Definition balance_at (balances : list Q) (k : nat) : Q := default 0 (balances !! k).

(** What the payer of a line owes, what its payee is owed. *)
Definition payer_debt (balances : list Q) (t : transfer) : Q :=
  - balance_at balances (t_from t).
Definition payee_credit (balances : list Q) (t : transfer) : Q :=
  balance_at balances (t_to t).

(** What a shell shows of a line. *)
Definition shown (t : transfer) : string * string * Q :=
  (t_from_name t, t_to_name t, t_amt t).

(** ** Order *)

(** [before a b]: [a] has the larger amount or, the amounts being equal, the
    lower index. *)
Definition before (a b : entry) : Prop :=
  snd b < snd a \/ (snd a == snd b /\ (fst a < fst b)%nat).

(** [a] comes from an earlier position of the balances than [b]. *)
Definition index_lt (a b : entry) : Prop := (fst a < fst b)%nat.

(** ** Carrying out a settlement *)

(** The payer owes, the payee is owed, and the amount is positive. *)
Definition directed (balances : list Q) (t : transfer) : Prop :=
  (exists b, balances !! t_from t = Some b /\ b < 0) /\
  (exists b, balances !! t_to t = Some b /\ 0 < b) /\
  0 < t_amt t.

(** A transfer carried out on the signed balances (paid - owed): the payer
    hands the amount over, which takes that much off the payer's debt (the
    negative balance rises by the amount) and off what the payee is still to
    receive (the positive balance falls by it). *)
Definition apply_transfer (balances : list Q) (t : transfer) : list Q :=
  alter (fun b : Q => b - t_amt t) (t_to t)
    (alter (fun b : Q => b + t_amt t) (t_from t) balances).

(** All the transfers of a settlement, in their order. *)
Definition apply_transfers (balances : list Q) (ts : list transfer) : list Q :=
  foldl apply_transfer balances ts.


(** What participant [k] pays in all the transfers. *)
Fixpoint paid_by (k : nat) (ts : list transfer) : Q :=
  match ts with
  | [] => 0
  | t :: ts' => (if decide (t_from t = k) then t_amt t else 0) + paid_by k ts'
  end.

(** What participant [k] receives in all the transfers. *)
Fixpoint received_by (k : nat) (ts : list transfer) : Q :=
  match ts with
  | [] => 0
  | t :: ts' => (if decide (t_to t = k) then t_amt t else 0) + received_by k ts'
  end.

(** ** Items *)

(** The participants of an item that the dictionary knows. *)
Definition known (idx : gmap string nat) (person : string) : Prop :=
  is_Some (idx !! person).

(** How many of the listed participants the dictionary knows. *)
Definition known_count (idx : gmap string nat) (participants : list string) : nat :=
  length (filter (known idx) participants).

(** An item that [calc_with_itemized] does not skip. *)
Definition item_valid (it : Item) : bool :=
  negb (Qleb (item_amount it) 0 || bool_decide (item_participants it = [])).

(** [share = amount / len(participants)] *)
Definition item_share (it : Item) : Q :=
  item_amount it / inject_Z (Z.of_nat (length (item_participants it))).

(** The sum of the amounts of the items that are not skipped. *)
Definition valid_total (items : list Item) : Q :=
  Qsum (map item_amount (filter (fun it => item_valid it = true) items)).

(** The sum of the shares that reach an accumulator: per item, one share for
    every listed participant that the dictionary knows. *)
Definition shared_total (idx : gmap string nat) (items : list Item) : Q :=
  Qsum (map (fun it => item_share it
                        * inject_Z (Z.of_nat (known_count idx (item_participants it))))
            (filter (fun it => item_valid it = true) items)).

(** Every participant of every valid item is in the master list. *)
Definition all_listed (names : list string) (items : list Item) : Prop :=
  Forall (fun it => item_valid it = true ->
                    Forall (fun p => p ∈ names) (item_participants it)) items.

(** ** Invariants of the loop *)

(** What a line says about the lists the loop started from: payer and payee
    are indices of these lists, the names were read at these indices, and the
    amount is positive. *)
Definition line_ok (names : list string) (debtors creditors : list entry)
    (t : transfer) : Prop :=
  t_from t ∈ (fst <$> debtors) /\
  t_to t ∈ (fst <$> creditors) /\
  names !! t_from t = Some (t_from_name t) /\
  names !! t_to t = Some (t_to_name t) /\
  0 < t_amt t.

(** The entries from position [k] on are positive. *)
Definition positive_from (k : nat) (l : list entry) : Prop :=
  forall p e, (k <= p)%nat -> l !! p = Some e -> 0 < snd e.

(** What the loop keeps true of lists that start positive: the indices stay
    in place, the entries at and after the cursors are positive, and every
    line is as [line_ok] says. *)
Definition loop_inv (names : list string) (debtors0 creditors0 : list entry)
    (st : loop_state) : Prop :=
  fst <$> ls_debtors st = fst <$> debtors0 /\
  fst <$> ls_creditors st = fst <$> creditors0 /\
  positive_from (ls_i st) (ls_debtors st) /\
  positive_from (ls_j st) (ls_creditors st) /\
  Forall (line_ok names debtors0 creditors0) (ls_lines st).

(** Every pass moves a cursor on, and the last pass of a run that walks both
    lists to their ends moves both. *)
Definition count_inv (debtors0 creditors0 : list entry)
    (st : loop_state) : Prop :=
  length (ls_debtors st) = length debtors0 /\
  length (ls_creditors st) = length creditors0 /\
  (ls_i st <= length debtors0)%nat /\
  (ls_j st <= length creditors0)%nat /\
  (length (ls_lines st) <= ls_i st + ls_j st)%nat /\
  (ls_i st = length debtors0 -> ls_j st = length creditors0 ->
   ls_lines st <> [] -> (S (length (ls_lines st)) <= ls_i st + ls_j st)%nat).

(** What the loop keeps true of lists sorted by the keys [kd] and [kc] of
    their indices: along the lines the keys of payer and payee do not grow,
    and no entry still to be walked has a larger key than a line. *)
Definition walk_inv (debtors0 creditors0 : list entry) (kd kc : nat -> Q)
    (st : loop_state) : Prop :=
  fst <$> ls_debtors st = fst <$> debtors0 /\
  fst <$> ls_creditors st = fst <$> creditors0 /\
  StronglySorted (fun t t' => kd (t_from t') <= kd (t_from t)) (ls_lines st) /\
  StronglySorted (fun t t' => kc (t_to t') <= kc (t_to t)) (ls_lines st) /\
  (forall t p k, t ∈ ls_lines st -> (ls_i st <= p)%nat ->
     (fst <$> debtors0) !! p = Some k -> kd k <= kd (t_from t)) /\
  (forall t p k, t ∈ ls_lines st -> (ls_j st <= p)%nat ->
     (fst <$> creditors0) !! p = Some k -> kc k <= kc (t_to t)).

(** Every entry holds what it started with, less what its participant has
    paid (a debtor) or received (a creditor) in the lines so far. *)
Definition acct_inv (debtors0 creditors0 : list entry)
    (st : loop_state) : Prop :=
  fst <$> ls_debtors st = fst <$> debtors0 /\
  fst <$> ls_creditors st = fst <$> creditors0 /\
  (forall p e0 e, debtors0 !! p = Some e0 -> ls_debtors st !! p = Some e ->
     snd e == snd e0 - paid_by (fst e0) (ls_lines st)) /\
  (forall p e0 e, creditors0 !! p = Some e0 -> ls_creditors st !! p = Some e ->
     snd e == snd e0 - received_by (fst e0) (ls_lines st)).

(** ** Scenarios *)

(** The balances and names of the equal-split scenario: one participant paid
    300 for three. *)
Definition scenario_balances : list Q := [200; -100; -100].
Definition scenario_names : list string := ["P1"; "P2"; "P3"]%string.

(** The equal-split scenario from its inputs: the balances as
    [calc_with_equal_share] rounds them. *)
Definition scenario_paid : list Q := [300; 0; 0].
Definition scenario_rounded : list Q := [20000 # 100; (-10000) # 100; (-10000) # 100].

(** The itemized scenario: A and B share 100, B and C share 50. *)
Definition itemized_names : list string := ["A"; "B"; "C"]%string.
Definition itemized_items : list Item :=
  [MkItem "x" 100 ["A"; "B"]; MkItem "y" 50 ["B"; "C"]]%string.
Definition itemized_paid : list Q := [100; 0; 50].

(** The already-settled scenario. *)
Definition settled_balances : list Q := [0; 0; 0].

(** Balances whose debtors are not in descending order. *)
Definition unsorted_balances : list Q := [-1; -4; 5].


(** The itemized scenario with an unknown name: Z shares the first item but
    is not in the master list. *)
Definition stranger_names : list string := ["A"; "B"; "C"]%string.
Definition stranger_items : list Item :=
  [MkItem "x" 100 ["A"; "Z"]; MkItem "y" 50 ["B"; "C"]]%string.

(** Two participants split 100 and neither has paid anything. *)
Definition unpaid : list Q := [0; 0].

(** Three participants split 100 that the first has paid: the rounded
    balances sum to 0.01. *)
Definition thirds_rounded : list Q := [6667 # 100; (-3333) # 100; (-3333) # 100].

(** Balances that are not whole cents and sum to zero. *)
Definition subcent_balances : list Q :=
  [1009 # 1000; 1009 # 1000; -1; -1; (-18) # 1000].
Definition subcent_names : list string := ["P1"; "P2"; "P3"; "P4"; "P5"]%string.


(** * Text, forms and further invariants *)

(** ** Further invariants of the loop *)

(** For either cursor test: nothing is negative, every entry that a cursor
    has passed met the test, and both lists have lost the same sum. *)
Definition tally_inv (settled : Q -> bool) (debtors0 creditors0 : list entry)
    (st : loop_state) : Prop :=
  (forall p e, ls_debtors st !! p = Some e -> 0 <= snd e) /\
  (forall p e, ls_creditors st !! p = Some e -> 0 <= snd e) /\
  (forall p e, (p < ls_i st)%nat -> ls_debtors st !! p = Some e ->
     settled (snd e) = true) /\
  (forall p e, (p < ls_j st)%nat -> ls_creditors st !! p = Some e ->
     settled (snd e) = true) /\
  total_of (ls_debtors st) - total_of (ls_creditors st)
  == total_of debtors0 - total_of creditors0.

(** The payer and payee of a line as a pair. *)
Definition pair_of (t : transfer) : nat * nat := (t_from t, t_to t).

(** Every line was written at a pair of positions that the cursors have
    left behind, and no pair of participants has two lines. *)
Definition pairs_inv (debtors0 creditors0 : list entry) (st : loop_state) : Prop :=
  fst <$> ls_debtors st = fst <$> debtors0 /\
  fst <$> ls_creditors st = fst <$> creditors0 /\
  (ls_i st <= length debtors0)%nat /\
  (ls_j st <= length creditors0)%nat /\
  (forall t, t ∈ ls_lines st ->
     exists p q,
       (fst <$> debtors0) !! p = Some (t_from t) /\
       (fst <$> creditors0) !! q = Some (t_to t) /\
       (p <= ls_i st)%nat /\ (q <= ls_j st)%nat /\
       ((p < ls_i st)%nat \/ (q < ls_j st)%nat)) /\
  NoDup (pair_of <$> ls_lines st).

(** The balance of participant [k] has moved from [b] to [b'] towards zero
    and not beyond. *)
Definition towards_zero (b b' : Q) : Prop :=
  (b < 0 -> b <= b' <= 0) /\ (0 < b -> 0 <= b' <= b) /\ (b == 0 -> b' == 0).

(** ** The text that [settle] returns *)

(** A Python [str] is modelled by the bytes of its UTF-8 encoding, which
    concatenation and [join] respect.  The three symbols below are the
    characters as they stand in app1.py. *)
Definition arrow_symbol : string := "â†’".
Definition rupee_symbol : string := "â‚¹".
Definition handshake_symbol : string := "ðŸ¤".

(** ["\n"] *)
Definition newline : string := String (Ascii.ascii_of_nat 10) EmptyString.

(** A natural number in decimal. *)
Definition digits (n : Z) : string := NilZero.string_of_uint (N.to_uint (Z.to_N n)).

Definition two_digits (n : Z) : string :=
  ((if (n <? 10)%Z then "0" else EmptyString) ++ digits n)%string.

(** [f"{x:.2f}"]: the hundredths nearest to [x], ties to even (the conversion
    rounds the exact value correctly), with every digit before the point and
    two after it; the sign is that of [x]. *)
Definition format_2f (x : Q) : string :=
  let n := round_half_even (Qabs x * 100) in
  ((if Qltb x 0 then "-" else EmptyString)
   ++ digits (n / 100) ++ "." ++ two_digits (n mod 100))%string.

(** [f"-> {names[d_idx]} pays Rs{pay_amt:.2f} to {names[c_idx]}"], with the
    two symbols of the source. *)
Definition line_text (t : transfer) : string :=
  (arrow_symbol ++ " " ++ t_from_name t ++ " pays " ++ rupee_symbol
   ++ format_2f (t_amt t) ++ " to " ++ t_to_name t)%string.

Definition all_settled_text : string :=
  (handshake_symbol ++ " Settlements:" ++ newline ++ "All settled!")%string.

(** The value of the [return] of [settle], from the lines that the loop has
    written. *)
Definition settlements_text (lines : list transfer) : string :=
  (handshake_symbol ++ " Settlements:" ++ newline
   ++ match lines with
      | [] => "All settled!"
      | _ :: _ => String.concat newline (map line_text lines)
      end)%string.

(** ** What the itemized split charges to one person *)

(** The number of times [person] is listed in an item. *)
Definition times_listed (person : string) (participants : list string) : nat :=
  length (filter (fun p => p = person) participants).

(** [k] is the last position of [names] that holds [person]. *)
Definition last_at (names : list string) (k : nat) (person : string) : Prop :=
  names !! k = Some person /\
  forall k', (k < k')%nat -> names !! k' <> Some person.

(** How many of the listed participants the dictionary sends to position [k]. *)
Definition hits (idx : gmap string nat) (k : nat) (participants : list string) : nat :=
  length (filter (fun p => idx !! p = Some k) participants).

(** What the valid items add to the accumulator at position [k]. *)
Definition charged (idx : gmap string nat) (k : nat) (items : list Item) : Q :=
  Qsum (map (fun it => item_share it
                        * inject_Z (Z.of_nat (hits idx k (item_participants it))))
            (filter (fun it => item_valid it = true) items)).

(** A master list in which the second and the fourth name are one person's. *)
Definition twice_names : list string := ["A"; "B"; "C"; "B"]%string.

(** ** The desktop form (main.py) *)

(** [status = "receives" if bal > 0 else "pays" if bal < 0 else "is settled"] *)
Definition status_of (bal : Q) : string :=
  if Qltb 0 bal then "receives" else if Qltb bal 0 then "pays" else "is settled".

(** The symbols of main.py. *)
Definition desktop_bullet : string := "•".
Definition desktop_rupee : string := "₹".
Definition desktop_arrow : string := "→".
Definition desktop_money : string := "💰".
Definition desktop_page : string := "📄".
Definition desktop_handshake : string := "🤝".

Definition desktop_summary_line (name : string) (paid bal : Q) : string :=
  (desktop_bullet ++ " " ++ name ++ " paid " ++ desktop_rupee ++ format_2f paid
   ++ " " ++ desktop_arrow ++ " " ++ status_of bal ++ " " ++ desktop_rupee
   ++ format_2f (Qabs bal) ++ newline)%string.

(** [for i in range(self.total_people)] over [balances[i]], [names[i]] and
    [contributions[i]]: the lines of the summary, from row [i] on. *)
Fixpoint desktop_summary (names : list string) (contributions balances : list Q)
    (count i : nat) : result (list string) :=
  match count with
  | O => Ok []
  | S count' =>
    match balances !! i, names !! i, contributions !! i with
    | Some bal, Some name, Some paid =>
      match desktop_summary names contributions balances count' (S i) with
      | Ok lines => Ok (desktop_summary_line name paid bal :: lines)
      | Raise e => Raise e
      end
    | _, _, _ => Raise IndexError
    end
  end.

Definition desktop_line_text (t : transfer) : string :=
  (desktop_arrow ++ " " ++ t_from_name t ++ " pays " ++ desktop_rupee
   ++ format_2f (t_amt t) ++ " to " ++ t_to_name t ++ newline)%string.

(** What [calculate_split] has written into [result_text] when it returns. *)
Definition desktop_text (equal_share : Q) (summary : list string)
    (lines : list transfer) : string :=
  (desktop_money ++ " Equal share per person: " ++ desktop_rupee
   ++ format_2f equal_share ++ newline ++ newline
   ++ desktop_page ++ " Summary:" ++ newline
   ++ String.concat EmptyString summary
   ++ newline ++ desktop_handshake ++ " Settlements:" ++ newline
   ++ String.concat EmptyString (map desktop_line_text lines))%string.

(** What [float] makes of a text for which it raises nothing: a finite
    number, or one of [inf], [-inf] and [nan]. *)
Inductive py_float : Type :=
| Finite (x : Q)
| NonFinite.

(** The numbers of a list in which every entry is finite. *)
Fixpoint finite_amounts (l : list py_float) : option (list Q) :=
  match l with
  | [] => Some []
  | Finite x :: l' =>
    match finite_amounts l' with
    | Some xs => Some (x :: xs)
    | None => None
    end
  | NonFinite :: _ => None
  end.

(** How reading the entry fields ends: with the two lists, with a message
    box, or with an exception that nothing catches. *)
Inductive read_result : Type :=
| ReadOk (names : list string) (contributions : list py_float)
| ReadError (title message : string)
| ReadRaise (e : exn).

(** How [calculate_split] ends.  [BeyondFinite]: the form has accepted a
    payment that is [inf] or [nan]; the arithmetic on such a value (where
    [inf - inf] is [nan], which no comparison accepts, so that the loop need
    not end) is not part of this embedding. *)
Inductive form_result : Type :=
| Results (text : string) (st : loop_state)
| ErrorBox (title message : string)
| Uncaught (e : exn)
| Unfinished
| BeyondFinite.

Section Form.

(** [str.strip] and [float] are Python's: [float] gives [None] where Python
    raises [ValueError]. *)
Variable strip : string -> string.
Variable float : string -> option py_float.

(** The first loop of [calculate_split], from row [i] on, for [count] more
    rows: the amount is converted before the name is tested. *)
Fixpoint read_entries (name_entries paid_entries : list string) (count i : nat)
    (names : list string) (contributions : list py_float) : read_result :=
  match count with
  | O => ReadOk names contributions
  | S count' =>
    match name_entries !! i with
    | None => ReadRaise IndexError
    | Some name_text =>
      let name := strip name_text in
      match paid_entries !! i with
      | None => ReadRaise IndexError
      | Some paid_text =>
        match float paid_text with
        | None =>
          ReadError "Invalid Input" "Please enter valid numeric values for payment."
        | Some amount =>
          if bool_decide (name = EmptyString)
          then ReadError "Missing Name"
                 ("Please enter a name for Person " ++ digits (Z.of_nat (i + 1)))%string
          else read_entries name_entries paid_entries count' (S i)
                 (names ++ [name]) (contributions ++ [amount])
        end
      end
    end
  end.

(** [ExpenseSplitterApp.calculate_split], from the contents of the entry
    fields. *)
Definition calculate_split_form (total_amount : Q) (total_people : Z)
    (name_entries paid_entries : list string) : form_result :=
  match read_entries name_entries paid_entries (Z.to_nat total_people) 0 [] [] with
  | ReadRaise e => Uncaught e
  | ReadError title message => ErrorBox title message
  | ReadOk names payments =>
    match finite_amounts payments with
    | None => BeyondFinite
    | Some contributions =>
      match desktop_balances total_amount total_people contributions with
      | Raise e => Uncaught e
      | Ok balances =>
        match desktop_summary names contributions balances
                (Z.to_nat total_people) 0 with
        | Raise e => Uncaught e
        | Ok summary =>
          match desktop_settle balances names with
          | Failed e => Uncaught e
          | OutOfFuel => Unfinished
          | Done st =>
            Results (desktop_text (total_amount / inject_Z total_people) summary
                       (ls_lines st)) st
          end
        end
      end
    end
  end.

(** A row that the first loop accepts. *)
Definition row_accepted (name_text paid_text : string) : Prop :=
  is_Some (float paid_text) /\ strip name_text <> EmptyString.

(** A row that the first loop accepts and whose payment is [amount], a
    finite number. *)
Definition row_finite (name_text paid_text : string) (amount : Q) : Prop :=
  float paid_text = Some (Finite amount) /\ strip name_text <> EmptyString.

End Form.

(** A reading of the fields for the examples: nothing is stripped, and the
    text of a payment is its number of characters unless it is a question
    mark. *)
Definition example_strip (s : string) : string := s.
Definition example_float (s : string) : option py_float :=
  if bool_decide (s = "?"%string) then None
  else Some (Finite (inject_Z (Z.of_nat (String.length s)))).

(** ** The web wizard ([main] of app1.py) *)

(** The state that the wizard keeps between runs of the script. *)
Record AppState : Type := MkAppState {
  app_stage : Z;
  app_people : Z;
  app_amount : Q;
  app_names : list string;
  app_paid : list Q;
  app_use_itemized : bool;
  app_items : list Item;
  app_owed : option (list Q);
  app_balances : option (list Q)
}.

(** What a button does: it changes the state and runs the script again, or
    it shows a message and leaves the state alone. *)
Inductive handled : Type :=
| Rerun (app : AppState)
| Message (text : string) (app : AppState).

(** The button Next of step 1. *)
Definition next_step (people_count : Z) (total_amount : Q) (app : AppState) : handled :=
  if (0 <? people_count)%Z && Qltb 0 total_amount
  then Rerun (MkAppState 2 people_count total_amount (app_names app) (app_paid app)
                (app_use_itemized app) (app_items app) (app_owed app) (app_balances app))
  else Message "Please enter valid numbers for people and amount." app.

(** [[f"Person {i+1}" for i in range(n)]] *)
Definition default_names (n : nat) : list string :=
  map (fun i => ("Person " ++ digits (Z.of_nat (i + 1)))%string) (seq 0 n).

(** The first lines of step 2: names and payments that are missing or do not
    match the number of people are replaced by defaults. *)
Definition stage2_defaults (app : AppState) : AppState :=
  let n := Z.to_nat (app_people app) in
  let names :=
    if bool_decide (app_names app = [])
       || negb (Z.of_nat (length (app_names app)) =? app_people app)%Z
    then default_names n else app_names app in
  let paid :=
    if bool_decide (app_paid app = [])
       || negb (Z.of_nat (length (app_paid app)) =? app_people app)%Z
    then replicate n 0 else app_paid app in
  MkAppState (app_stage app) (app_people app) (app_amount app) names paid
    (app_use_itemized app) (app_items app) (app_owed app) (app_balances app).

(** The symbols of the results page, as they stand in app1.py. *)
Definition money_symbol : string := "ðŸ’°".
Definition page_symbol : string := "ðŸ“„".
Definition bullet_symbol : string := "â€¢".

(** One line of the summary. *)
Definition summary_line (name : string) (paid owed bal : Q) : string :=
  (bullet_symbol ++ " " ++ name ++ " paid " ++ rupee_symbol ++ format_2f paid
   ++ " | owed " ++ rupee_symbol ++ format_2f owed ++ " " ++ arrow_symbol ++ " "
   ++ status_of bal ++ " " ++ rupee_symbol ++ format_2f (Qabs bal))%string.

(** [for name, paid, owed, bal in zip(names, paid, owed, balances)] *)
Fixpoint summary_lines (names : list string) (paid owed balances : list Q) :
    list string :=
  match names, paid, owed, balances with
  | name :: names', p :: paid', o :: owed', bal :: balances' =>
    summary_line name p o bal :: summary_lines names' paid' owed' balances'
  | _, _, _, _ => []
  end.

Definition summary_text (names : list string) (paid owed balances : list Q) : string :=
  String.concat newline
    ((page_symbol ++ " Summary:")%string :: summary_lines names paid owed balances).

(** The line above the summary. *)
Definition results_headline (app : AppState) : string :=
  if app_use_itemized app
  then ("Total bill (itemized): **" ++ rupee_symbol ++ format_2f (app_amount app)
        ++ "**")%string
  else (money_symbol ++ " Equal share per person: **" ++ rupee_symbol
        ++ format_2f (app_amount app / inject_Z (Z.max 1 (app_people app)))
        ++ "**")%string.

(** How the results page ends up. *)
Inductive page : Type :=
| Page (headline text : string)
| PageRaise (e : exn)
| PageUnfinished.

(** Step 3 up to the text area, which shows the summary, an empty line and
    the text of [settle]. *)
Definition results_page (app : AppState) (owed balances : list Q) : page :=
  match settle balances (app_names app) with
  | Done st =>
    Page (results_headline app)
      (summary_text (app_names app) (app_paid app) owed balances
       ++ newline ++ newline ++ settlements_text (ls_lines st))%string
  | Failed e => PageRaise e
  | OutOfFuel => PageUnfinished
  end.

Section Wizard.

(** [str.strip] is Python's.  The two widgets of step 2 give, for a position
    and the value that they are created with, the value on the screen. *)
Variable strip : string -> string.
Variable name_input : nat -> string -> string.
Variable paid_input : nat -> string -> Q -> Q.

(** [for i in range(app.people): app.names[i] = st.text_input(...)], from
    position [i] on. *)
Fixpoint fill_names (count i : nat) (names : list string) : result (list string) :=
  match count with
  | O => Ok names
  | S count' =>
    match names !! i with
    | None => Raise IndexError
    | Some value => fill_names count' (S i) (<[i := name_input i value]> names)
    end
  end.

(** [for i in range(app.people): app.paid[i] = st.number_input(...)] *)
Fixpoint fill_paid (names : list string) (count i : nat) (paid : list Q) :
    result (list Q) :=
  match count with
  | O => Ok paid
  | S count' =>
    match names !! i with
    | None => Raise IndexError
    | Some name =>
      match paid !! i with
      | None => Raise IndexError
      | Some value =>
        fill_paid names count' (S i) (<[i := paid_input i name value]> paid)
      end
    end
  end.

(** Step 2 down to its buttons. *)
Definition stage2 (app : AppState) : result AppState :=
  let app := stage2_defaults app in
  let n := Z.to_nat (app_people app) in
  match fill_names n 0 (app_names app) with
  | Raise e => Raise e
  | Ok names =>
    match fill_paid names n 0 (app_paid app) with
    | Raise e => Raise e
    | Ok paid =>
      Ok (MkAppState (app_stage app) (app_people app) (app_amount app) names paid
            (app_use_itemized app) (app_items app) (app_owed app) (app_balances app))
    end
  end.

(** The button Calculate of step 2. *)
Definition calculate (app : AppState) : result handled :=
  if existsb (fun n => bool_decide (strip n = EmptyString)) (app_names app)
  then Ok (Message "Please enter a name for every person." app)
  else if app_use_itemized app then
    if bool_decide (app_items app = [])
    then Ok (Message "Please add at least one item before calculating." app)
    else
      let '(total_amount, owed, balances) :=
        calc_with_itemized (app_items app) (app_paid app) (app_names app) in
      Ok (Rerun (MkAppState 3 (app_people app) total_amount (app_names app)
                   (app_paid app) (app_use_itemized app) (app_items app)
                   (Some owed) (Some balances)))
  else if Qleb (app_amount app) 0
  then Ok (Message "Please go back and enter a positive total amount." app)
  else
    match calc_with_equal_share (app_amount app) (app_paid app) (app_names app) with
    | Raise e => Raise e
    | Ok (owed, balances) =>
      Ok (Rerun (MkAppState 3 (app_people app) (app_amount app) (app_names app)
                   (app_paid app) (app_use_itemized app) (app_items app)
                   (Some owed) (Some balances)))
    end.

End Wizard.

(** Widgets that nobody touches show the value they are created with. *)
Definition untouched_name (i : nat) (value : string) : string := value.
Definition untouched_paid (i : nat) (name : string) (value : Q) : Q := value.

(** The state of a fresh session. *)
Definition fresh_app : AppState :=
  MkAppState 1 1 0 [] [] false [] None None.

(** ** Statements that leave room for rounding *)

(** An amount in the range in which a binary floating-point number carries
    hundredths with an error far below half a cent: at most 10^6 in absolute
    value. *)
Definition ordinary (x : Q) : Prop := Qabs x <= 1000000.

(** The whole number of cents nearest to an amount. *)
Definition cents_of (x : Q) : Z := round_half_even (x * 100).

Definition Zsum (l : list Z) : Z := foldr Z.add 0%Z l.

(** A balance that is zero or at least 0.01 from zero, as a balance rounded
    to two decimals is. *)
Definition cent_or_more (b : Q) : Prop := b == 0 \/ cent <= Qabs b.

(** The entries from position [k] on are at least 0.01. *)
Definition cent_from (k : nat) (l : list entry) : Prop :=
  forall p e, (k <= p)%nat -> l !! p = Some e -> cent <= snd e.

Definition floor_inv (st : loop_state) : Prop :=
  cent_from (ls_i st) (ls_debtors st) /\
  cent_from (ls_j st) (ls_creditors st) /\
  Forall (fun t => cent <= t_amt t) (ls_lines st).


(** The shares that the items add to the accumulator of [person], in the
    order in which the loops add them: for every item that is not skipped,
    its share once for every time it lists the person. *)
Definition shares_of (person : string) (items : list Item) : list Q :=
  flat_map (fun it => replicate (times_listed person (item_participants it))
                        (item_share it))
           (filter (fun it => item_valid it = true) items).

(** The same for the position [k] that the dictionary sends names to. *)
Definition shares_at (idx : gmap string nat) (k : nat) (items : list Item) : list Q :=
  flat_map (fun it => replicate (hits idx k (item_participants it)) (item_share it))
           (filter (fun it => item_valid it = true) items).

(** [x = 0.0; for s in shares: x += s] *)
Definition running_sum (shares : list Q) : Q := foldl Qplus 0 shares.

(** Amounts for the examples. *)
Definition dust_balances : list Q := [(-30) # 100; (-30) # 100; 10 # 100; 20 # 100; 30 # 100].
Definition dust_names : list string := ["P1"; "P2"; "P3"; "P4"; "P5"]%string.

(** * Properties *)

(** ** The scenarios, evaluated *)

(** Equal split: 300 paid by P1 for three; P2 and P3 pay 100 each to P1, in
    input order. *)
Example equal_split_scenario :
  calc_with_equal_share 300 scenario_paid scenario_names
  = Ok (replicate 3 (300 / 3), scenario_rounded) /\
  exists st, settle scenario_rounded scenario_names = Done st /\
    shown <$> ls_lines st
    = [("P2", "P1", 10000 # 100); ("P3", "P1", 10000 # 100)]%string.
Proof.
  split; [reflexivity|]. eexists. split; [reflexivity|]. reflexivity.
Qed.

(** Equal split of 100 by three: the rounded balances keep a cent. *)
Example thirds_scenario :
  calc_with_equal_share 100 [100; 0; 0] scenario_names
  = Ok (replicate 3 (100 / 3), thirds_rounded) /\
  Qsum thirds_rounded == cent.
Proof. split; reflexivity. Qed.

(** Itemized split: owed 50, 75 and 25, grand total 150. *)
Example itemized_scenario :
  calc_with_itemized itemized_items itemized_paid itemized_names
  = (0 + 100 + 50, [5000 # 100; 7500 # 100; 2500 # 100],
     [5000 # 100; (-7500) # 100; 2500 # 100]).
Proof. reflexivity. Qed.

(** Already settled: no line. *)
Example settled_scenario :
  exists st, settle settled_balances scenario_names = Done st /\ ls_lines st = [].
Proof. eexists. split; reflexivity. Qed.

(** ** Comparisons *)

Lemma Qltb_lt (x y : Q) : Qltb x y = true <-> x < y.
Proof.
  unfold Qltb. rewrite Qlt_alt. destruct (Qcompare x y); split; congruence.
Qed.

Lemma Qltb_ge (x y : Q) : Qltb x y = false <-> y <= x.
Proof.
  rewrite <- not_true_iff_false, Qltb_lt. split.
  - apply Qnot_lt_le.
  - apply Qle_not_lt.
Qed.

Lemma Qeqb_eq (x y : Q) : Qeqb x y = true <-> x == y.
Proof.
  unfold Qeqb. rewrite Qeq_alt. destruct (Qcompare x y); split; congruence.
Qed.

Lemma Qeqb_neq (x y : Q) : Qeqb x y = false <-> ~ x == y.
Proof. rewrite <- not_true_iff_false, Qeqb_eq. tauto. Qed.

Lemma Qleb_le (x y : Q) : Qleb x y = true <-> x <= y.
Proof. unfold Qleb. rewrite negb_true_iff. apply Qltb_ge. Qed.

Lemma py_min_cases (a b : Q) :
  (py_min a b = a /\ a <= b) \/ (py_min a b = b /\ b < a).
Proof.
  unfold py_min. destruct (Qltb b a) eqn:E.
  - right. split; [reflexivity | now apply Qltb_lt].
  - left. split; [reflexivity | now apply Qltb_ge].
Qed.

Lemma py_min_le_l (a b : Q) : py_min a b <= a.
Proof. destruct (py_min_cases a b) as [[-> ?]|[-> ?]]; lra. Qed.

Lemma py_min_le_r (a b : Q) : py_min a b <= b.
Proof. destruct (py_min_cases a b) as [[-> ?]|[-> ?]]; lra. Qed.

Lemma py_min_pos (a b : Q) : 0 < a -> 0 < b -> 0 < py_min a b.
Proof. intros. destruct (py_min_cases a b) as [[-> ?]|[-> ?]]; lra. Qed.

(** After the payment one of the two remainders is zero. *)
Lemma py_min_rem_zero (a b : Q) : a - py_min a b == 0 \/ b - py_min a b == 0.
Proof. destruct (py_min_cases a b) as [[-> ?]|[-> ?]]; [left | right]; lra. Qed.

(** ** The loop, for either cursor test *)

#[global] Instance settled_web_test : CursorTest settled_web.
Proof.
  split; unfold settled_web, cent.
  - intros x Hx. apply Qltb_lt. rewrite Hx. reflexivity.
  - intros x _ Hx. apply Qltb_ge in Hx.
    apply Qlt_le_trans with (1 # 100); [reflexivity | exact Hx].
Qed.

#[global] Instance settled_desktop_test : CursorTest settled_desktop.
Proof.
  split; unfold settled_desktop.
  - intros x Hx. now apply Qeqb_eq.
  - intros x Hpos Hx. apply Qeqb_neq in Hx.
    destruct (Qlt_le_dec 0 x) as [H|H]; [exact H|].
    exfalso. apply Hx. lra.
Qed.

Section Loop.
Context (settled : Q -> bool) (names : list string).

Lemma loop_body_inv st d c st' :
  loop_body settled names st d c = Ok st' ->
  exists d_name c_name,
    names !! fst d = Some d_name /\
    names !! fst c = Some c_name /\
    let pay_amt := py_min (snd d) (snd c) in
    st' = LoopState
            (<[ls_i st := (fst d, snd d - pay_amt)]> (ls_debtors st))
            (<[ls_j st := (fst c, snd c - pay_amt)]> (ls_creditors st))
            (if settled (snd d - pay_amt) then S (ls_i st) else ls_i st)
            (if settled (snd c - pay_amt) then S (ls_j st) else ls_j st)
            (ls_lines st ++ [Transfer (fst d) (fst c) d_name c_name pay_amt]).
Proof.
  destruct d as [d_idx d_amt], c as [c_idx c_amt]. unfold loop_body. simpl.
  destruct (names !! d_idx) as [dn|]; [|discriminate].
  destruct (names !! c_idx) as [cn|]; [|discriminate].
  intros [= <-]. exists dn, cn. auto.
Qed.

Lemma loop_body_raise st d c e :
  loop_body settled names st d c = Raise e ->
  e = IndexError /\ (length names <= fst d \/ length names <= fst c)%nat.
Proof.
  destruct d as [d_idx d_amt], c as [c_idx c_amt]. unfold loop_body. simpl.
  destruct (names !! d_idx) as [dn|] eqn:Ed.
  - destruct (names !! c_idx) as [cn|] eqn:Ec; [discriminate|].
    intros [= <-]. split; [reflexivity|]. right. now apply lookup_ge_None.
  - intros [= <-]. split; [reflexivity|]. left. now apply lookup_ge_None.
Qed.

(** An invariant of the body holds when the loop is left. *)
Lemma settle_loop_invariant (P : loop_state -> Prop) :
  (forall st st', P st -> loop_step settled names st st' -> P st') ->
  forall fuel st st',
    P st -> settle_loop settled names fuel st = Done st' -> P st'.
Proof.
  intros Hstep. induction fuel as [|fuel IH]; intros st st' HP; simpl.
  - destruct (ls_debtors st !! ls_i st) as [d|];
      [destruct (ls_creditors st !! ls_j st) as [c|]|];
      intros [= <-]; try discriminate; exact HP.
  - destruct (ls_debtors st !! ls_i st) as [d|] eqn:Ed;
      [destruct (ls_creditors st !! ls_j st) as [c|] eqn:Ec|];
      try (intros [= <-]; exact HP).
    destruct (loop_body settled names st d c) as [st1|e] eqn:Eb; [|discriminate].
    apply IH. apply (Hstep st); [exact HP|]. exists d, c. auto.
Qed.

(** The loop is left with a cursor at the end of its list. *)
Lemma settle_loop_exit fuel st st' :
  (ls_i st <= length (ls_debtors st))%nat ->
  (ls_j st <= length (ls_creditors st))%nat ->
  settle_loop settled names fuel st = Done st' ->
  exhausted st'.
Proof.
  revert st. induction fuel as [|fuel IH]; intros st Hi Hj; simpl.
  - destruct (ls_debtors st !! ls_i st) as [d|] eqn:Ed;
      [destruct (ls_creditors st !! ls_j st) as [c|] eqn:Ec|];
      intros [= <-].
    + right. apply lookup_ge_None in Ec. lia.
    + left. apply lookup_ge_None in Ed. lia.
  - destruct (ls_debtors st !! ls_i st) as [d|] eqn:Ed;
      [destruct (ls_creditors st !! ls_j st) as [c|] eqn:Ec|].
    + destruct (loop_body settled names st d c) as [st1|e] eqn:Eb; [|discriminate].
      apply loop_body_inv in Eb as (dn & cn & _ & _ & ->).
      apply lookup_lt_Some in Ed, Ec.
      apply IH; simpl; rewrite length_insert.
      * destruct (settled _); lia.
      * destruct (settled _); lia.
    + intros [= <-]. right. apply lookup_ge_None in Ec. lia.
    + intros [= <-]. left. apply lookup_ge_None in Ed. lia.
Qed.

Context `{!CursorTest settled}.

Lemma loop_step_remaining st st' :
  loop_step settled names st st' -> (remaining st' < remaining st)%nat.
Proof.
  intros (d & c & Ed & Ec & Eb).
  apply loop_body_inv in Eb as (dn & cn & _ & _ & ->).
  apply lookup_lt_Some in Ed, Ec.
  unfold remaining. simpl. rewrite !length_insert.
  destruct (py_min_rem_zero (snd d) (snd c)) as [H0|H0];
    rewrite (settled_zero _ H0); destruct (settled _); lia.
Qed.

(** With fuel for what is left to walk the loop does not run out of it. *)
Lemma settle_loop_fuel fuel st :
  (remaining st <= fuel)%nat ->
  settle_loop settled names fuel st <> OutOfFuel.
Proof.
  revert st. induction fuel as [|fuel IH]; intros st Hfuel; simpl.
  - destruct (ls_debtors st !! ls_i st) as [d|] eqn:Ed;
      [destruct (ls_creditors st !! ls_j st) as [c|] eqn:Ec|]; try discriminate.
    apply lookup_lt_Some in Ed, Ec. unfold remaining in Hfuel. lia.
  - destruct (ls_debtors st !! ls_i st) as [d|] eqn:Ed;
      [destruct (ls_creditors st !! ls_j st) as [c|] eqn:Ec|]; try discriminate.
    destruct (loop_body settled names st d c) as [st1|e] eqn:Eb; [|discriminate].
    apply IH.
    assert (remaining st1 < remaining st)%nat
      by (apply loop_step_remaining; exists d, c; auto).
    lia.
Qed.

(** More fuel than that changes nothing. *)
Lemma settle_loop_more_fuel fuel fuel' st :
  (remaining st <= fuel)%nat -> (fuel <= fuel')%nat ->
  settle_loop settled names fuel' st = settle_loop settled names fuel st.
Proof.
  revert fuel' st. induction fuel as [|fuel IH]; intros fuel' st Hrem Hle.
  - destruct fuel' as [|fuel']; [reflexivity|]. simpl.
    destruct (ls_debtors st !! ls_i st) as [d|] eqn:Ed;
      [destruct (ls_creditors st !! ls_j st) as [c|] eqn:Ec|]; try reflexivity.
    apply lookup_lt_Some in Ed, Ec. unfold remaining in Hrem. lia.
  - destruct fuel' as [|fuel']; [lia|]. simpl.
    destruct (ls_debtors st !! ls_i st) as [d|] eqn:Ed;
      [destruct (ls_creditors st !! ls_j st) as [c|] eqn:Ec|]; try reflexivity.
    destruct (loop_body settled names st d c) as [st1|e] eqn:Eb; [|reflexivity].
    apply IH; [|lia].
    assert (remaining st1 < remaining st)%nat
      by (apply loop_step_remaining; exists d, c; auto).
    lia.
Qed.

End Loop.

(** ** Entries and indices *)

Lemma enumerate_from_lookup {A : Type} (l : list A) (start k : nat) (x : A) :
  (k, x) ∈ enumerate_from start l <->
  (start <= k)%nat /\ l !! (k - start)%nat = Some x.
Proof.
  revert start. induction l as [|y l IH]; intros start; simpl.
  - rewrite elem_of_nil. split; [tauto | intros [_ H]; discriminate].
  - rewrite elem_of_cons, IH. split.
    + intros [[= -> ->]|[Hle Hl]].
      * split; [lia|]. now replace (start - start)%nat with O by lia.
      * split; [lia|]. now replace (k - start)%nat with (S (k - S start)) by lia.
    + intros [Hle Hl]. destruct (decide (k = start)) as [->|Hne].
      * left. replace (start - start)%nat with O in Hl by lia.
        simpl in Hl. congruence.
      * right. split; [lia|].
        now replace (k - start)%nat with (S (k - S start)) in Hl by lia.
Qed.

Lemma enumerate_lookup {A : Type} (l : list A) (k : nat) (x : A) :
  (k, x) ∈ enumerate l <-> l !! k = Some x.
Proof.
  unfold enumerate. rewrite enumerate_from_lookup.
  replace (k - 0)%nat with k by lia. split; [tauto | split; [lia | assumption]].
Qed.

(** A creditor entry is an index with a positive balance, with that balance. *)
Lemma elem_of_creditors_of (balances : list Q) (e : entry) :
  e ∈ creditors_of balances <-> balances !! fst e = Some (snd e) /\ 0 < snd e.
Proof.
  unfold creditors_of. rewrite list_elem_of_filter, Qltb_lt.
  destruct e as [k x]. rewrite enumerate_lookup. simpl. tauto.
Qed.

(** A debtor entry is an index with a negative balance, with its magnitude. *)
Lemma elem_of_debtors_of (balances : list Q) (e : entry) :
  e ∈ debtors_of balances <->
  exists b, balances !! fst e = Some b /\ b < 0 /\ snd e = - b.
Proof.
  unfold debtors_of. rewrite list_elem_of_In, in_map_iff. split.
  - intros ([k b] & <- & Hin). apply list_elem_of_In, list_elem_of_filter in Hin.
    rewrite Qltb_lt, enumerate_lookup in Hin. simpl in *. exists b. tauto.
  - intros (b & Hb & Hneg & Hsnd). exists (fst e, b). split.
    + destruct e; simpl in *; congruence.
    + apply list_elem_of_In, list_elem_of_filter.
      rewrite Qltb_lt, enumerate_lookup. simpl. tauto.
Qed.

(** ** The stable descending sort *)

Lemma insert_desc_perm (x : entry) (l : list entry) :
  Permutation (insert_desc x l) (x :: l).
Proof.
  induction l as [|y l IH]; simpl; [reflexivity|].
  destruct (Qltb (snd x) (snd y)); [|reflexivity].
  rewrite IH. apply perm_swap.
Qed.

Lemma sorted_desc_perm (l : list entry) : Permutation (sorted_desc l) l.
Proof.
  induction l as [|x l IH]; simpl; [reflexivity|].
  rewrite insert_desc_perm. now apply perm_skip.
Qed.

Lemma elem_of_sorted_desc (l : list entry) (e : entry) :
  e ∈ sorted_desc l <-> e ∈ l.
Proof. now rewrite (sorted_desc_perm l). Qed.

Lemma length_sorted_desc (l : list entry) : length (sorted_desc l) = length l.
Proof. apply Permutation_length, sorted_desc_perm. Qed.

(** ** Invariants of the loop *)

Lemma positive_from_insert (k : nat) (l : list entry) (e : entry) (settle_it : bool) :
  positive_from k l ->
  (settle_it = false -> 0 < snd e) ->
  positive_from (if settle_it then S k else k) (<[k := e]> l).
Proof.
  intros Hl He p e' Hp Hlook.
  destruct (decide (p = k)) as [->|Hne].
  - destruct settle_it; [lia|].
    destruct (decide (k < length l)%nat) as [Hlt|Hge].
    + rewrite list_lookup_insert_eq in Hlook by exact Hlt.
      injection Hlook as <-. now apply He.
    + rewrite list_insert_ge in Hlook by lia. now apply (Hl k).
  - rewrite list_lookup_insert_ne in Hlook by congruence.
    apply (Hl p); [|exact Hlook]. destruct settle_it; lia.
Qed.

Lemma fst_insert_same (l : list entry) (k : nat) (e e' : entry) :
  l !! k = Some e -> fst e' = fst e -> fst <$> <[k := e']> l = fst <$> l.
Proof.
  intros Hl Hfst. rewrite list_fmap_insert. apply list_insert_id.
  rewrite list_lookup_fmap, Hl. simpl. now rewrite Hfst.
Qed.

Section Invariants.
Context (settled : Q -> bool) `{!CursorTest settled} (names : list string).
Context (debtors0 creditors0 : list entry).

Lemma loop_inv_init :
  Forall (fun e => 0 < snd e) debtors0 ->
  Forall (fun e => 0 < snd e) creditors0 ->
  loop_inv names debtors0 creditors0 (LoopState debtors0 creditors0 0 0 []).
Proof.
  intros Hd Hc. repeat split; simpl; try reflexivity.
  - intros p e _ Hl. rewrite Forall_forall in Hd.
    apply Hd, list_elem_of_lookup. eauto.
  - intros p e _ Hl. rewrite Forall_forall in Hc.
    apply Hc, list_elem_of_lookup. eauto.
  - constructor.
Qed.

Lemma loop_inv_step st st' :
  loop_inv names debtors0 creditors0 st -> loop_step settled names st st' ->
  loop_inv names debtors0 creditors0 st'.
Proof.
  intros (Hfd & Hfc & Hpd & Hpc & Hlines) (d & c & Ed & Ec & Eb).
  apply loop_body_inv in Eb as (dn & cn & Hdn & Hcn & ->). simpl.
  assert (Hd : 0 < snd d) by (apply (Hpd (ls_i st)); [lia | exact Ed]).
  assert (Hc : 0 < snd c) by (apply (Hpc (ls_j st)); [lia | exact Ec]).
  pose proof (py_min_le_l (snd d) (snd c)) as Hle_d.
  pose proof (py_min_le_r (snd d) (snd c)) as Hle_c.
  unfold loop_inv. simpl. repeat split.
  - rewrite <- Hfd. now apply fst_insert_same with d.
  - rewrite <- Hfc. now apply fst_insert_same with c.
  - apply positive_from_insert; [exact Hpd|]. simpl.
    apply unsettled_pos. lra.
  - apply positive_from_insert; [exact Hpc|]. simpl.
    apply unsettled_pos. lra.
  - apply Forall_app. split; [exact Hlines|].
    constructor; [|constructor]. unfold line_ok. simpl. repeat split.
    + rewrite <- Hfd. apply list_elem_of_fmap. exists d. split; [reflexivity|].
      apply list_elem_of_lookup. eauto.
    + rewrite <- Hfc. apply list_elem_of_fmap. exists c. split; [reflexivity|].
      apply list_elem_of_lookup. eauto.
    + exact Hdn.
    + exact Hcn.
    + now apply py_min_pos.
Qed.

Lemma loop_inv_end fuel st st' :
  loop_inv names debtors0 creditors0 st ->
  settle_loop settled names fuel st = Done st' ->
  loop_inv names debtors0 creditors0 st'.
Proof. apply settle_loop_invariant, loop_inv_step. Qed.

(** With every index of the two lists inside [names], no lookup fails. *)
Lemma settle_loop_no_error fuel st e :
  fst <$> ls_debtors st = fst <$> debtors0 ->
  fst <$> ls_creditors st = fst <$> creditors0 ->
  Forall (fun k => (k < length names)%nat) (fst <$> debtors0) ->
  Forall (fun k => (k < length names)%nat) (fst <$> creditors0) ->
  settle_loop settled names fuel st <> Failed e.
Proof.
  intros Hfd Hfc Hd Hc. revert st Hfd Hfc.
  induction fuel as [|fuel IH]; intros st Hfd Hfc; simpl.
  - destruct (ls_debtors st !! ls_i st) as [d|];
      [destruct (ls_creditors st !! ls_j st) as [c|]|]; discriminate.
  - destruct (ls_debtors st !! ls_i st) as [d|] eqn:Ed;
      [destruct (ls_creditors st !! ls_j st) as [c|] eqn:Ec|]; try discriminate.
    destruct (loop_body settled names st d c) as [st1|e1] eqn:Eb.
    + apply loop_body_inv in Eb as (dn & cn & _ & _ & ->).
      apply IH; simpl.
      * rewrite <- Hfd. now apply fst_insert_same with d.
      * rewrite <- Hfc. now apply fst_insert_same with c.
    + exfalso. apply loop_body_raise in Eb as [_ Hout].
      rewrite Forall_forall in Hd, Hc.
      assert (fst d < length names)%nat.
      { apply Hd. rewrite <- Hfd. apply list_elem_of_fmap.
        exists d. split; [reflexivity|]. apply list_elem_of_lookup. eauto. }
      assert (fst c < length names)%nat.
      { apply Hc. rewrite <- Hfc. apply list_elem_of_fmap.
        exists c. split; [reflexivity|]. apply list_elem_of_lookup. eauto. }
      lia.
Qed.

End Invariants.

(** ** Counting the lines *)

Section Counting.
Context (settled : Q -> bool) `{!CursorTest settled} (names : list string).
Context (debtors0 creditors0 : list entry).

Lemma count_inv_init :
  count_inv debtors0 creditors0 (LoopState debtors0 creditors0 0 0 []).
Proof. unfold count_inv. simpl. repeat split; try lia. congruence. Qed.

Lemma count_inv_step st st' :
  count_inv debtors0 creditors0 st -> loop_step settled names st st' ->
  count_inv debtors0 creditors0 st'.
Proof.
  intros (Hld & Hlc & Hi & Hj & Hn & _) (d & c & Ed & Ec & Eb).
  apply loop_body_inv in Eb as (dn & cn & _ & _ & ->).
  apply lookup_lt_Some in Ed, Ec. rewrite Hld in Ed. rewrite Hlc in Ec.
  unfold count_inv. simpl. rewrite !length_insert, length_app. simpl.
  destruct (py_min_rem_zero (snd d) (snd c)) as [H0|H0];
    rewrite (settled_zero _ H0); destruct (settled _);
    repeat split; try lia.
Qed.

Lemma count_inv_end fuel st :
  settle_loop settled names fuel (LoopState debtors0 creditors0 0 0 []) = Done st ->
  count_inv debtors0 creditors0 st.
Proof.
  apply (settle_loop_invariant settled names (count_inv debtors0 creditors0)
           count_inv_step).
  apply count_inv_init.
Qed.

Lemma count_inv_bound st :
  count_inv debtors0 creditors0 st -> (1 <= length debtors0 + length creditors0)%nat ->
  (S (length (ls_lines st)) <= length debtors0 + length creditors0)%nat.
Proof.
  intros (_ & _ & Hi & Hj & Hn & Hlast) Hne.
  destruct (decide (ls_i st = length debtors0)) as [Ei|Ni]; [|lia].
  destruct (decide (ls_j st = length creditors0)) as [Ej|Nj]; [|lia].
  destruct (ls_lines st) as [|t ts] eqn:El; [simpl; lia|].
  rewrite <- Ei, <- Ej. apply Hlast; auto.
Qed.

End Counting.

Lemma nonzero_count_enumerate (balances : list Q) (start : nat) :
  (length (filter (fun e : entry => Qltb (snd e) 0 = true)
             (enumerate_from start balances))
   + length (filter (fun e : entry => Qltb 0 (snd e) = true)
               (enumerate_from start balances))
   = nonzero_count balances)%nat.
Proof.
  unfold nonzero_count. revert start.
  induction balances as [|b l IH]; intros start; simpl; [reflexivity|].
  rewrite !filter_cons. simpl. specialize (IH (S start)).
  destruct (Qcompare b 0) eqn:Ecmp.
  - assert (Hlt : Qltb b 0 = false) by (unfold Qltb; now rewrite Ecmp).
    assert (Hgt : Qltb 0 b = false).
    { apply Qltb_ge. apply Qeq_alt in Ecmp. lra. }
    assert (Heq : Qeqb b 0 = true) by (unfold Qeqb; now rewrite Ecmp).
    rewrite !decide_False by congruence. exact IH.
  - assert (Hlt : Qltb b 0 = true) by (unfold Qltb; now rewrite Ecmp).
    assert (Hgt : Qltb 0 b = false).
    { apply Qltb_ge. apply Qlt_alt in Ecmp. lra. }
    assert (Heq : Qeqb b 0 = false) by (unfold Qeqb; now rewrite Ecmp).
    rewrite (decide_True (P := Qltb b 0 = true)) by assumption.
    rewrite (decide_False (P := Qltb 0 b = true)) by congruence.
    rewrite (decide_True (P := Qeqb b 0 = false)) by assumption.
    simpl. lia.
  - assert (Hlt : Qltb b 0 = false) by (unfold Qltb; now rewrite Ecmp).
    assert (Hgt : Qltb 0 b = true).
    { apply Qltb_lt. apply Qgt_alt in Ecmp. lra. }
    assert (Heq : Qeqb b 0 = false) by (unfold Qeqb; now rewrite Ecmp).
    rewrite (decide_False (P := Qltb b 0 = true)) by congruence.
    rewrite (decide_True (P := Qltb 0 b = true)) by assumption.
    rewrite (decide_True (P := Qeqb b 0 = false)) by assumption.
    simpl. lia.
Qed.

Lemma length_debtors_creditors (balances : list Q) :
  (length (debtors_of balances) + length (creditors_of balances)
   = nonzero_count balances)%nat.
Proof.
  unfold debtors_of, creditors_of, enumerate. rewrite length_map.
  apply nonzero_count_enumerate.
Qed.

Lemma nonzero_count_le (balances : list Q) :
  (nonzero_count balances <= length balances)%nat.
Proof. unfold nonzero_count. apply length_filter. Qed.

(** ** The lists the two loops start from *)

Lemma debtors_of_positive (balances : list Q) :
  Forall (fun e : entry => 0 < snd e) (debtors_of balances).
Proof.
  apply Forall_forall. intros e He.
  apply elem_of_debtors_of in He as (b & _ & Hb & ->). lra.
Qed.

Lemma creditors_of_positive (balances : list Q) :
  Forall (fun e : entry => 0 < snd e) (creditors_of balances).
Proof.
  apply Forall_forall. intros e He. now apply elem_of_creditors_of in He as [_ H].
Qed.

Lemma debtors_of_below (balances : list Q) :
  Forall (fun k => (k < length balances)%nat) (fst <$> debtors_of balances).
Proof.
  apply Forall_forall. intros k Hk.
  apply list_elem_of_fmap in Hk as (e & -> & He).
  apply elem_of_debtors_of in He as (b & Hb & _). now apply lookup_lt_Some in Hb.
Qed.

Lemma creditors_of_below (balances : list Q) :
  Forall (fun k => (k < length balances)%nat) (fst <$> creditors_of balances).
Proof.
  apply Forall_forall. intros k Hk.
  apply list_elem_of_fmap in Hk as (e & -> & He).
  apply elem_of_creditors_of in He as [Hb _]. now apply lookup_lt_Some in Hb.
Qed.

Lemma sorted_desc_Forall (P : entry -> Prop) (l : list entry) :
  Forall P l -> Forall P (sorted_desc l).
Proof. intros H. now rewrite (sorted_desc_perm l). Qed.

Lemma sorted_desc_fst_Forall (P : nat -> Prop) (l : list entry) :
  Forall P (fst <$> l) -> Forall P (fst <$> sorted_desc l).
Proof. intros H. now rewrite (sorted_desc_perm l). Qed.

(** ** Whole runs *)

Section Runs.
Context (settled : Q -> bool) `{!CursorTest settled} (names : list string).
Context (debtors0 creditors0 : list entry).
Context (Hd_below : Forall (fun k => (k < length names)%nat) (fst <$> debtors0)).
Context (Hc_below : Forall (fun k => (k < length names)%nat) (fst <$> creditors0)).

Lemma run_loop_done : exists st, run_loop settled names debtors0 creditors0 = Done st.
Proof.
  unfold run_loop.
  destruct (settle_loop _ _ _ _) as [st|e|] eqn:E.
  - now exists st.
  - exfalso. revert E.
    apply (settle_loop_no_error settled names debtors0 creditors0); auto.
  - exfalso. revert E. apply settle_loop_fuel; [assumption|].
    unfold remaining, loop_fuel. simpl. lia.
Qed.

Lemma run_loop_exhausted st :
  run_loop settled names debtors0 creditors0 = Done st -> exhausted st.
Proof. unfold run_loop. apply settle_loop_exit; simpl; lia. Qed.

Lemma run_loop_count st :
  run_loop settled names debtors0 creditors0 = Done st ->
  count_inv debtors0 creditors0 st.
Proof. unfold run_loop. apply count_inv_end. assumption. Qed.

Lemma run_loop_inv st :
  Forall (fun e : entry => 0 < snd e) debtors0 ->
  Forall (fun e : entry => 0 < snd e) creditors0 ->
  run_loop settled names debtors0 creditors0 = Done st ->
  loop_inv names debtors0 creditors0 st.
Proof.
  intros Hd Hc. unfold run_loop.
  apply (loop_inv_end settled names). now apply loop_inv_init.
Qed.

End Runs.

(** An aligned [names] covers every index of the two lists. *)
Lemma below_names (balances : list Q) (names : list string) (l : list entry) :
  (length balances <= length names)%nat ->
  Forall (fun k => (k < length balances)%nat) (fst <$> l) ->
  Forall (fun k => (k < length names)%nat) (fst <$> l).
Proof.
  intros Hlen H. eapply Forall_impl; [exact H|]. simpl. intros k Hk. lia.
Qed.

Lemma settle_done (balances : list Q) (names : list string) :
  (length balances <= length names)%nat ->
  exists st, settle balances names = Done st.
Proof.
  intros Hlen. unfold settle. apply run_loop_done; [typeclasses eauto|..];
    apply (below_names balances); auto; apply sorted_desc_fst_Forall;
    [apply debtors_of_below | apply creditors_of_below].
Qed.

Lemma desktop_settle_done (balances : list Q) (names : list string) :
  (length balances <= length names)%nat ->
  exists st, desktop_settle balances names = Done st.
Proof.
  intros Hlen. unfold desktop_settle. apply run_loop_done; [typeclasses eauto|..];
    apply (below_names balances); auto;
    [apply debtors_of_below | apply creditors_of_below].
Qed.

(** The number of lines of a run, against the number of balances. *)
Lemma run_loop_lines_le (settled : Q -> bool) `{!CursorTest settled}
    (names : list string) (balances : list Q) (debtors creditors : list entry) st :
  length debtors = length (debtors_of balances) ->
  length creditors = length (creditors_of balances) ->
  run_loop settled names debtors creditors = Done st ->
  (length (ls_lines st) <= length balances)%nat.
Proof.
  intros Hd Hc Hrun. apply run_loop_count in Hrun; [|assumption].
  destruct Hrun as (_ & _ & Hi & Hj & Hn & _).
  pose proof (length_debtors_creditors balances).
  pose proof (nonzero_count_le balances). lia.
Qed.

(** ** Termination *)

(** C9.  The greedy settlement loop terminates.  From any state of its
    variables, fuel for the entries still to be walked is never used up, and
    more fuel does not change the outcome: a run ends by leaving the loop or
    by a failed name lookup.  With names for all balances, [settle] and the
    desktop loop both leave the loop, with a cursor at the end of its list,
    after at most as many passes (one line each) as there are balances. *)
Theorem settle_loop_terminates (balances : list Q) (names : list string) :
  (length balances <= length names)%nat ->
  (forall settled, CursorTest settled ->
   forall fuel st, (remaining st <= fuel)%nat ->
     settle_loop settled names fuel st <> OutOfFuel /\
     settle_loop settled names (remaining st) st = settle_loop settled names fuel st) /\
  (exists st, settle balances names = Done st /\ exhausted st /\
     (length (ls_lines st) <= length balances)%nat) /\
  (exists st, desktop_settle balances names = Done st /\ exhausted st /\
     (length (ls_lines st) <= length balances)%nat).
Proof.
  intros Hlen. split; [|split].
  - intros settled Htest fuel st Hfuel. split.
    + now apply settle_loop_fuel.
    + symmetry. now apply settle_loop_more_fuel.
  - destruct (settle_done balances names Hlen) as [st Hst]. exists st.
    split; [exact Hst|]. split.
    + revert Hst. apply run_loop_exhausted.
    + revert Hst. apply run_loop_lines_le; [typeclasses eauto|..];
        apply length_sorted_desc.
  - destruct (desktop_settle_done balances names Hlen) as [st Hst]. exists st.
    split; [exact Hst|]. split.
    + revert Hst. apply run_loop_exhausted.
    + revert Hst. now apply run_loop_lines_le; [typeclasses eauto|..].
Qed.

Lemma settle_loop_terminates_witness :
  exists st, settle scenario_balances scenario_names = Done st /\ exhausted st /\
    (length (ls_lines st) <= length scenario_balances)%nat.
Proof.
  apply (settle_loop_terminates scenario_balances scenario_names).
  simpl. lia.
Defined.

(** ** Direction of the transfers *)

Lemma line_ok_directed (balances : list Q) (names : list string)
    (debtors creditors : list entry) (t : transfer) :
  Permutation debtors (debtors_of balances) ->
  Permutation creditors (creditors_of balances) ->
  line_ok names debtors creditors t -> directed balances t.
Proof.
  intros Hd Hc (Hfrom & Hto & _ & _ & Hamt). rewrite Hd in Hfrom. rewrite Hc in Hto.
  apply list_elem_of_fmap in Hfrom as (d & Ed & Hin_d).
  apply list_elem_of_fmap in Hto as (c & Ec & Hin_c).
  apply elem_of_debtors_of in Hin_d as (b & Hb & Hneg & _).
  apply elem_of_creditors_of in Hin_c as [Hb' Hpos].
  repeat split; [exists b | exists (snd c) | exact Hamt]; split; congruence.
Qed.

Lemma run_loop_directed (settled : Q -> bool) `{!CursorTest settled}
    (balances : list Q) (names : list string) (debtors creditors : list entry) st :
  Permutation debtors (debtors_of balances) ->
  Permutation creditors (creditors_of balances) ->
  run_loop settled names debtors creditors = Done st ->
  Forall (directed balances) (ls_lines st).
Proof.
  intros Hd Hc Hrun. apply run_loop_inv in Hrun; try assumption.
  - destruct Hrun as (_ & _ & _ & _ & Hlines).
    eapply Forall_impl; [exact Hlines|]. simpl. intros t.
    now apply line_ok_directed.
  - rewrite Hd. apply debtors_of_positive.
  - rewrite Hc. apply creditors_of_positive.
Qed.

(** C10.  Every transfer of a settlement, from [settle] or from the desktop
    loop, takes from a participant whose balance is negative, gives to one
    whose balance is positive, and moves a positive amount.  So nobody is
    payer in one transfer and payee in another, and a participant with
    balance zero is in no transfer. *)
Theorem transfers_directed (balances : list Q) (names : list string) :
  (length balances <= length names)%nat ->
  forall run, run = settle \/ run = desktop_settle ->
  exists st, run balances names = Done st /\
    Forall (directed balances) (ls_lines st) /\
    (forall t t', t ∈ ls_lines st -> t' ∈ ls_lines st -> t_from t <> t_to t') /\
    (forall k b, balances !! k = Some b -> b == 0 ->
       forall t, t ∈ ls_lines st -> t_from t <> k /\ t_to t <> k).
Proof.
  intros Hlen run Hrun.
  assert (Hdir : exists st, run balances names = Done st /\
                   Forall (directed balances) (ls_lines st)).
  { destruct Hrun as [-> | ->].
    - destruct (settle_done balances names Hlen) as [st Hst]. exists st.
      split; [exact Hst|]. revert Hst.
      apply run_loop_directed; [typeclasses eauto|..]; apply sorted_desc_perm.
    - destruct (desktop_settle_done balances names Hlen) as [st Hst]. exists st.
      split; [exact Hst|]. revert Hst.
      now apply run_loop_directed; [typeclasses eauto|..]. }
  destruct Hdir as (st & Hst & Hdir). exists st.
  split; [exact Hst|]. split; [exact Hdir|].
  rewrite Forall_forall in Hdir. split.
  - intros t t' Ht Ht' Heq.
    destruct (Hdir t Ht) as ((b & Hb & Hneg) & _).
    destruct (Hdir t' Ht') as (_ & (b' & Hb' & Hpos) & _).
    rewrite Heq in Hb. assert (b = b') by congruence. subst b'. lra.
  - intros k b Hk Hzero t Ht.
    destruct (Hdir t Ht) as ((b1 & Hb1 & Hneg) & (b2 & Hb2 & Hpos) & _).
    split; intros Heq; rewrite Heq in *.
    + assert (b = b1) by congruence. subst b1. lra.
    + assert (b = b2) by congruence. subst b2. lra.
Qed.

Lemma transfers_directed_witness :
  exists st, settle scenario_balances scenario_names = Done st /\
    Forall (directed scenario_balances) (ls_lines st) /\
    (forall t t', t ∈ ls_lines st -> t' ∈ ls_lines st -> t_from t <> t_to t') /\
    (forall k b, scenario_balances !! k = Some b -> b == 0 ->
       forall t, t ∈ ls_lines st -> t_from t <> k /\ t_to t <> k).
Proof.
  apply (transfers_directed scenario_balances scenario_names).
  - simpl. lia.
  - left. reflexivity.
Defined.

(** ** The number of transfers *)

Lemma run_loop_count_bound (settled : Q -> bool) `{!CursorTest settled}
    (names : list string) (balances : list Q) (debtors creditors : list entry) st :
  length debtors = length (debtors_of balances) ->
  length creditors = length (creditors_of balances) ->
  (1 <= nonzero_count balances)%nat ->
  run_loop settled names debtors creditors = Done st ->
  (Z.of_nat (length (ls_lines st)) <= Z.of_nat (nonzero_count balances) - 1)%Z.
Proof.
  intros Hd Hc Hnz Hrun. apply run_loop_count in Hrun; [|assumption].
  pose proof (length_debtors_creditors balances) as Hlen.
  apply count_inv_bound in Hrun; lia.
Qed.

Lemma run_loop_all_zero (settled : Q -> bool) (names : list string)
    (balances : list Q) (debtors creditors : list entry) st :
  length debtors = length (debtors_of balances) ->
  length creditors = length (creditors_of balances) ->
  nonzero_count balances = 0%nat ->
  run_loop settled names debtors creditors = Done st ->
  ls_lines st = [].
Proof.
  intros Hd Hc Hnz. pose proof (length_debtors_creditors balances) as Hlen.
  assert (debtors = []) as -> by (apply length_zero_iff_nil; lia).
  assert (creditors = []) as -> by (apply length_zero_iff_nil; lia).
  unfold run_loop, loop_fuel. simpl. now intros [= <-].
Qed.

(** C3, as the code has it.  [settle] and the desktop loop emit at most
    (number of nonzero balances) - 1 transfers when some balance is not
    zero, and no transfer when every balance is zero. *)
Theorem transfer_count_bound (balances : list Q) (names : list string) :
  (length balances <= length names)%nat ->
  forall run, run = settle \/ run = desktop_settle ->
  exists st, run balances names = Done st /\
    ((1 <= nonzero_count balances)%nat ->
     (Z.of_nat (length (ls_lines st)) <= Z.of_nat (nonzero_count balances) - 1)%Z) /\
    (nonzero_count balances = 0%nat -> ls_lines st = []).
Proof.
  intros Hlen run [-> | ->].
  - destruct (settle_done balances names Hlen) as [st Hst]. exists st.
    split; [exact Hst|]. split.
    + intros Hnz. revert Hst.
      apply run_loop_count_bound; [typeclasses eauto|..]; auto using length_sorted_desc.
    + intros Hz. revert Hst.
      apply (run_loop_all_zero _ _ balances); auto using length_sorted_desc.
  - destruct (desktop_settle_done balances names Hlen) as [st Hst]. exists st.
    split; [exact Hst|]. split.
    + intros Hnz. revert Hst.
      now apply run_loop_count_bound; [typeclasses eauto|..].
    + intros Hz. revert Hst. now apply (run_loop_all_zero _ _ balances).
Qed.

Lemma transfer_count_bound_witness :
  exists st, settle scenario_balances scenario_names = Done st /\
    ((1 <= nonzero_count scenario_balances)%nat ->
     (Z.of_nat (length (ls_lines st))
      <= Z.of_nat (nonzero_count scenario_balances) - 1)%Z) /\
    (nonzero_count scenario_balances = 0%nat -> ls_lines st = []).
Proof.
  apply (transfer_count_bound scenario_balances scenario_names).
  - simpl. lia.
  - left. reflexivity.
Defined.

(** C3, as stated, at the already-settled input: all balances are zero,
    [settle] emits no transfer, and 0 is not at most 0 - 1. *)
Lemma transfer_count_all_settled :
  exists st, settle settled_balances scenario_names = Done st /\
    ls_lines st = [] /\
    nonzero_count settled_balances = 0%nat /\
    ~ (Z.of_nat (length (ls_lines st))
       <= Z.of_nat (nonzero_count settled_balances) - 1)%Z.
Proof.
  eexists. split; [reflexivity|]. split; [reflexivity|]. split; [reflexivity|].
  intros H. vm_compute in H. now apply H.
Qed.

(** ** The order of the sorted lists *)

Lemma before_amount (a b : entry) : before a b -> snd b <= snd a.
Proof. intros [H|[H _]]; lra. Qed.

Lemma insert_desc_before (x : entry) (l : list entry) :
  Forall (index_lt x) l ->
  StronglySorted before l ->
  StronglySorted before (insert_desc x l).
Proof.
  intros Hx Hl. induction Hl as [|y l Hl IH Hy]; simpl.
  - repeat constructor.
  - apply Forall_cons in Hx as [Hxy Hx].
    destruct (Qltb (snd x) (snd y)) eqn:E.
    + apply Qltb_lt in E. constructor; [now apply IH|].
      rewrite (insert_desc_perm x l). constructor; [|exact Hy]. now left.
    + apply Qltb_ge in E. constructor; [now constructor|].
      assert (Hall : forall z, z ∈ y :: l -> snd z <= snd y).
      { intros z Hz. apply elem_of_cons in Hz as [->|Hz]; [lra|].
        rewrite Forall_forall in Hy. now apply before_amount, Hy. }
      apply Forall_forall. intros z Hz.
      assert (Hzx : index_lt x z).
      { apply elem_of_cons in Hz as [->|Hz]; [exact Hxy|].
        rewrite Forall_forall in Hx. now apply Hx. }
      specialize (Hall z Hz).
      destruct (Qlt_le_dec (snd z) (snd x)) as [Hlt|Hle]; [now left|].
      right. split; [lra | exact Hzx].
Qed.

Lemma sorted_desc_before (l : list entry) :
  StronglySorted index_lt l -> StronglySorted before (sorted_desc l).
Proof.
  induction 1 as [|x l Hl IH Hx]; simpl; [constructor|].
  apply insert_desc_before; [|exact IH].
  now rewrite (sorted_desc_perm l).
Qed.

Lemma enumerate_from_index_lt (l : list Q) (start : nat) :
  StronglySorted index_lt (enumerate_from start l) /\
  Forall (fun e : entry => (start <= fst e)%nat) (enumerate_from start l).
Proof.
  revert start. induction l as [|x l IH]; intros start; simpl.
  - split; constructor.
  - destruct (IH (S start)) as [Hs Hf]. split.
    + constructor; [exact Hs|].
      eapply Forall_impl; [exact Hf|]. unfold index_lt. simpl. intros; lia.
    + constructor; [simpl; lia|].
      eapply Forall_impl; [exact Hf|]. simpl. intros; lia.
Qed.

Lemma filter_index_lt (P : entry -> Prop) `{!forall e, Decision (P e)}
    (l : list entry) :
  StronglySorted index_lt l -> StronglySorted index_lt (filter P l).
Proof.
  induction 1 as [|x l Hl IH Hx]; [constructor|].
  rewrite filter_cons. destruct (decide (P x)); [|exact IH].
  constructor; [exact IH|].
  rewrite Forall_forall in Hx. apply Forall_forall. intros e He.
  apply list_elem_of_filter in He as [_ He]. now apply Hx.
Qed.

Lemma creditors_of_index_lt (balances : list Q) :
  StronglySorted index_lt (creditors_of balances).
Proof. apply filter_index_lt, enumerate_from_index_lt. Qed.

Lemma debtors_of_index_lt (balances : list Q) :
  StronglySorted index_lt (debtors_of balances).
Proof.
  unfold debtors_of.
  assert (H : StronglySorted index_lt
            (filter (fun e : entry => Qltb (snd e) 0 = true) (enumerate balances)))
    by apply filter_index_lt, enumerate_from_index_lt.
  induction H as [|x l Hl IH Hx]; simpl; [constructor|].
  constructor; [exact IH|].
  apply Forall_forall. intros e He.
  apply list_elem_of_In, in_map_iff in He as (e' & <- & He').
  rewrite Forall_forall in Hx. apply list_elem_of_In in He'.
  apply (Hx e' He').
Qed.

(** The order [before] leaves no choice: a list has one arrangement sorted
    by it. *)
Lemma before_unique (l1 l2 : list entry) :
  StronglySorted before l1 -> StronglySorted before l2 ->
  Permutation l1 l2 -> l1 = l2.
Proof.
  apply StronglySorted_unique_strong.
  intros a b _ _ [Hab|[Hab Hi]] [Hba|[Hba Hj]]; exfalso; try lra; lia.
Qed.

(** ** The order of the lines *)

Lemma StronglySorted_lookup {A : Type} (R : A -> A -> Prop) (l : list A)
    (i p : nat) (a b : A) :
  StronglySorted R l -> l !! i = Some a -> l !! p = Some b -> (i < p)%nat -> R a b.
Proof.
  intros Hl. revert i p. induction Hl as [|x l Hl IH Hx]; intros i p Ha Hb Hlt.
  - discriminate.
  - destruct p as [|p]; [lia|]. simpl in Hb. destruct i as [|i]; simpl in Ha.
    + injection Ha as ->. rewrite Forall_forall in Hx.
      apply Hx, list_elem_of_lookup. eauto.
    + apply (IH i p); auto. lia.
Qed.

Lemma StronglySorted_fmap_weak {A B : Type} (R : A -> A -> Prop) (R' : B -> B -> Prop)
    (f : A -> B) (l : list A) :
  (forall a b, a ∈ l -> b ∈ l -> R a b -> R' (f a) (f b)) ->
  StronglySorted R l -> StronglySorted R' (f <$> l).
Proof.
  intros HR Hl. induction Hl as [|x l Hl IH Hx]; simpl; [constructor|].
  constructor.
  - apply IH. intros a b Ha Hb. apply HR; now right.
  - apply Forall_fmap, Forall_forall. intros y Hy. simpl.
    rewrite Forall_forall in Hx. apply HR; [now left | now right | now apply Hx].
Qed.

Section Walk.
Context (settled : Q -> bool) (names : list string).
Context (debtors0 creditors0 : list entry).
(** The keys the two lists are sorted by, as functions of the index. *)
Context (kd kc : nat -> Q).
Context (Hd_sorted : StronglySorted (fun a b => kd b <= kd a) (fst <$> debtors0)).
Context (Hc_sorted : StronglySorted (fun a b => kc b <= kc a) (fst <$> creditors0)).

Lemma walk_inv_init :
  walk_inv debtors0 creditors0 kd kc (LoopState debtors0 creditors0 0 0 []).
Proof.
  unfold walk_inv. simpl. repeat split; try constructor;
    intros t p k Ht; now apply elem_of_nil in Ht.
Qed.

Lemma sorted_from (k : nat -> Q) (l : list nat) (i p : nat) (a b : nat) :
  StronglySorted (fun a b => k b <= k a) l ->
  l !! i = Some a -> l !! p = Some b -> (i <= p)%nat -> k b <= k a.
Proof.
  intros Hl Ha Hb Hle. destruct (decide (i = p)) as [->|Hne].
  - assert (a = b) by congruence. subst. lra.
  - apply (StronglySorted_lookup _ l i p a b Hl Ha Hb). lia.
Qed.

Lemma walk_inv_step st st' :
  walk_inv debtors0 creditors0 kd kc st -> loop_step settled names st st' ->
  walk_inv debtors0 creditors0 kd kc st'.
Proof.
  intros (Hfd & Hfc & Hsd & Hsc & Hwd & Hwc) (d & c & Ed & Ec & Eb).
  apply loop_body_inv in Eb as (dn & cn & _ & _ & ->).
  assert (Hdi : (fst <$> debtors0) !! ls_i st = Some (fst d))
    by (now rewrite <- Hfd, list_lookup_fmap, Ed).
  assert (Hcj : (fst <$> creditors0) !! ls_j st = Some (fst c))
    by (now rewrite <- Hfc, list_lookup_fmap, Ec).
  unfold walk_inv. simpl. repeat split.
  - rewrite <- Hfd. now apply fst_insert_same with d.
  - rewrite <- Hfc. now apply fst_insert_same with c.
  - apply StronglySorted_app_2; [|exact Hsd|repeat constructor].
    intros t t' Ht Ht'. apply list_elem_of_singleton in Ht' as ->. simpl.
    now apply (Hwd t (ls_i st) (fst d)).
  - apply StronglySorted_app_2; [|exact Hsc|repeat constructor].
    intros t t' Ht Ht'. apply list_elem_of_singleton in Ht' as ->. simpl.
    now apply (Hwc t (ls_j st) (fst c)).
  - intros t p k Ht Hp Hk. apply elem_of_app in Ht as [Ht|Ht].
    + apply (Hwd t p k); auto. destruct (settled _); lia.
    + apply list_elem_of_singleton in Ht as ->. simpl.
      apply (sorted_from kd (fst <$> debtors0) (ls_i st) p); auto.
      destruct (settled _); lia.
  - intros t p k Ht Hp Hk. apply elem_of_app in Ht as [Ht|Ht].
    + apply (Hwc t p k); auto. destruct (settled _); lia.
    + apply list_elem_of_singleton in Ht as ->. simpl.
      apply (sorted_from kc (fst <$> creditors0) (ls_j st) p); auto.
      destruct (settled _); lia.
Qed.

Lemma run_loop_walk st :
  run_loop settled names debtors0 creditors0 = Done st ->
  walk_inv debtors0 creditors0 kd kc st.
Proof.
  unfold run_loop.
  apply (settle_loop_invariant settled names (walk_inv debtors0 creditors0 kd kc)
           walk_inv_step).
  apply walk_inv_init.
Qed.

End Walk.

Lemma sorted_debtors_keys (balances : list Q) :
  StronglySorted (fun a b => - balance_at balances b <= - balance_at balances a)
    (fst <$> sorted_desc (debtors_of balances)).
Proof.
  apply StronglySorted_fmap_weak with (R := before);
    [|apply sorted_desc_before, debtors_of_index_lt].
  intros a b Ha Hb Hab. apply before_amount in Hab.
  apply elem_of_sorted_desc, elem_of_debtors_of in Ha as (x & Hx & _ & Ea).
  apply elem_of_sorted_desc, elem_of_debtors_of in Hb as (y & Hy & _ & Eb).
  unfold balance_at. rewrite Hx, Hy. simpl. rewrite <- Ea, <- Eb. exact Hab.
Qed.

Lemma sorted_creditors_keys (balances : list Q) :
  StronglySorted (fun a b => balance_at balances b <= balance_at balances a)
    (fst <$> sorted_desc (creditors_of balances)).
Proof.
  apply StronglySorted_fmap_weak with (R := before);
    [|apply sorted_desc_before, creditors_of_index_lt].
  intros a b Ha Hb Hab. apply before_amount in Hab.
  apply elem_of_sorted_desc, elem_of_creditors_of in Ha as [Hx _].
  apply elem_of_sorted_desc, elem_of_creditors_of in Hb as [Hy _].
  unfold balance_at. rewrite Hx, Hy. simpl. exact Hab.
Qed.

(** C4, as the code has it.  [settle] (app1.py) sorts debtors and creditors
    before matching: each sorted list is an arrangement of the unsorted one
    in the order [before] (larger amount first, equal amounts in input order),
    and it is the only such arrangement, so ties leave no choice.  The lines
    come largest-first: along the lines the payer's debt never grows, nor
    does the payee's credit. *)
Theorem settle_sorted_largest_first (balances : list Q) (names : list string) :
  (length balances <= length names)%nat ->
  (forall side, side = debtors_of \/ side = creditors_of ->
     Permutation (sorted_desc (side balances)) (side balances) /\
     StronglySorted before (sorted_desc (side balances)) /\
     (forall l, Permutation l (side balances) -> StronglySorted before l ->
        l = sorted_desc (side balances))) /\
  exists st, settle balances names = Done st /\
    StronglySorted (fun t t' => payer_debt balances t' <= payer_debt balances t)
      (ls_lines st) /\
    StronglySorted (fun t t' => payee_credit balances t' <= payee_credit balances t)
      (ls_lines st).
Proof.
  intros Hlen. split.
  - intros side Hside.
    assert (Hs : StronglySorted before (sorted_desc (side balances))).
    { apply sorted_desc_before. destruct Hside as [-> | ->];
        [apply debtors_of_index_lt | apply creditors_of_index_lt]. }
    split; [apply sorted_desc_perm|]. split; [exact Hs|].
    intros l Hperm Hl. apply before_unique; auto.
    now rewrite Hperm, (sorted_desc_perm (side balances)).
  - destruct (settle_done balances names Hlen) as [st Hst]. exists st.
    split; [exact Hst|]. unfold settle in Hst.
    apply (run_loop_walk _ _ _ _
             (fun k => - balance_at balances k) (balance_at balances)) in Hst.
    + destruct Hst as (_ & _ & Hd & Hc & _). split; assumption.
    + apply sorted_debtors_keys.
    + apply sorted_creditors_keys.
Qed.

Lemma settle_sorted_largest_first_witness :
  exists st, settle scenario_balances scenario_names = Done st /\
    StronglySorted
      (fun t t' => payer_debt scenario_balances t' <= payer_debt scenario_balances t)
      (ls_lines st) /\
    StronglySorted
      (fun t t' =>
         payee_credit scenario_balances t' <= payee_credit scenario_balances t)
      (ls_lines st).
Proof.
  apply (settle_sorted_largest_first scenario_balances scenario_names).
  simpl. lia.
Defined.

(** C4, as stated, on the desktop loop (main.py): the lists are not sorted,
    so the participant owing 1 pays before the one owing 4. *)
Lemma desktop_not_largest_first :
  exists st, desktop_settle unsorted_balances scenario_names = Done st /\
    t_from <$> ls_lines st = [0; 1]%nat /\
    ~ StronglySorted before (debtors_of unsorted_balances) /\
    ~ StronglySorted
        (fun t t' => payer_debt unsorted_balances t' <= payer_debt unsorted_balances t)
        (ls_lines st).
Proof.
  eexists. split; [reflexivity|]. split; [reflexivity|]. split.
  - intros H. apply StronglySorted_inv in H as [_ H].
    apply Forall_cons in H as [[H|[H _]] _]; vm_compute in H; discriminate.
  - intros H. apply StronglySorted_inv in H as [_ H].
    apply Forall_cons in H as [H _]. vm_compute in H. now apply H.
Qed.

(** ** Whole cents *)

Lemma is_cents_round2 (x : Q) : is_cents (round2 x).
Proof. eexists. unfold round2. reflexivity. Qed.

Lemma derive_balances_cents (paid owed : list Q) :
  Forall is_cents (derive_balances paid owed).
Proof.
  unfold derive_balances. apply Forall_forall. intros b Hb.
  apply list_elem_of_In, in_map_iff in Hb as (po & <- & _). apply is_cents_round2.
Qed.

(** ** The two shells *)

Lemma derive_balances_replicate (paid : list Q) (n : nat) (share : Q) :
  (length paid <= n)%nat ->
  derive_balances paid (replicate n share)
  = map (fun p : Q => round2 (p - share)) paid.
Proof.
  unfold derive_balances. revert n.
  induction paid as [|p paid IH]; intros n Hn; [reflexivity|].
  destruct n as [|n]; simpl in *; [lia|].
  f_equal. apply IH. lia.
Qed.

(** With as many payments as names, both shells compute the same balances. *)
Lemma shells_same_balances (total : Q) (paid : list Q) (names : list string)
    (owed balances : list Q) :
  length paid = length names ->
  calc_with_equal_share total paid names = Ok (owed, balances) ->
  desktop_balances total (Z.of_nat (length names)) paid = Ok balances.
Proof.
  intros Hlen. unfold calc_with_equal_share, desktop_balances.
  destruct (length names) as [|n] eqn:En; [discriminate|].
  intros [= _ <-].
  replace (Z.of_nat (S n) =? 0)%Z with false by (symmetry; apply Z.eqb_neq; lia).
  f_equal. symmetry. apply (derive_balances_replicate paid (S n)). lia.
Qed.

Lemma calc_with_equal_share_length (total : Q) (paid : list Q) (names : list string)
    (owed balances : list Q) :
  length paid = length names ->
  calc_with_equal_share total paid names = Ok (owed, balances) ->
  length balances = length names /\ Forall is_cents balances.
Proof.
  intros Hlen. unfold calc_with_equal_share.
  destruct (length names) as [|n] eqn:En; [discriminate|].
  intros [= _ <-]. split; [|apply derive_balances_cents].
  pose proof (derive_balances_replicate paid (S n)
                (total / inject_Z (Z.of_nat (S n)))) as E.
  simpl in E. simpl. rewrite E by lia. now rewrite length_map.
Qed.


(** ** Rounding *)

Lemma Qmake_100 (z : Z) : z # 100 == inject_Z z * (1 # 100).
Proof. unfold Qeq. simpl. lia. Qed.

(** [round(x, 2)] is within half a cent of [x]. *)
Lemma round2_error (x : Q) : - (1 # 200) <= round2 x - x <= 1 # 200.
Proof.
  unfold round2, round_half_even.
  pose proof (Qfloor_le (x * 100)) as Hlo.
  pose proof (Qlt_floor (x * 100)) as Hhi.
  set (f := Qfloor (x * 100)) in *.
  rewrite inject_Z_plus in Hhi. change (inject_Z 1) with 1 in Hhi.
  destruct (Qcompare (x * 100 - inject_Z f) (1 # 2)) eqn:E.
  - apply Qeq_alt in E. destruct (Z.even f).
    + rewrite Qmake_100. split; lra.
    + rewrite Qmake_100, inject_Z_plus. change (inject_Z 1) with 1. split; lra.
  - apply Qlt_alt in E. rewrite Qmake_100. split; lra.
  - apply Qgt_alt in E. rewrite Qmake_100, inject_Z_plus.
    change (inject_Z 1) with 1. split; lra.
Qed.

Lemma Qsum_app (l1 l2 : list Q) : Qsum (l1 ++ l2) == Qsum l1 + Qsum l2.
Proof.
  induction l1 as [|x l1 IH]; simpl; [lra|]. rewrite IH. lra.
Qed.

Lemma Qsum_replicate (n : nat) (x : Q) :
  Qsum (replicate n x) == inject_Z (Z.of_nat n) * x.
Proof.
  induction n as [|n IH]; [simpl; change (inject_Z (Z.of_nat 0)) with 0; lra|].
  rewrite Nat2Z.inj_succ, <- Z.add_1_r, inject_Z_plus.
  change (replicate (S n) x) with (x :: replicate n x). simpl.
  rewrite IH. change (inject_Z 1) with 1. lra.
Qed.

(** Rounding every entry moves the sum by at most half a cent per entry. *)
Lemma Qsum_round2 (l : list Q) :
  - (inject_Z (Z.of_nat (length l)) * (1 # 200))
  <= Qsum (map round2 l) - Qsum l
  <= inject_Z (Z.of_nat (length l)) * (1 # 200).
Proof.
  induction l as [|x l IH].
  - simpl. change (inject_Z (Z.of_nat 0)) with 0. split; lra.
  - change (length (x :: l)) with (S (length l)).
    rewrite Nat2Z.inj_succ, <- Z.add_1_r, inject_Z_plus.
    change (inject_Z 1) with 1. simpl.
    pose proof (round2_error x). split; lra.
Qed.

(** The sum of the balances against the sums of what was paid and owed. *)
Lemma Qsum_derive_balances (paid owed : list Q) :
  length paid = length owed ->
  - (inject_Z (Z.of_nat (length paid)) * (1 # 200))
  <= Qsum (derive_balances paid owed) - (Qsum paid - Qsum owed)
  <= inject_Z (Z.of_nat (length paid)) * (1 # 200).
Proof.
  unfold derive_balances. revert owed.
  induction paid as [|p paid IH]; intros [|o owed] Hlen; try discriminate.
  - simpl. change (inject_Z (Z.of_nat 0)) with 0. split; lra.
  - injection Hlen as Hlen. specialize (IH owed Hlen).
    change (length (p :: paid)) with (S (length paid)).
    rewrite Nat2Z.inj_succ, <- Z.add_1_r, inject_Z_plus.
    change (inject_Z 1) with 1. simpl.
    pose proof (round2_error (p - o)). split; lra.
Qed.

(** ** The equal split *)

(** C6, as the code has it.  [calc_with_equal_share] checks nothing: without
    participants the division raises [ZeroDivisionError]; with at least one
    participant it returns for every total, negative or not, and every entry
    of the owed vector is total / participantCount. *)
Theorem equal_share_owed (total : Q) (paid : list Q) (names : list string) :
  (length names = 0%nat ->
   calc_with_equal_share total paid names = Raise ZeroDivisionError) /\
  ((1 <= length names)%nat ->
   exists owed balances,
     calc_with_equal_share total paid names = Ok (owed, balances) /\
     length owed = length names /\
     Forall (fun o => o = total / inject_Z (Z.of_nat (length names))) owed).
Proof.
  unfold calc_with_equal_share. split.
  - intros ->. reflexivity.
  - intros Hn. destruct (length names) as [|n] eqn:En; [lia|].
    eexists _, _. split; [reflexivity|]. split.
    + apply length_replicate.
    + apply Forall_forall. intros o Ho.
      now apply elem_of_replicate in Ho as [-> _].
Qed.

Lemma equal_share_owed_witness :
  exists owed balances,
    calc_with_equal_share 300 scenario_paid scenario_names = Ok (owed, balances) /\
    length owed = length scenario_names /\
    Forall (fun o => o = 300 / inject_Z (Z.of_nat (length scenario_names))) owed.
Proof.
  apply (equal_share_owed 300 scenario_paid scenario_names). simpl. lia.
Defined.

(** C6, as stated, at a negative total: the call returns. *)
Lemma equal_share_negative_total :
  -3 < 0 /\
  calc_with_equal_share (-3) [0] ["P1"%string] = Ok ([-3 / 1], [300 # 100]).
Proof. split; reflexivity. Qed.

(** ** The balances *)

(** C7, as the code has it.  The balances are derived through [zip], which
    stops at the shorter of the two vectors: no length is checked, nothing is
    raised, and entry [i] is [round(paid[i] - owed[i], 2)] wherever both
    vectors have an entry [i]. *)
Theorem derive_balances_zip (paid owed : list Q) :
  length (derive_balances paid owed) = Nat.min (length paid) (length owed) /\
  (forall i p o, paid !! i = Some p -> owed !! i = Some o ->
     derive_balances paid owed !! i = Some (round2 (p - o))) /\
  (forall total names r, calc_with_equal_share total paid names = Ok r ->
     snd r = derive_balances paid (fst r)) /\
  (forall items names,
     snd (calc_with_itemized items paid names)
     = derive_balances paid (snd (fst (calc_with_itemized items paid names)))).
Proof.
  split; [|split; [|split]].
  - unfold derive_balances. rewrite length_map. revert owed.
    induction paid as [|p paid IH]; intros [|o owed]; simpl; auto.
  - unfold derive_balances. revert owed.
    induction paid as [|p paid IH]; intros [|o owed] i p' o' Hp Ho;
      try discriminate.
    destruct i as [|i]; simpl in *.
    + congruence.
    + now apply IH.
  - intros total names r. unfold calc_with_equal_share.
    destruct (length names); [discriminate|]. now intros [= <-].
  - intros items names. unfold calc_with_itemized.
    now destruct (itemized_raw items names).
Qed.

Lemma derive_balances_zip_witness :
  derive_balances scenario_paid [100; 100; 100] !! 0%nat = Some (round2 (300 - 100)).
Proof.
  now apply (derive_balances_zip scenario_paid [100; 100; 100]).
Defined.

(** C7, as stated, at three payments for two participants: the call returns
    two balances. *)
Lemma derive_balances_mismatch :
  exists owed balances,
    calc_with_equal_share 2 [1; 2; 5] ["P1"; "P2"]%string = Ok (owed, balances) /\
    length [1; 2; 5] <> length owed /\
    balances = [0 # 100; 100 # 100].
Proof. eexists _, _. split; [reflexivity|]. split; [simpl; lia | reflexivity]. Qed.

(** ** The itemized split *)

(** The index dictionary maps a name to a position that holds it, and knows
    exactly the names of the list. *)
Lemma name_index_from (l : list string) (start : nat) (m : gmap string nat)
    (person : string) :
  (person ∉ l ->
   foldl (fun (m : gmap string nat) (e : nat * string) => <[snd e := fst e]> m)
     m (enumerate_from start l) !! person = m !! person) /\
  (person ∈ l ->
   exists k, foldl (fun (m : gmap string nat) (e : nat * string) => <[snd e := fst e]> m)
     m (enumerate_from start l) !! person = Some k /\
     (start <= k)%nat /\ l !! (k - start)%nat = Some person).
Proof.
  revert start m. induction l as [|x l IH]; intros start m; simpl.
  - split; [reflexivity|]. intros H. now apply elem_of_nil in H.
  - destruct (IH (S start) (<[x := start]> m)) as [IHn IHy]. split.
    + intros Hnot. apply not_elem_of_cons in Hnot as [Hne Hnot].
      rewrite (IHn Hnot). now apply lookup_insert_ne.
    + intros Hin. destruct (decide (person ∈ l)) as [Hl|Hl].
      * destruct (IHy Hl) as (k & Hk & Hle & Hlook). exists k.
        split; [exact Hk|]. split; [lia|].
        now replace (k - start)%nat with (S (k - S start)) by lia.
      * apply elem_of_cons in Hin as [->|Hin]; [|contradiction].
        exists start. rewrite (IHn Hl), lookup_insert_eq.
        split; [reflexivity|]. split; [lia|].
        now replace (start - start)%nat with O by lia.
Qed.

Lemma name_index_unknown (names : list string) (person : string) :
  person ∉ names -> name_index names !! person = None.
Proof.
  intros H. unfold name_index, enumerate.
  now rewrite (proj1 (name_index_from names 0 ∅ person) H).
Qed.

Lemma name_index_known (names : list string) (person : string) :
  person ∈ names -> exists k, name_index names !! person = Some k.
Proof.
  intros H. destruct (proj2 (name_index_from names 0 ∅ person) H) as (k & Hk & _).
  now exists k.
Qed.

Lemma name_index_below (names : list string) (person : string) (k : nat) :
  name_index names !! person = Some k -> (k < length names)%nat.
Proof.
  intros Hk. destruct (decide (person ∈ names)) as [Hin|Hnot].
  - destruct (proj2 (name_index_from names 0 ∅ person) Hin) as (k' & Hk' & _ & Hl).
    unfold name_index, enumerate in Hk. rewrite Hk in Hk'. injection Hk' as <-.
    apply lookup_lt_Some in Hl. lia.
  - rewrite (name_index_unknown names person Hnot) in Hk. discriminate.
Qed.

Lemma length_add_shares (idx : gmap string nat) (share : Q)
    (participants : list string) (owed : list Q) :
  length (add_shares idx share participants owed) = length owed.
Proof.
  unfold add_shares. revert owed.
  induction participants as [|p ps IH]; intros owed; simpl; [reflexivity|].
  rewrite IH. destruct (idx !! p); [apply length_alter | reflexivity].
Qed.

(** Names that the dictionary does not know leave the accumulators alone. *)
Lemma add_shares_known (idx : gmap string nat) (share : Q)
    (participants : list string) (owed : list Q) :
  add_shares idx share participants owed
  = add_shares idx share (filter (known idx) participants) owed.
Proof.
  unfold add_shares. revert owed.
  induction participants as [|p ps IH]; intros owed; simpl; [reflexivity|].
  rewrite filter_cons. destruct (decide (known idx p)) as [[k Ek]|Hn].
  - simpl. rewrite Ek. apply IH.
  - assert (idx !! p = None) as ->
      by (destruct (idx !! p) as [k|] eqn:E;
          [exfalso; apply Hn; exists k; exact E | reflexivity]).
    apply IH.
Qed.

Lemma Qsum_alter (l : list Q) (k : nat) (s : Q) :
  (k < length l)%nat -> Qsum (alter (fun x : Q => x + s) k l) == Qsum l + s.
Proof.
  revert k. induction l as [|x l IH]; intros k Hk; simpl in Hk; [lia|].
  destruct k as [|k].
  - simpl. lra.
  - assert (IHk := IH k ltac:(lia)).
    change (Qsum (alter (fun x : Q => x + s) (S k) (x :: l)))
      with (x + Qsum (alter (fun x : Q => x + s) k l)).
    simpl. lra.
Qed.

Lemma Qsum_add_shares (idx : gmap string nat) (share : Q)
    (participants : list string) (owed : list Q) :
  (forall p k, idx !! p = Some k -> (k < length owed)%nat) ->
  Qsum (add_shares idx share participants owed)
  == Qsum owed + share * inject_Z (Z.of_nat (known_count idx participants)).
Proof.
  intros Hidx. unfold add_shares, known_count. revert owed Hidx.
  induction participants as [|p ps IH]; intros owed Hidx; simpl.
  - change (inject_Z (Z.of_nat 0)) with 0. lra.
  - rewrite filter_cons. destruct (decide (known idx p)) as [[k Ek]|Hn].
    + rewrite Ek.
      change (length (p :: filter (known idx) ps))
        with (S (length (filter (known idx) ps))).
      rewrite Nat2Z.inj_succ, <- Z.add_1_r, inject_Z_plus.
      change (inject_Z 1) with 1.
      rewrite IH.
      * rewrite Qsum_alter by eauto. lra.
      * intros p' k' Hk'. rewrite length_alter. eauto.
    + assert (idx !! p = None) as ->
        by (destruct (idx !! p) as [k|] eqn:E;
          [exfalso; apply Hn; exists k; exact E | reflexivity]).
      now apply IH.
Qed.

Lemma add_item_valid (idx : gmap string nat) (acc : Q * list Q) (it : Item) :
  item_valid it = true ->
  add_item idx acc it
  = (fst acc + item_amount it,
     add_shares idx (item_share it) (item_participants it) (snd acc)).
Proof.
  unfold item_valid, add_item. rewrite negb_true_iff. now intros ->.
Qed.

Lemma add_item_skip (idx : gmap string nat) (acc : Q * list Q) (it : Item) :
  item_valid it = false -> add_item idx acc it = acc.
Proof.
  unfold item_valid, add_item. rewrite negb_false_iff. now intros ->.
Qed.

Lemma valid_total_cons (it : Item) (items : list Item) :
  valid_total (it :: items)
  == (if item_valid it then item_amount it else 0) + valid_total items.
Proof.
  unfold valid_total. rewrite filter_cons.
  destruct (decide (item_valid it = true)) as [E|E];
    [rewrite E | apply not_true_is_false in E; rewrite E]; simpl; lra.
Qed.

Lemma shared_total_cons (idx : gmap string nat) (it : Item) (items : list Item) :
  shared_total idx (it :: items)
  == (if item_valid it
      then item_share it * inject_Z (Z.of_nat (known_count idx (item_participants it)))
      else 0) + shared_total idx items.
Proof.
  unfold shared_total. rewrite filter_cons.
  destruct (decide (item_valid it = true)) as [E|E];
    [rewrite E | apply not_true_is_false in E; rewrite E]; simpl; lra.
Qed.

(** The accumulators after the loop over the items. *)
Lemma itemized_fold (idx : gmap string nat) (items : list Item) (acc : Q * list Q) :
  (forall p k, idx !! p = Some k -> (k < length (snd acc))%nat) ->
  length (snd (foldl (add_item idx) acc items)) = length (snd acc) /\
  fst (foldl (add_item idx) acc items) == fst acc + valid_total items /\
  Qsum (snd (foldl (add_item idx) acc items))
  == Qsum (snd acc) + shared_total idx items.
Proof.
  revert acc. induction items as [|it items IH]; intros acc Hidx.
  - simpl. unfold valid_total, shared_total. simpl. repeat split; lra.
  - simpl. rewrite valid_total_cons, shared_total_cons.
    destruct (item_valid it) eqn:Ev.
    + rewrite (add_item_valid idx acc it Ev).
      destruct (IH (fst acc + item_amount it,
                    add_shares idx (item_share it) (item_participants it) (snd acc)))
        as (Hlen & Htot & Hsum).
      { simpl. rewrite length_add_shares. exact Hidx. }
      simpl in *. rewrite length_add_shares in Hlen.
      rewrite Qsum_add_shares in Hsum by exact Hidx.
      repeat split; [exact Hlen | lra | lra].
    + rewrite (add_item_skip idx acc it Ev).
      destruct (IH acc Hidx) as (Hlen & Htot & Hsum).
      repeat split; [exact Hlen | lra | lra].
Qed.

Lemma itemized_raw_totals (items : list Item) (names : list string) :
  length (snd (itemized_raw items names)) = length names /\
  fst (itemized_raw items names) == valid_total items /\
  Qsum (snd (itemized_raw items names)) == shared_total (name_index names) items.
Proof.
  unfold itemized_raw.
  destruct (itemized_fold (name_index names) items (0, replicate (length names) 0))
    as (Hlen & Htot & Hsum).
  - simpl. intros p k Hk. rewrite length_replicate. now apply name_index_below in Hk.
  - simpl in *. rewrite length_replicate in Hlen.
    rewrite Qsum_replicate in Hsum. repeat split; [exact Hlen | lra | lra].
Qed.

(** One unknown name among the participants of an item. *)
Lemma add_shares_without (idx : gmap string nat) (person : string) (share : Q)
    (participants : list string) (owed : list Q) :
  idx !! person = None ->
  add_shares idx share participants owed
  = add_shares idx share (filter (fun p => p <> person) participants) owed.
Proof.
  intros Hnone. unfold add_shares. revert owed.
  induction participants as [|p ps IH]; intros owed; simpl; [reflexivity|].
  rewrite filter_cons. destruct (decide (p <> person)) as [Hne|Heq].
  - simpl. apply IH.
  - apply dec_stable in Heq. subst p. rewrite Hnone. apply IH.
Qed.

Lemma known_count_le (idx : gmap string nat) (participants : list string) :
  (known_count idx participants <= length participants)%nat.
Proof. apply length_filter. Qed.

Lemma known_count_unknown (idx : gmap string nat) (person : string)
    (participants : list string) :
  idx !! person = None -> person ∈ participants ->
  (known_count idx participants < length participants)%nat.
Proof.
  intros Hnone Hin. unfold known_count.
  induction participants as [|p ps IH]; [now apply elem_of_nil in Hin|].
  rewrite filter_cons. simpl. destruct (decide (known idx p)) as [Hk|Hk].
  - simpl. apply elem_of_cons in Hin as [->|Hin].
    + destruct Hk as [k Hk]. congruence.
    + specialize (IH Hin). lia.
  - pose proof (length_filter (known idx) ps). lia.
Qed.

Lemma known_count_all (idx : gmap string nat) (participants : list string) :
  Forall (known idx) participants ->
  known_count idx participants = length participants.
Proof.
  intros H. unfold known_count. induction H as [|p ps Hp Hps IH]; [reflexivity|].
  rewrite filter_cons, decide_True by exact Hp. simpl. now rewrite IH.
Qed.

(** C8.  A name that an item lists and the master list does not have: the
    index dictionary does not know it, so its share is added to no owed
    accumulator (the accumulators are what they are without the name in the
    item), and nothing is raised.  The owed totals exclude the share: the
    accumulators sum to the shares of the known participants only, so an
    item with the unknown name puts less than its amount into them.  The
    grand total [total_amount] is a separate figure, the sum of the amounts
    of the valid items, and the share is computed over all listed
    participants. *)
Theorem itemized_unknown_dropped (names : list string) (person : string) :
  person ∉ names ->
  name_index names !! person = None /\
  (forall share participants owed,
     add_shares (name_index names) share participants owed
     = add_shares (name_index names) share
         (filter (fun p => p <> person) participants) owed) /\
  (forall it acc, item_valid it = true -> person ∈ item_participants it ->
     add_item (name_index names) acc it
     = (fst acc + item_amount it,
        add_shares (name_index names) (item_share it)
          (filter (fun p => p <> person) (item_participants it)) (snd acc)) /\
     (known_count (name_index names) (item_participants it)
      < length (item_participants it))%nat) /\
  (forall items paid,
     exists total owed balances,
       calc_with_itemized items paid names = (total, owed, balances) /\
       total == valid_total items /\
       owed = map round2 (snd (itemized_raw items names)) /\
       length owed = length names /\
       Qsum (snd (itemized_raw items names))
       == shared_total (name_index names) items).
Proof.
  intros Hnot. pose proof (name_index_unknown names person Hnot) as Hnone.
  split; [exact Hnone|]. split; [|split].
  - intros share participants owed. now apply add_shares_without.
  - intros it acc Hv Hin. split.
    + rewrite (add_item_valid _ acc it Hv). f_equal. now apply add_shares_without.
    + now apply known_count_unknown with person.
  - intros items paid. unfold calc_with_itemized.
    destruct (itemized_raw_totals items names) as (Hlen & Htot & Hsum).
    destruct (itemized_raw items names) as [total raw]. simpl in *.
    eexists _, _, _. split; [reflexivity|].
    repeat split; auto. now rewrite length_map.
Qed.

Lemma itemized_unknown_dropped_witness :
  name_index stranger_names !! "Z"%string = None /\
  calc_with_itemized stranger_items itemized_paid stranger_names
  = (0 + 100 + 50, [5000 # 100; 2500 # 100; 2500 # 100],
     [5000 # 100; (-2500) # 100; 2500 # 100]).
Proof.
  split.
  - apply (itemized_unknown_dropped stranger_names "Z").
    vm_compute. intros H. repeat (apply elem_of_cons in H as [H|H]; [discriminate|]).
    now apply elem_of_nil in H.
  - reflexivity.
Defined.

(** The scenario with the unknown name Z: Z's share of 50 reaches no
    accumulator (the owed amounts are 50, 25 and 25), and the grand total,
    the sum of the amounts of the items, is 150. *)
Lemma itemized_total_counts_stranger :
  exists total owed balances,
    calc_with_itemized stranger_items itemized_paid stranger_names
    = (total, owed, balances) /\
    owed = [5000 # 100; 2500 # 100; 2500 # 100] /\
    Qsum owed == 100 /\
    total == 150 /\
    ~ total == Qsum owed.
Proof.
  eexists _, _, _. split; [reflexivity|]. split; [reflexivity|].
  split; [reflexivity|]. split; [reflexivity|]. discriminate.
Qed.

(** ** Conservation *)

Lemma item_valid_participants (it : Item) :
  item_valid it = true -> (1 <= length (item_participants it))%nat.
Proof.
  unfold item_valid. rewrite negb_true_iff, orb_false_iff.
  intros [_ H]. apply bool_decide_eq_false in H.
  destruct (item_participants it); [congruence | simpl; lia].
Qed.

Lemma inject_Z_of_nat_pos (n : nat) : (1 <= n)%nat -> 0 < inject_Z (Z.of_nat n).
Proof.
  intros Hn. change 0 with (inject_Z 0). rewrite <- Zlt_Qlt. lia.
Qed.

Lemma shared_total_all_listed (names : list string) (items : list Item) :
  all_listed names items ->
  shared_total (name_index names) items == valid_total items.
Proof.
  induction 1 as [|it items Hit Hitems IH].
  - reflexivity.
  - rewrite shared_total_cons, valid_total_cons, IH.
    destruct (item_valid it) eqn:Ev; [|reflexivity].
    rewrite known_count_all.
    + unfold item_share.
      pose proof (inject_Z_of_nat_pos _ (item_valid_participants it Ev)) as Hpos.
      apply Qplus_inj_r. field. lra.
    + eapply Forall_impl; [exact (Hit eq_refl)|]. simpl.
      intros p Hp. destruct (name_index_known names p Hp) as [k Hk]. now exists k.
Qed.

Lemma Qabs_bound (x e : Q) : - e <= x <= e -> Qabs x <= e.
Proof. intros H. now apply Qabs_Qle_condition. Qed.

(** C2, as stated, at two inputs.  Equal split: two participants split 100
    that nobody has paid, and the balances are -50 and -50.  Itemized split:
    the payments 100, 0 and 50 sum to the returned grand total 150, but the
    share of the unknown name Z is owed by nobody, and the balances 50, -25
    and 25 sum to 50. *)
Lemma balances_not_conserved :
  (exists owed balances,
     calc_with_equal_share 100 unpaid ["P1"; "P2"]%string = Ok (owed, balances) /\
     Qsum balances == -100 /\
     ~ Qabs (Qsum balances) <= cent * inject_Z 2) /\
  (exists total owed balances,
     calc_with_itemized stranger_items itemized_paid stranger_names
     = (total, owed, balances) /\
     Qsum itemized_paid == total /\
     Qsum balances == 50 /\
     ~ Qabs (Qsum balances) <= cent * inject_Z 3).
Proof.
  split.
  - eexists _, _. split; [reflexivity|]. split; [reflexivity|].
    intros H. vm_compute in H. now apply H.
  - eexists _, _, _. split; [reflexivity|]. split; [reflexivity|].
    split; [reflexivity|]. intros H. vm_compute in H. now apply H.
Qed.

(** ** Carrying out a settlement *)

Lemma paid_by_app (k : nat) (ts ts' : list transfer) :
  paid_by k (ts ++ ts') == paid_by k ts + paid_by k ts'.
Proof. induction ts as [|t ts IH]; simpl; [lra|]. rewrite IH. lra. Qed.

Lemma received_by_app (k : nat) (ts ts' : list transfer) :
  received_by k (ts ++ ts') == received_by k ts + received_by k ts'.
Proof. induction ts as [|t ts IH]; simpl; [lra|]. rewrite IH. lra. Qed.

Lemma paid_by_none (k : nat) (ts : list transfer) :
  Forall (fun t => t_from t <> k) ts -> paid_by k ts == 0.
Proof.
  induction 1 as [|t ts Ht Hts IH]; simpl; [lra|].
  rewrite decide_False by exact Ht. lra.
Qed.

Lemma received_by_none (k : nat) (ts : list transfer) :
  Forall (fun t => t_to t <> k) ts -> received_by k ts == 0.
Proof.
  induction 1 as [|t ts Ht Hts IH]; simpl; [lra|].
  rewrite decide_False by exact Ht. lra.
Qed.

Lemma length_apply_transfers (balances : list Q) (ts : list transfer) :
  length (apply_transfers balances ts) = length balances.
Proof.
  unfold apply_transfers. revert balances.
  induction ts as [|t ts IH]; intros balances; simpl; [reflexivity|].
  rewrite IH. unfold apply_transfer. now rewrite !length_alter.
Qed.

Lemma apply_transfer_lookup (balances : list Q) (t : transfer) (k : nat) (b : Q) :
  balances !! k = Some b ->
  exists b', apply_transfer balances t !! k = Some b' /\
    b' == b + (if decide (t_from t = k) then t_amt t else 0)
          - (if decide (t_to t = k) then t_amt t else 0).
Proof.
  intros Hb. unfold apply_transfer.
  destruct (decide (t_to t = k)) as [Eto|Nto];
    destruct (decide (t_from t = k)) as [Efrom|Nfrom].
  - rewrite Eto, Efrom, !list_lookup_alter_eq, Hb. simpl.
    eexists. split; [reflexivity|lra].
  - rewrite Eto, list_lookup_alter_eq, list_lookup_alter_ne, Hb by congruence.
    simpl. eexists. split; [reflexivity|lra].
  - rewrite Efrom, list_lookup_alter_ne, list_lookup_alter_eq, Hb by congruence.
    simpl. eexists. split; [reflexivity|lra].
  - rewrite !list_lookup_alter_ne, Hb by congruence.
    eexists. split; [reflexivity|lra].
Qed.

(** The balance of [k] after the settlement: what it was, plus what [k]
    paid, minus what [k] received. *)
Lemma apply_transfers_lookup (balances : list Q) (ts : list transfer)
    (k : nat) (b : Q) :
  balances !! k = Some b ->
  exists b', apply_transfers balances ts !! k = Some b' /\
    b' == b + paid_by k ts - received_by k ts.
Proof.
  unfold apply_transfers. revert balances b.
  induction ts as [|t ts IH]; intros balances b Hb; simpl.
  - exists b. split; [exact Hb | lra].
  - destruct (apply_transfer_lookup balances t k b Hb) as (b1 & Hb1 & E1).
    destruct (IH _ _ Hb1) as (b' & Hb' & E'). exists b'.
    split; [exact Hb' | lra].
Qed.

(** ** What is left in the two lists *)

Lemma total_of_insert (l : list entry) (k : nat) (e e' : entry) :
  l !! k = Some e -> total_of (<[k := e']> l) == total_of l - snd e + snd e'.
Proof.
  revert k. induction l as [|x l IH]; intros k Hk; [discriminate|].
  destruct k as [|k]; simpl in *.
  - injection Hk as ->. lra.
  - specialize (IH k Hk). lra.
Qed.

Lemma total_of_perm (l l' : list entry) :
  Permutation l l' -> total_of l == total_of l'.
Proof.
  induction 1 as [|x l l' _ IH|x y l|l l' l'' _ IH1 _ IH2]; simpl.
  - reflexivity.
  - lra.
  - lra.
  - lra.
Qed.

Lemma total_of_nonneg (l : list entry) :
  (forall p e, l !! p = Some e -> 0 <= snd e) -> 0 <= total_of l.
Proof.
  induction l as [|x l IH]; intros H; simpl; [lra|].
  assert (0 <= snd x) by (apply (H 0%nat); reflexivity).
  assert (0 <= total_of l) by (apply IH; intros p e Hp; apply (H (S p)); exact Hp).
  lra.
Qed.

Lemma enumerate_from_totals (balances : list Q) (start : nat) :
  total_of (filter (fun e : entry => Qltb 0 (snd e) = true)
              (enumerate_from start balances))
  - total_of (map (fun e : entry => (fst e, - snd e))
                (filter (fun e : entry => Qltb (snd e) 0 = true)
                   (enumerate_from start balances)))
  == Qsum balances.
Proof.
  revert start. induction balances as [|b l IH]; intros start; simpl; [reflexivity|].
  rewrite !filter_cons. simpl. specialize (IH (S start)).
  destruct (decide (Qltb 0 b = true)) as [Hpos|Hpos];
    destruct (decide (Qltb b 0 = true)) as [Hneg|Hneg]; simpl.
  - apply Qltb_lt in Hpos, Hneg. lra.
  - lra.
  - lra.
  - apply not_true_is_false in Hpos, Hneg. apply Qltb_ge in Hpos, Hneg. lra.
Qed.

(** Credits minus debts is the sum of the balances. *)
Lemma total_of_creditors_debtors (balances : list Q) :
  total_of (creditors_of balances) - total_of (debtors_of balances)
  == Qsum balances.
Proof. apply enumerate_from_totals. Qed.

Section Settled.
Context (names : list string) (debtors0 creditors0 : list entry).

Lemma nonneg_insert (l : list entry) (k : nat) (e : entry) :
  0 <= snd e ->
  (forall p e', l !! p = Some e' -> 0 <= snd e') ->
  forall p e', <[k := e]> l !! p = Some e' -> 0 <= snd e'.
Proof.
  intros He Hl p e' Hlook.
  apply list_lookup_insert_Some in Hlook as [(-> & <- & _)|[_ Hlook]];
    [exact He | now apply (Hl p)].
Qed.

End Settled.

Section Accounting.
Context (settled : Q -> bool) (names : list string) (debtors0 creditors0 : list entry).
Context (Hd_nodup : NoDup (fst <$> debtors0)) (Hc_nodup : NoDup (fst <$> creditors0)).

Lemma acct_inv_init :
  acct_inv debtors0 creditors0 (LoopState debtors0 creditors0 0 0 []).
Proof.
  unfold acct_inv. simpl. repeat split; intros p e0 e H0 H;
    assert (e = e0) by congruence; subst; lra.
Qed.

Lemma same_index (l0 l : list entry) (p : nat) (e0 e : entry) :
  fst <$> l = fst <$> l0 -> l0 !! p = Some e0 -> l !! p = Some e -> fst e = fst e0.
Proof.
  intros Hf H0 H.
  assert (H1 : (fst <$> l) !! p = Some (fst e)) by (now rewrite list_lookup_fmap, H).
  rewrite Hf, list_lookup_fmap, H0 in H1. simpl in H1. congruence.
Qed.

Lemma other_index (l0 l : list entry) (p k : nat) (e0 e : entry) :
  NoDup (fst <$> l0) -> fst <$> l = fst <$> l0 ->
  l0 !! p = Some e0 -> l !! k = Some e -> p <> k -> fst e <> fst e0.
Proof.
  intros Hnd Hf H0 H Hne Heq.
  assert (H1 : (fst <$> l) !! k = Some (fst e)) by (now rewrite list_lookup_fmap, H).
  assert (H2 : (fst <$> l0) !! p = Some (fst e0)) by (now rewrite list_lookup_fmap, H0).
  rewrite Hf, Heq in H1. apply Hne. apply (NoDup_lookup _ _ _ _ Hnd H2 H1).
Qed.

Lemma acct_inv_step st st' :
  acct_inv debtors0 creditors0 st -> loop_step settled names st st' ->
  acct_inv debtors0 creditors0 st'.
Proof.
  intros (Hfd & Hfc & Had & Hac) (d & c & Ed & Ec & Eb).
  apply loop_body_inv in Eb as (dn & cn & _ & _ & ->).
  unfold acct_inv. simpl. repeat split.
  - rewrite <- Hfd. now apply fst_insert_same with d.
  - rewrite <- Hfc. now apply fst_insert_same with c.
  - intros p e0 e H0 H. rewrite paid_by_app. simpl.
    apply list_lookup_insert_Some in H as [(Hp & <- & _)|[Hne H]]; [subst p|].
    + simpl. rewrite decide_True
        by (now apply (same_index debtors0 (ls_debtors st) (ls_i st))).
      pose proof (Had _ _ _ H0 Ed). simpl. lra.
    + rewrite decide_False
        by (apply (other_index debtors0 (ls_debtors st) p (ls_i st)); auto).
      pose proof (Had _ _ _ H0 H). simpl. lra.
  - intros p e0 e H0 H. rewrite received_by_app. simpl.
    apply list_lookup_insert_Some in H as [(Hp & <- & _)|[Hne H]]; [subst p|].
    + simpl. rewrite decide_True
        by (now apply (same_index creditors0 (ls_creditors st) (ls_j st))).
      pose proof (Hac _ _ _ H0 Ec). simpl. lra.
    + rewrite decide_False
        by (apply (other_index creditors0 (ls_creditors st) p (ls_j st)); auto).
      pose proof (Hac _ _ _ H0 H). simpl. lra.
Qed.

Lemma run_loop_acct st :
  run_loop settled names debtors0 creditors0 = Done st ->
  acct_inv debtors0 creditors0 st.
Proof.
  unfold run_loop.
  apply (settle_loop_invariant settled names (acct_inv debtors0 creditors0)
           acct_inv_step).
  apply acct_inv_init.
Qed.

End Accounting.

Lemma total_of_ge (l : list entry) :
  (forall p e, l !! p = Some e -> 0 <= snd e) ->
  forall p e, l !! p = Some e -> snd e <= total_of l.
Proof.
  induction l as [|x l IH]; intros Hpos p e Hp; [discriminate|].
  assert (Hx : 0 <= snd x) by (apply (Hpos 0%nat); reflexivity).
  assert (Hl : forall q e', l !! q = Some e' -> 0 <= snd e')
    by (intros q e' Hq; apply (Hpos (S q)); exact Hq).
  pose proof (total_of_nonneg l Hl).
  destruct p as [|p]; simpl in *.
  - injection Hp as <-. lra.
  - specialize (IH Hl p e Hp). lra.
Qed.

Lemma index_lt_NoDup (l : list entry) :
  StronglySorted index_lt l -> NoDup (fst <$> l).
Proof.
  induction 1 as [|x l Hl IH Hx]; simpl; constructor; [|exact IH].
  intros Hin. apply list_elem_of_fmap in Hin as (y & Hy & Hin).
  rewrite Forall_forall in Hx. specialize (Hx y Hin). unfold index_lt in Hx. lia.
Qed.

Lemma sorted_desc_NoDup (l : list entry) :
  StronglySorted index_lt l -> NoDup (fst <$> sorted_desc l).
Proof.
  intros H. rewrite (sorted_desc_perm l). now apply index_lt_NoDup.
Qed.

(** ** What a settlement can leave *)


(** * Further properties *)

(** ** More invariants of the loop *)

Section Tally.
Context (settled : Q -> bool) (names : list string).
Context (debtors0 creditors0 : list entry).

Lemma tally_inv_init :
  Forall (fun e : entry => 0 < snd e) debtors0 ->
  Forall (fun e : entry => 0 < snd e) creditors0 ->
  tally_inv settled debtors0 creditors0 (LoopState debtors0 creditors0 0 0 []).
Proof.
  intros Hd Hc. unfold tally_inv. simpl.
  rewrite Forall_forall in Hd, Hc. repeat split; try (intros; lia).
  - intros p e Hp. apply Qlt_le_weak, Hd, list_elem_of_lookup. eauto.
  - intros p e Hp. apply Qlt_le_weak, Hc, list_elem_of_lookup. eauto.
Qed.

Lemma settled_insert (l : list entry) (k : nat) (e : entry) :
  (k < length l)%nat ->
  (forall p e', (p < k)%nat -> l !! p = Some e' -> settled (snd e') = true) ->
  forall p e', (p < (if settled (snd e) then S k else k))%nat ->
    <[k := e]> l !! p = Some e' -> settled (snd e') = true.
Proof.
  intros Hk Hl p e' Hp Hlook.
  destruct (decide (p = k)) as [->|Hne].
  - rewrite list_lookup_insert_eq in Hlook by exact Hk. injection Hlook as <-.
    destruct (settled (snd e)) eqn:E; [reflexivity | lia].
  - rewrite list_lookup_insert_ne in Hlook by congruence.
    apply (Hl p); [|exact Hlook]. destruct (settled (snd e)); lia.
Qed.

Lemma tally_inv_step st st' :
  tally_inv settled debtors0 creditors0 st -> loop_step settled names st st' ->
  tally_inv settled debtors0 creditors0 st'.
Proof.
  intros (Hnd & Hnc & Hsd & Hsc & Hsum) (d & c & Ed & Ec & Eb).
  apply loop_body_inv in Eb as (dn & cn & _ & _ & ->). simpl in *.
  pose proof (py_min_le_l (snd d) (snd c)) as Hle_d.
  pose proof (py_min_le_r (snd d) (snd c)) as Hle_c.
  unfold tally_inv. simpl. repeat split.
  - apply nonneg_insert; [simpl; lra | exact Hnd].
  - apply nonneg_insert; [simpl; lra | exact Hnc].
  - apply (settled_insert (ls_debtors st) (ls_i st)
             (fst d, snd d - py_min (snd d) (snd c)));
      [now apply lookup_lt_Some in Ed | exact Hsd].
  - apply (settled_insert (ls_creditors st) (ls_j st)
             (fst c, snd c - py_min (snd d) (snd c)));
      [now apply lookup_lt_Some in Ec | exact Hsc].
  - rewrite (total_of_insert _ _ d) by exact Ed.
    rewrite (total_of_insert _ _ c) by exact Ec. simpl. lra.
Qed.

Lemma run_loop_tally st :
  Forall (fun e : entry => 0 < snd e) debtors0 ->
  Forall (fun e : entry => 0 < snd e) creditors0 ->
  run_loop settled names debtors0 creditors0 = Done st ->
  tally_inv settled debtors0 creditors0 st.
Proof.
  intros Hd Hc. unfold run_loop.
  apply (settle_loop_invariant settled names
           (tally_inv settled debtors0 creditors0) tally_inv_step).
  now apply tally_inv_init.
Qed.

End Tally.

Lemma paid_by_nonneg (k : nat) (ts : list transfer) :
  Forall (fun t => 0 < t_amt t) ts -> 0 <= paid_by k ts.
Proof.
  induction 1 as [|t ts Ht Hts IH]; simpl; [lra|].
  destruct (decide (t_from t = k)); lra.
Qed.

Lemma received_by_nonneg (k : nat) (ts : list transfer) :
  Forall (fun t => 0 < t_amt t) ts -> 0 <= received_by k ts.
Proof.
  induction 1 as [|t ts Ht Hts IH]; simpl; [lra|].
  destruct (decide (t_to t = k)); lra.
Qed.

(** The balance of every participant after the settlement, read off the
    two lists as the loop leaves them: a debtor is left owing what stays in
    the debtor's entry, a creditor is left with what stays in the
    creditor's, and a balance of zero stays zero. *)
Lemma run_loop_balance (settled : Q -> bool) `{!CursorTest settled}
    (balances : list Q) (names : list string) (debtors0 creditors0 : list entry) st :
  Permutation debtors0 (debtors_of balances) ->
  Permutation creditors0 (creditors_of balances) ->
  run_loop settled names debtors0 creditors0 = Done st ->
  forall k b, balances !! k = Some b ->
  exists b', apply_transfers balances (ls_lines st) !! k = Some b' /\
    (b < 0 -> exists p e, debtors0 !! p = Some (k, - b) /\
                ls_debtors st !! p = Some e /\ b' == - snd e /\
                0 <= snd e <= - b) /\
    (0 < b -> exists p e, creditors0 !! p = Some (k, b) /\
                ls_creditors st !! p = Some e /\ b' == snd e /\
                0 <= snd e <= b) /\
    (b == 0 -> b' == 0).
Proof.
  intros Hpd Hpc Hrun k b Hb.
  assert (Hdir : Forall (directed balances) (ls_lines st))
    by (revert Hrun; now apply run_loop_directed).
  assert (Hamt : Forall (fun t => 0 < t_amt t) (ls_lines st)).
  { eapply Forall_impl; [exact Hdir|]. simpl. now intros t (_ & _ & H). }
  pose proof (paid_by_nonneg k _ Hamt) as Hpaid_nn.
  pose proof (received_by_nonneg k _ Hamt) as Hrecv_nn.
  destruct (run_loop_tally settled names debtors0 creditors0 st)
    as (Hnd & Hnc & _).
  { rewrite Hpd. apply debtors_of_positive. }
  { rewrite Hpc. apply creditors_of_positive. }
  { exact Hrun. }
  destruct (run_loop_acct settled names debtors0 creditors0) with (st := st)
    as (Hfd & Hfc & Had & Hac).
  { rewrite Hpd. apply index_lt_NoDup, debtors_of_index_lt. }
  { rewrite Hpc. apply index_lt_NoDup, creditors_of_index_lt. }
  { exact Hrun. }
  assert (Hld : length (ls_debtors st) = length debtors0)
    by (rewrite <- (length_fmap fst), Hfd; apply length_fmap).
  assert (Hlc : length (ls_creditors st) = length creditors0)
    by (rewrite <- (length_fmap fst), Hfc; apply length_fmap).
  rewrite Forall_forall in Hdir.
  assert (Hno_from : 0 <= b -> paid_by k (ls_lines st) == 0).
  { intros Hnn. apply paid_by_none, Forall_forall. intros t Ht Heq.
    destruct (Hdir t Ht) as ((b1 & Hb1 & Hneg) & _).
    rewrite Heq in Hb1. assert (b = b1) by congruence. subst b1. lra. }
  assert (Hno_to : b <= 0 -> received_by k (ls_lines st) == 0).
  { intros Hnp. apply received_by_none, Forall_forall. intros t Ht Heq.
    destruct (Hdir t Ht) as (_ & (b2 & Hb2 & Hpos) & _).
    rewrite Heq in Hb2. assert (b = b2) by congruence. subst b2. lra. }
  destruct (apply_transfers_lookup balances (ls_lines st) k b Hb) as (b' & Hb' & E).
  exists b'. split; [exact Hb'|]. split; [|split].
  - intros Hneg.
    assert (Hin : (k, - b) ∈ debtors0).
    { rewrite Hpd. apply elem_of_debtors_of. exists b. auto. }
    apply list_elem_of_lookup in Hin as [p Hp].
    destruct (lookup_lt_is_Some_2 (ls_debtors st) p) as [e He].
    { apply lookup_lt_Some in Hp. lia. }
    exists p, e. split; [exact Hp|]. split; [exact He|].
    pose proof (Had _ _ _ Hp He) as Hpaid. simpl in Hpaid.
    pose proof (Hno_to ltac:(lra)). pose proof (Hnd _ _ He).
    split; [lra | split; lra].
  - intros Hpos.
    assert (Hin : (k, b) ∈ creditors0).
    { rewrite Hpc. apply elem_of_creditors_of. auto. }
    apply list_elem_of_lookup in Hin as [p Hp].
    destruct (lookup_lt_is_Some_2 (ls_creditors st) p) as [e He].
    { apply lookup_lt_Some in Hp. lia. }
    exists p, e. split; [exact Hp|]. split; [exact He|].
    pose proof (Hac _ _ _ Hp He) as Hrecv. simpl in Hrecv.
    pose proof (Hno_from ltac:(lra)). pose proof (Hnc _ _ He).
    split; [lra | split; lra].
  - intros Hzero. pose proof (Hno_from ltac:(lra)). pose proof (Hno_to ltac:(lra)).
    lra.
Qed.

(** Both loops are [run_loop] on arrangements of the same two lists. *)
Lemma either_loop (run : list Q -> list string -> outcome) (balances : list Q)
    (names : list string) :
  run = settle \/ run = desktop_settle ->
  exists settled debtors0 creditors0,
    CursorTest settled /\
    Permutation debtors0 (debtors_of balances) /\
    Permutation creditors0 (creditors_of balances) /\
    run balances names = run_loop settled names debtors0 creditors0.
Proof.
  intros [-> | ->].
  - exists settled_web, (sorted_desc (debtors_of balances)),
      (sorted_desc (creditors_of balances)).
    split; [typeclasses eauto|]. split; [apply sorted_desc_perm|].
    split; [apply sorted_desc_perm | reflexivity].
  - exists settled_desktop, (debtors_of balances), (creditors_of balances).
    split; [typeclasses eauto|]. split; [reflexivity|]. split; reflexivity.
Qed.

Lemma either_done (run : list Q -> list string -> outcome) (balances : list Q)
    (names : list string) :
  (length balances <= length names)%nat ->
  run = settle \/ run = desktop_settle ->
  exists st, run balances names = Done st.
Proof.
  intros Hlen [-> | ->]; [now apply settle_done | now apply desktop_settle_done].
Qed.

(** ** No overpayment *)

(** X1.  Whatever the balances, carrying out the settlement of [settle] or
    of the desktop loop moves every balance towards zero and never across
    it: a debtor never pays more than the debt, a creditor never receives
    more than the credit, and a balance of zero is not touched. *)
Theorem settlement_never_overshoots (balances : list Q) (names : list string) :
  (length balances <= length names)%nat ->
  forall run, run = settle \/ run = desktop_settle ->
  exists st, run balances names = Done st /\
    forall k b, balances !! k = Some b ->
    exists b', apply_transfers balances (ls_lines st) !! k = Some b' /\
      towards_zero b b'.
Proof.
  intros Hlen run Hrun.
  destruct (either_done run balances names Hlen Hrun) as [st Hst].
  exists st. split; [exact Hst|]. intros k b Hb.
  destruct (either_loop run balances names Hrun)
    as (settled & debtors0 & creditors0 & Htest & Hpd & Hpc & Heq).
  rewrite Heq in Hst.
  destruct (run_loop_balance settled balances names debtors0 creditors0 st
              Hpd Hpc Hst k b Hb) as (b' & Hb' & Hneg & Hpos & Hzero).
  exists b'. split; [exact Hb'|]. unfold towards_zero. split; [|split].
  - intros H. destruct (Hneg H) as (p & e & _ & _ & E & Hr). lra.
  - intros H. destruct (Hpos H) as (p & e & _ & _ & E & Hr). lra.
  - exact Hzero.
Qed.

Lemma settlement_never_overshoots_witness :
  exists st, desktop_settle unsorted_balances scenario_names = Done st /\
    forall k b, unsorted_balances !! k = Some b ->
    exists b', apply_transfers unsorted_balances (ls_lines st) !! k = Some b' /\
      towards_zero b b'.
Proof.
  apply (settlement_never_overshoots unsorted_balances scenario_names).
  - simpl. lia.
  - right. reflexivity.
Defined.

(** ** No pair twice *)

Section Pairs.
Context (settled : Q -> bool) `{!CursorTest settled} (names : list string).
Context (debtors0 creditors0 : list entry).
Context (Hd_nodup : NoDup (fst <$> debtors0)) (Hc_nodup : NoDup (fst <$> creditors0)).

Lemma pairs_inv_init :
  pairs_inv debtors0 creditors0 (LoopState debtors0 creditors0 0 0 []).
Proof.
  unfold pairs_inv. simpl. repeat split; try lia.
  - intros t Ht. now apply elem_of_nil in Ht.
  - constructor.
Qed.

Lemma pairs_inv_step st st' :
  pairs_inv debtors0 creditors0 st -> loop_step settled names st st' ->
  pairs_inv debtors0 creditors0 st'.
Proof.
  intros (Hfd & Hfc & Hi & Hj & Hpos & Hnd) (d & c & Ed & Ec & Eb).
  apply loop_body_inv in Eb as (dn & cn & _ & _ & ->).
  assert (Hdi : (fst <$> debtors0) !! ls_i st = Some (fst d))
    by (now rewrite <- Hfd, list_lookup_fmap, Ed).
  assert (Hcj : (fst <$> creditors0) !! ls_j st = Some (fst c))
    by (now rewrite <- Hfc, list_lookup_fmap, Ec).
  assert (Hli : (ls_i st < length debtors0)%nat).
  { apply lookup_lt_Some in Hdi. now rewrite length_fmap in Hdi. }
  assert (Hlj : (ls_j st < length creditors0)%nat).
  { apply lookup_lt_Some in Hcj. now rewrite length_fmap in Hcj. }
  assert (Hadv : exists i' j',
            i' = (if settled (snd d - py_min (snd d) (snd c))
                  then S (ls_i st) else ls_i st) /\
            j' = (if settled (snd c - py_min (snd d) (snd c))
                  then S (ls_j st) else ls_j st) /\
            (ls_i st <= i')%nat /\ (ls_j st <= j')%nat /\
            (i' <= length debtors0)%nat /\ (j' <= length creditors0)%nat /\
            ((ls_i st < i')%nat \/ (ls_j st < j')%nat)).
  { eexists _, _. split; [reflexivity|]. split; [reflexivity|].
    destruct (py_min_rem_zero (snd d) (snd c)) as [H0|H0];
      rewrite (settled_zero _ H0); destruct (settled _); simpl; lia. }
  destruct Hadv as (i' & j' & Ei & Ej & Hadv).
  destruct Hadv as (Hii & Hjj & Hi' & Hj' & Hstrict).
  unfold pairs_inv. simpl. rewrite <- Ei, <- Ej. repeat split; try assumption.
  - rewrite <- Hfd. now apply fst_insert_same with d.
  - rewrite <- Hfc. now apply fst_insert_same with c.
  - intros t Ht. apply elem_of_app in Ht as [Ht|Ht].
    + destruct (Hpos t Ht) as (p & q & Hp & Hq & Hpi & Hqj & Hlt).
      exists p, q. repeat split; auto; lia.
    + apply list_elem_of_singleton in Ht as ->. simpl.
      exists (ls_i st), (ls_j st). repeat split; auto.
  - rewrite fmap_app. apply NoDup_app. split; [exact Hnd|]. split.
    + intros pr Hin Hnew. simpl in Hnew.
      apply list_elem_of_singleton in Hnew. subst pr.
      apply list_elem_of_fmap in Hin as (t & Heq & Ht).
      unfold pair_of in Heq. simpl in Heq. injection Heq as Hfrom Hto.
      destruct (Hpos t Ht) as (p & q & Hp & Hq & _ & _ & Hlt).
      rewrite <- Hfrom in Hp. rewrite <- Hto in Hq.
      pose proof (NoDup_lookup _ _ _ _ Hd_nodup Hp Hdi).
      pose proof (NoDup_lookup _ _ _ _ Hc_nodup Hq Hcj). lia.
    + simpl. apply NoDup_singleton.
Qed.

Lemma run_loop_pairs st :
  run_loop settled names debtors0 creditors0 = Done st ->
  pairs_inv debtors0 creditors0 st.
Proof.
  unfold run_loop.
  apply (settle_loop_invariant settled names (pairs_inv debtors0 creditors0)
           pairs_inv_step).
  apply pairs_inv_init.
Qed.

End Pairs.

(** X2.  A settlement, of [settle] or of the desktop loop, never has two
    lines for the same payer and payee: every pass moves a cursor on, so no
    pair of entries is matched twice. *)
Theorem settlement_pairs_once (balances : list Q) (names : list string) :
  (length balances <= length names)%nat ->
  forall run, run = settle \/ run = desktop_settle ->
  exists st, run balances names = Done st /\ NoDup (pair_of <$> ls_lines st).
Proof.
  intros Hlen run Hrun.
  destruct (either_done run balances names Hlen Hrun) as [st Hst].
  exists st. split; [exact Hst|].
  destruct (either_loop run balances names Hrun)
    as (settled & debtors0 & creditors0 & Htest & Hpd & Hpc & Heq).
  rewrite Heq in Hst.
  apply (run_loop_pairs settled names debtors0 creditors0) in Hst.
  - now destruct Hst as (_ & _ & _ & _ & _ & H).
  - rewrite Hpd. apply index_lt_NoDup, debtors_of_index_lt.
  - rewrite Hpc. apply index_lt_NoDup, creditors_of_index_lt.
Qed.

Lemma settlement_pairs_once_witness :
  exists st, settle scenario_balances scenario_names = Done st /\
    NoDup (pair_of <$> ls_lines st).
Proof.
  apply (settlement_pairs_once scenario_balances scenario_names).
  - simpl. lia.
  - left. reflexivity.
Defined.

(** ** How a run can fail *)

Lemma settle_loop_failed (settled : Q -> bool) (names : list string)
    (fuel : nat) (st : loop_state) (e : exn) :
  settle_loop settled names fuel st = Failed e -> e = IndexError.
Proof.
  revert st. induction fuel as [|fuel IH]; intros st; simpl.
  - destruct (ls_debtors st !! ls_i st) as [d|];
      [destruct (ls_creditors st !! ls_j st) as [c|]|]; discriminate.
  - destruct (ls_debtors st !! ls_i st) as [d|];
      [destruct (ls_creditors st !! ls_j st) as [c|]|]; try discriminate.
    destruct (loop_body settled names st d c) as [st1|e1] eqn:Eb.
    + apply IH.
    + intros [= <-]. now apply loop_body_raise in Eb as [-> _].
Qed.

(** X3.  On finite balances (the values of [Q]; [inf] and [nan], on which
    the loops need not end, are not among them), [settle] and the desktop
    loop can fail in one way only: with an [IndexError], and only when there
    are fewer names than balances.  With a name for every balance they
    return. *)
Theorem settle_fails_only_on_short_names (balances : list Q) (names : list string) :
  forall run, run = settle \/ run = desktop_settle ->
  run balances names <> OutOfFuel /\
  (forall e, run balances names = Failed e ->
     e = IndexError /\ (length names < length balances)%nat) /\
  ((length balances <= length names)%nat ->
   exists st, run balances names = Done st).
Proof.
  intros run Hrun. split; [|split].
  - destruct (either_loop run balances names Hrun)
      as (settled & debtors0 & creditors0 & Htest & _ & _ & ->).
    unfold run_loop. apply settle_loop_fuel; [assumption|].
    unfold remaining, loop_fuel. simpl. lia.
  - intros e He. split.
    + destruct (either_loop run balances names Hrun)
        as (settled & debtors0 & creditors0 & _ & _ & _ & Heq).
      rewrite Heq in He. now apply settle_loop_failed in He.
    + destruct (decide (length balances <= length names)%nat) as [Hle|Hgt]; [|lia].
      destruct (either_done run balances names Hle Hrun) as [st Hst]. congruence.
  - intros Hlen. now apply either_done.
Qed.

Lemma settle_fails_only_on_short_names_witness :
  exists st, settle scenario_balances scenario_names = Done st.
Proof.
  apply (settle_fails_only_on_short_names scenario_balances scenario_names settle).
  - left. reflexivity.
  - simpl. lia.
Defined.

(** ** The side that is walked to its end *)

(** When the loop is left, one of the two lists has been walked to its end,
    and each of its entries met the cursor test. *)
Lemma run_loop_side (settled : Q -> bool) (names : list string)
    (debtors0 creditors0 : list entry) st :
  Forall (fun e : entry => 0 < snd e) debtors0 ->
  Forall (fun e : entry => 0 < snd e) creditors0 ->
  run_loop settled names debtors0 creditors0 = Done st ->
  (forall p e, ls_debtors st !! p = Some e -> settled (snd e) = true) \/
  (forall p e, ls_creditors st !! p = Some e -> settled (snd e) = true).
Proof.
  intros Hd Hc Hrun.
  destruct (run_loop_tally settled names debtors0 creditors0 st Hd Hc Hrun)
    as (_ & _ & Hsd & Hsc & _).
  destruct (run_loop_exhausted settled names debtors0 creditors0 st Hrun) as [Hi|Hj].
  - left. intros p e Hp. apply (Hsd p); [|exact Hp].
    apply lookup_lt_Some in Hp. lia.
  - right. intros p e Hp. apply (Hsc p); [|exact Hp].
    apply lookup_lt_Some in Hp. lia.
Qed.



(** ** When the settlement says that all is settled *)

Lemma run_loop_lines_nil (settled : Q -> bool) (names : list string)
    (debtors0 creditors0 : list entry) st :
  run_loop settled names debtors0 creditors0 = Done st ->
  ls_lines st = [] <-> debtors0 = [] \/ creditors0 = [].
Proof.
  unfold run_loop, loop_fuel. intros Hrun.
  destruct debtors0 as [|d ds].
  - split; [now left|]. intros _.
    destruct (length [] + length creditors0)%nat; simpl in Hrun;
      now injection Hrun as <-.
  - destruct creditors0 as [|c cs].
    + split; [now right|]. intros _.
      destruct (length (d :: ds) + length [])%nat; simpl in Hrun;
        now injection Hrun as <-.
    + split; [|intros [H|H]; discriminate].
      intros Hnil. exfalso. simpl in Hrun.
      destruct (loop_body settled names _ d c) as [st1|e] eqn:Eb; [|discriminate].
      apply loop_body_inv in Eb as (dn & cn & _ & _ & ->).
      revert Hrun Hnil.
      intros Hrun. revert Hrun.
      apply (settle_loop_invariant settled names (fun s => ls_lines s = [] -> False)).
      * intros s s' Hs (d' & c' & _ & _ & Eb').
        apply loop_body_inv in Eb' as (dn' & cn' & _ & _ & ->). simpl.
        intros H. now apply app_eq_nil in H as [_ H].
      * simpl. discriminate.
Qed.

Lemma debtors_of_nil (balances : list Q) :
  debtors_of balances = [] <-> Forall (fun b => 0 <= b) balances.
Proof.
  split.
  - intros Hnil. apply Forall_lookup. intros k b Hb.
    destruct (Qlt_le_dec b 0) as [Hneg|H]; [|exact H]. exfalso.
    assert (Hin : (k, - b) ∈ debtors_of balances)
      by (apply elem_of_debtors_of; exists b; auto).
    rewrite Hnil in Hin. now apply elem_of_nil in Hin.
  - intros Hall. destruct (debtors_of balances) as [|e l] eqn:E; [reflexivity|].
    exfalso. assert (Hin : e ∈ debtors_of balances) by (rewrite E; now left).
    apply elem_of_debtors_of in Hin as (b & Hb & Hneg & _).
    rewrite Forall_lookup in Hall. specialize (Hall _ _ Hb). lra.
Qed.

Lemma creditors_of_nil (balances : list Q) :
  creditors_of balances = [] <-> Forall (fun b => b <= 0) balances.
Proof.
  split.
  - intros Hnil. apply Forall_lookup. intros k b Hb.
    destruct (Qlt_le_dec 0 b) as [Hpos|H]; [|exact H]. exfalso.
    assert (Hin : (k, b) ∈ creditors_of balances)
      by (apply elem_of_creditors_of; auto).
    rewrite Hnil in Hin. now apply elem_of_nil in Hin.
  - intros Hall. destruct (creditors_of balances) as [|e l] eqn:E; [reflexivity|].
    exfalso. assert (Hin : e ∈ creditors_of balances) by (rewrite E; now left).
    apply elem_of_creditors_of in Hin as [Hb Hpos].
    rewrite Forall_lookup in Hall. specialize (Hall _ _ Hb). lra.
Qed.

Lemma sorted_desc_nil (l : list entry) : sorted_desc l = [] <-> l = [].
Proof.
  split; [|now intros ->]. intros H.
  apply (f_equal length) in H. rewrite length_sorted_desc in H.
  now destruct l.
Qed.

Lemma append_inv_head (a b c : string) : (a ++ b = a ++ c)%string -> b = c.
Proof.
  induction a as [|x a IH]; simpl; [easy|]. intros [= H]. now apply IH.
Qed.

Lemma settlements_text_settled (lines : list transfer) :
  settlements_text lines = all_settled_text <-> lines = [].
Proof.
  split; [|now intros ->].
  destruct lines as [|t ts]; [reflexivity|].
  unfold settlements_text, all_settled_text. intros H. exfalso.
  do 3 apply append_inv_head in H.
  destruct ts; simpl in H; discriminate.
Qed.

(** X6.  [settle] returns the text that ends in "All settled!" exactly when
    no balance is negative or no balance is positive.  That is more than the
    case where all balances are zero: when somebody is owed money and nobody
    owes any (or the other way round), the text still says that all is
    settled. *)
Theorem settle_says_all_settled (balances : list Q) (names : list string) :
  (length balances <= length names)%nat ->
  exists st, settle balances names = Done st /\
    (settlements_text (ls_lines st) = all_settled_text <->
     Forall (fun b => 0 <= b) balances \/ Forall (fun b => b <= 0) balances).
Proof.
  intros Hlen. destruct (settle_done balances names Hlen) as [st Hst].
  exists st. split; [exact Hst|]. unfold settle in Hst.
  rewrite settlements_text_settled, (run_loop_lines_nil _ _ _ _ _ Hst).
  now rewrite !sorted_desc_nil, debtors_of_nil, creditors_of_nil.
Qed.

(** Somebody has paid too much and nobody too little. *)
Lemma settle_says_all_settled_witness :
  exists st, settle [5; 0; 3] scenario_names = Done st /\
    (settlements_text (ls_lines st) = all_settled_text <->
     Forall (fun b => 0 <= b) [5; 0; 3] \/ Forall (fun b => b <= 0) [5; 0; 3]).
Proof.
  apply (settle_says_all_settled [5; 0; 3] scenario_names). simpl. lia.
Defined.

(** ** Amounts as they are printed *)

Lemma round_half_even_comp (x y : Q) :
  x == y -> round_half_even x = round_half_even y.
Proof.
  intros H. unfold round_half_even. rewrite (Qfloor_comp _ _ H).
  assert (E : Qcompare (x - inject_Z (Qfloor y)) (1 # 2)
              = Qcompare (y - inject_Z (Qfloor y)) (1 # 2))
    by (apply Qcompare_comp; [now rewrite H | reflexivity]).
  now rewrite E.
Qed.

Lemma round_half_even_Z (z : Z) : round_half_even (inject_Z z) = z.
Proof.
  unfold round_half_even. rewrite Qfloor_Z.
  destruct (Qcompare_spec (inject_Z z - inject_Z z) (1 # 2)) as [H|H|H];
    [exfalso; lra | reflexivity | exfalso; lra].
Qed.

Lemma round_half_even_cents (x : Q) (z : Z) :
  x == z # 100 -> round_half_even (x * 100) = z.
Proof.
  intros H. transitivity (round_half_even (inject_Z z)).
  - apply round_half_even_comp. rewrite H, Qmake_100. lra.
  - apply round_half_even_Z.
Qed.

(** ** The itemized split, person by person *)

Lemma enumerate_from_app {A : Type} (l l' : list A) (start : nat) :
  enumerate_from start (l ++ l')
  = enumerate_from start l ++ enumerate_from (start + length l) l'.
Proof.
  revert start. induction l as [|x l IH]; intros start; simpl.
  - now rewrite Nat.add_0_r.
  - rewrite IH. now replace (S start + length l)%nat with (start + S (length l))%nat by lia.
Qed.

Lemma name_index_snoc (names : list string) (x : string) :
  name_index (names ++ [x]) = <[x := length names]> (name_index names).
Proof.
  unfold name_index, enumerate. rewrite enumerate_from_app, foldl_app. reflexivity.
Qed.

(** The dictionary keeps, for every name, the last position that holds it. *)
Lemma name_index_last (names : list string) (person : string) (k : nat) :
  name_index names !! person = Some k <-> last_at names k person.
Proof.
  revert k. induction names as [|x names IH] using rev_ind; intros k.
  - unfold name_index, last_at. simpl. rewrite lookup_empty.
    split; [discriminate | intros [H _]; discriminate].
  - rewrite name_index_snoc. unfold last_at in *.
    destruct (decide (person = x)) as [->|Hne].
    + rewrite lookup_insert_eq. split.
      * intros [= <-]. split.
        -- rewrite lookup_app_r by lia. now rewrite Nat.sub_diag.
        -- intros k' Hk' H. apply lookup_lt_Some in H.
           rewrite length_app in H. simpl in H. lia.
      * intros [Hk Hlast]. f_equal.
        assert (Hlt : (k < length (names ++ [x]))%nat) by (eapply lookup_lt_Some; eauto).
        rewrite length_app in Hlt. simpl in Hlt.
        destruct (decide (k = length names)) as [->|Hk']; [reflexivity|].
        exfalso. apply (Hlast (length names)); [lia|].
        rewrite lookup_app_r by lia. now rewrite Nat.sub_diag.
    + rewrite lookup_insert_ne by congruence. rewrite IH. split.
      * intros [Hk Hlast]. split.
        -- now apply lookup_app_l_Some.
        -- intros k' Hk' H.
           destruct (decide (k' < length names)%nat) as [Hlt|Hge].
           ++ rewrite lookup_app_l in H by exact Hlt. now apply (Hlast k').
           ++ rewrite lookup_app_r in H by lia.
              destruct (k' - length names)%nat; simpl in H; [congruence|discriminate].
      * intros [Hk Hlast].
        assert (Hlt : (k < length names)%nat).
        { assert (Hlt : (k < length (names ++ [x]))%nat) by (eapply lookup_lt_Some; eauto).
          rewrite length_app in Hlt. simpl in Hlt.
          destruct (decide (k = length names)) as [->|Hk']; [|lia].
          rewrite lookup_app_r in Hk by lia. rewrite Nat.sub_diag in Hk.
          simpl in Hk. congruence. }
        rewrite lookup_app_l in Hk by exact Hlt. split; [exact Hk|].
        intros k' Hk' H. apply (Hlast k' Hk'). now apply lookup_app_l_Some.
Qed.

Lemma inject_Z_succ (n : nat) :
  inject_Z (Z.of_nat (S n)) == inject_Z (Z.of_nat n) + 1.
Proof.
  rewrite Nat2Z.inj_succ, <- Z.add_1_r, inject_Z_plus. reflexivity.
Qed.

Lemma add_shares_at (idx : gmap string nat) (share : Q) (k : nat)
    (participants : list string) (owed : list Q) (x : Q) :
  owed !! k = Some x ->
  exists y, add_shares idx share participants owed !! k = Some y /\
    y == x + share * inject_Z (Z.of_nat (hits idx k participants)).
Proof.
  unfold add_shares, hits. revert owed x.
  induction participants as [|p ps IH]; intros owed x Hx; simpl.
  - exists x. split; [exact Hx|]. change (inject_Z (Z.of_nat 0)) with 0. lra.
  - rewrite filter_cons. destruct (decide (idx !! p = Some k)) as [Ek|Hn].
    + rewrite Ek.
      destruct (IH (alter (fun x : Q => x + share) k owed) (x + share)) as (y & Hy & E).
      { rewrite list_lookup_alter_eq, Hx. reflexivity. }
      exists y. split; [exact Hy|].
      change (length (p :: filter (fun p0 => idx !! p0 = Some k) ps))
        with (S (length (filter (fun p0 => idx !! p0 = Some k) ps))).
      rewrite inject_Z_succ. lra.
    + destruct (idx !! p) as [k'|] eqn:Ek'.
      * apply IH. rewrite list_lookup_alter_ne by congruence. exact Hx.
      * now apply IH.
Qed.

Lemma charged_cons (idx : gmap string nat) (k : nat) (it : Item) (items : list Item) :
  charged idx k (it :: items)
  == (if item_valid it
      then item_share it * inject_Z (Z.of_nat (hits idx k (item_participants it)))
      else 0) + charged idx k items.
Proof.
  unfold charged. rewrite filter_cons.
  destruct (decide (item_valid it = true)) as [E|E];
    [rewrite E | apply not_true_is_false in E; rewrite E]; simpl; lra.
Qed.

Lemma itemized_fold_at (idx : gmap string nat) (k : nat) (items : list Item)
    (acc : Q * list Q) (x : Q) :
  snd acc !! k = Some x ->
  exists y, snd (foldl (add_item idx) acc items) !! k = Some y /\
    y == x + charged idx k items.
Proof.
  revert acc x. induction items as [|it items IH]; intros acc x Hx.
  - exists x. split; [exact Hx|]. unfold charged. simpl. lra.
  - simpl. destruct (item_valid it) eqn:Ev.
    + rewrite (add_item_valid idx acc it Ev).
      destruct (add_shares_at idx (item_share it) k (item_participants it) (snd acc) x Hx)
        as (x1 & Hx1 & E1).
      destruct (IH (fst acc + item_amount it,
                    add_shares idx (item_share it) (item_participants it) (snd acc))
                  x1 Hx1) as (y & Hy & E).
      exists y. split; [exact Hy|]. rewrite charged_cons, Ev. lra.
    + rewrite (add_item_skip idx acc it Ev).
      destruct (IH acc x Hx) as (y & Hy & E).
      exists y. split; [exact Hy|]. rewrite charged_cons, Ev. lra.
Qed.

Lemma itemized_raw_at (items : list Item) (names : list string) (k : nat) :
  (k < length names)%nat ->
  exists y, snd (itemized_raw items names) !! k = Some y /\
    y == charged (name_index names) k items.
Proof.
  intros Hk. unfold itemized_raw.
  destruct (itemized_fold_at (name_index names) k items
              (0, replicate (length names) 0) 0) as (y & Hy & E).
  - simpl. now apply lookup_replicate_2.
  - exists y. split; [exact Hy|]. lra.
Qed.

Lemma round2_comp (x y : Q) : x == y -> round2 x = round2 y.
Proof.
  intros H. unfold round2. f_equal. apply round_half_even_comp. now rewrite H.
Qed.

Lemma calc_with_itemized_owed (items : list Item) (paid : list Q)
    (names : list string) :
  snd (fst (calc_with_itemized items paid names))
  = map round2 (snd (itemized_raw items names)).
Proof.
  unfold calc_with_itemized. now destruct (itemized_raw items names).
Qed.

Lemma filter_none {A : Type} (P : A -> Prop) `{!forall x, Decision (P x)}
    (l : list A) :
  (forall x, ~ P x) -> filter P l = [].
Proof.
  intros Hnone. induction l as [|x l IH]; [reflexivity|].
  rewrite filter_cons.
  destruct (decide (P x)) as [Hx|_]; [now apply Hnone in Hx | exact IH].
Qed.

Lemma charged_shadowed (names : list string) (k k' : nat) (person : string)
    (items : list Item) :
  names !! k = Some person -> (k < k')%nat -> names !! k' = Some person ->
  charged (name_index names) k items == 0.
Proof.
  intros Hk Hlt Hk'. unfold charged.
  induction (filter (fun it => item_valid it = true) items) as [|it l IH];
    [reflexivity|].
  simpl. rewrite IH.
  assert (E : hits (name_index names) k (item_participants it) = 0%nat).
  { unfold hits. rewrite filter_none; [reflexivity|].
    intros q Hq. apply name_index_last in Hq as [Hq Hlast].
    assert (q = person) by congruence. subst q. now apply (Hlast k'). }
  rewrite E. change (inject_Z (Z.of_nat 0)) with 0. lra.
Qed.

(** X9.  When a name stands twice in the master list, the dictionary of
    [calc_with_itemized] keeps its last position only: every earlier position
    with that name is charged nothing, whatever the items list, so its owed
    amount is 0.00 and its balance is what that person paid, rounded. *)
Theorem itemized_duplicate_name (items : list Item) (paid : list Q)
    (names : list string) (k k' : nat) (person : string) :
  names !! k = Some person -> (k < k')%nat -> names !! k' = Some person ->
  snd (fst (calc_with_itemized items paid names)) !! k = Some (0 # 100) /\
  forall p, paid !! k = Some p ->
    snd (calc_with_itemized items paid names) !! k = Some (round2 (p - (0 # 100))).
Proof.
  intros Hk Hlt Hk'.
  assert (Howed : snd (fst (calc_with_itemized items paid names)) !! k = Some (0 # 100)).
  { rewrite calc_with_itemized_owed.
    assert (Hlen : (k < length names)%nat) by (eapply lookup_lt_Some; eauto).
    destruct (itemized_raw_at items names k Hlen) as (y & Hy & E).
    rewrite list_lookup_fmap, Hy. simpl. f_equal.
    rewrite (round2_comp y 0); [reflexivity|].
    rewrite E. now apply (charged_shadowed names k k' person). }
  split; [exact Howed|]. intros p Hp.
  unfold calc_with_itemized in *. destruct (itemized_raw items names) as [t o].
  simpl in *. unfold derive_balances.
  rewrite list_lookup_fmap, lookup_zip_with, Hp. simpl. rewrite Howed. reflexivity.
Qed.

Lemma itemized_duplicate_name_witness :
  snd (fst (calc_with_itemized itemized_items [0; 0; 0; 0] twice_names)) !! 1%nat
  = Some (0 # 100) /\
  forall p, [0; 0; 0; 0] !! 1%nat = Some p ->
    snd (calc_with_itemized itemized_items [0; 0; 0; 0] twice_names) !! 1%nat
    = Some (round2 (p - (0 # 100))).
Proof.
  apply (itemized_duplicate_name itemized_items [0; 0; 0; 0] twice_names 1 3 "B");
    [reflexivity | lia | reflexivity].
Defined.

(** ** Items that are skipped *)

Lemma itemized_fold_filter (idx : gmap string nat) (items : list Item)
    (acc : Q * list Q) :
  foldl (add_item idx) acc items
  = foldl (add_item idx) acc (filter (fun it => item_valid it = true) items).
Proof.
  revert acc. induction items as [|it items IH]; intros acc; [reflexivity|].
  rewrite filter_cons. simpl.
  destruct (decide (item_valid it = true)) as [Ev|Ev].
  - simpl. apply IH.
  - apply not_true_is_false in Ev. rewrite (add_item_skip idx acc it Ev). apply IH.
Qed.

(** X10.  Items with an amount that is not positive or with no participant
    count in nothing: wherever they stand in the list, [calc_with_itemized]
    returns the total, the owed amounts and the balances that it returns
    for the list without them. *)
Theorem itemized_skips_degenerate (items : list Item) (paid : list Q)
    (names : list string) :
  calc_with_itemized items paid names
  = calc_with_itemized (filter (fun it => item_valid it = true) items) paid names.
Proof.
  unfold calc_with_itemized, itemized_raw.
  now rewrite (itemized_fold_filter (name_index names) items).
Qed.

(** ** From the inputs to the settled balances *)

Lemma equal_share_sum (total : Q) (paid : list Q) (n : nat) :
  length paid = S n -> Qsum paid == total ->
  Qabs (Qsum (derive_balances paid
                (replicate (S n) (total / inject_Z (Z.of_nat (S n))))))
  <= inject_Z (Z.of_nat (S n)) * (1 # 200).
Proof.
  intros Hlen Hpaid.
  set (share := total / inject_Z (Z.of_nat (S n))).
  pose proof (Qsum_derive_balances paid (replicate (S n) share)) as Hsum.
  rewrite length_replicate in Hsum. specialize (Hsum Hlen).
  rewrite Hlen in Hsum.
  pose proof (Qsum_replicate (S n) share) as Hrep.
  pose proof (inject_Z_of_nat_pos (S n) ltac:(lia)) as Hpos.
  assert (Hshare : inject_Z (Z.of_nat (S n)) * share == total).
  { unfold share. apply Qmult_div_r. lra. }
  apply Qabs_bound. split; lra.
Qed.

Lemma itemized_sum (items : list Item) (paid : list Q) (names : list string) :
  length paid = length names ->
  all_listed names items ->
  Qsum paid == valid_total items ->
  Qabs (Qsum (snd (calc_with_itemized items paid names)))
  <= inject_Z (Z.of_nat (length names)) * (1 # 100).
Proof.
  intros Hlen Hall Hpaid. unfold calc_with_itemized.
  destruct (itemized_raw_totals items names) as (Hlraw & Htot & Hraw).
  destruct (itemized_raw items names) as [total' raw]. simpl in *.
  pose proof (Qsum_derive_balances paid (map round2 raw)) as Hsum.
  rewrite length_map in Hsum. specialize (Hsum ltac:(lia)).
  pose proof (Qsum_round2 raw) as Hround.
  rewrite (shared_total_all_listed names items Hall) in Hraw.
  rewrite Hlen in Hsum. rewrite Hlraw in Hround.
  apply Qabs_bound. split; lra.
Qed.

Lemma calc_with_itemized_length (items : list Item) (paid : list Q)
    (names : list string) :
  length (snd (fst (calc_with_itemized items paid names))) = length names /\
  length (snd (calc_with_itemized items paid names))
  = (length paid `min` length names)%nat /\
  Forall is_cents (snd (calc_with_itemized items paid names)).
Proof.
  unfold calc_with_itemized.
  destruct (itemized_raw_totals items names) as (Hlraw & _ & _).
  destruct (itemized_raw items names) as [total' raw]. simpl in *.
  rewrite length_map. split; [exact Hlraw|]. split; [|apply derive_balances_cents].
  unfold derive_balances. now rewrite length_map, length_zip, length_map, Hlraw.
Qed.

(** ** The desktop form *)

Lemma desktop_summary_ok (names : list string) (contributions balances : list Q)
    (count i : nat) :
  (i + count <= length names)%nat ->
  (i + count <= length contributions)%nat ->
  (i + count <= length balances)%nat ->
  exists lines,
    desktop_summary names contributions balances count i = Ok lines /\
    length lines = count.
Proof.
  revert i. induction count as [|count IH]; intros i Hn Hc Hb; simpl.
  - now exists [].
  - destruct (lookup_lt_is_Some_2 balances i ltac:(lia)) as [bal ->].
    destruct (lookup_lt_is_Some_2 names i ltac:(lia)) as [name ->].
    destruct (lookup_lt_is_Some_2 contributions i ltac:(lia)) as [paid ->].
    destruct (IH (S i) ltac:(lia) ltac:(lia) ltac:(lia)) as (lines & -> & Hlen).
    eexists. split; [reflexivity|]. simpl. now rewrite Hlen.
Qed.

Section FormProofs.
Variable strip : string -> string.
Variable float : string -> option py_float.

Lemma finite_amounts_Finite (cs : list Q) : finite_amounts (Finite <$> cs) = Some cs.
Proof.
  induction cs as [|c cs IH]; [reflexivity|].
  change (Finite <$> c :: cs) with (Finite c :: (Finite <$> cs)).
  simpl. now rewrite IH.
Qed.

Lemma read_entries_finite (name_entries paid_entries : list string)
    (rest_names rest_paid : list string) (cs : list Q) :
  Forall3 (row_finite strip float) rest_names rest_paid cs ->
  forall i names payments,
    drop i name_entries = rest_names -> drop i paid_entries = rest_paid ->
    read_entries strip float name_entries paid_entries (length cs) i names payments
    = ReadOk (names ++ (strip <$> rest_names)) (payments ++ (Finite <$> cs)).
Proof.
  induction 1 as [|nt pt c ns ps cs [Hc Hname] _ IH]; intros i names payments En Ep.
  - simpl. now rewrite !app_nil_r.
  - assert (Hnt : name_entries !! i = Some nt).
    { rewrite <- (Nat.add_0_r i), <- lookup_drop, En. reflexivity. }
    assert (Hpt : paid_entries !! i = Some pt).
    { rewrite <- (Nat.add_0_r i), <- lookup_drop, Ep. reflexivity. }
    simpl. rewrite Hnt, Hpt, Hc.
    rewrite bool_decide_eq_false_2 by exact Hname.
    rewrite (drop_S _ _ _ Hnt) in En. rewrite (drop_S _ _ _ Hpt) in Ep.
    injection En as En. injection Ep as Ep.
    rewrite (IH (S i) (names ++ [strip nt]) (payments ++ [Finite c]) En Ep).
    now rewrite <- !app_assoc.
Qed.

Lemma read_entries_rejected (name_entries paid_entries : list string)
    (i : nat) (name_text paid_text : string) :
  name_entries !! i = Some name_text ->
  paid_entries !! i = Some paid_text ->
  ~ row_accepted strip float name_text paid_text ->
  forall count j names contributions,
    (j <= i < j + count)%nat ->
    (forall k, (j <= k < i)%nat ->
       exists nt pt,
         name_entries !! k = Some nt /\ paid_entries !! k = Some pt /\
         row_accepted strip float nt pt) ->
    read_entries strip float name_entries paid_entries count j names contributions
    = match float paid_text with
      | None =>
        ReadError "Invalid Input" "Please enter valid numeric values for payment."
      | Some _ =>
        ReadError "Missing Name"
          ("Please enter a name for Person " ++ digits (Z.of_nat (i + 1)))%string
      end.
Proof.
  intros Hnt Hpt Hbad.
  induction count as [|count IH]; intros j names contributions Hj Hrows; [lia|].
  simpl. destruct (decide (j = i)) as [->|Hne].
  - rewrite Hnt, Hpt. destruct (float paid_text) as [c|] eqn:Ec; [|reflexivity].
    rewrite bool_decide_eq_true_2; [reflexivity|].
    destruct (decide (strip name_text = EmptyString)) as [E|E]; [exact E|].
    exfalso. apply Hbad. split; [rewrite Ec; eauto | exact E].
  - destruct (Hrows j ltac:(lia)) as (nt & pt & Hn & Hp & [c Hc] & Hname).
    rewrite Hn, Hp, Hc. rewrite bool_decide_eq_false_2 by exact Hname.
    apply IH; [lia|]. intros k Hk. apply Hrows. lia.
Qed.

(** X13.  The desktop form reports the first row that it cannot accept and
    looks at no later row.  In that row the payment is converted before the
    name is tested: when the payment is not a number the message is "Invalid
    Input", also when the name is blank as well; only a row with a number and
    a blank name gives "Missing Name", with the number of the row. *)
Theorem desktop_form_first_bad_row (total_amount : Q) (total_people : Z)
    (name_entries paid_entries : list string) (i : nat)
    (name_text paid_text : string) :
  (i < Z.to_nat total_people)%nat ->
  name_entries !! i = Some name_text ->
  paid_entries !! i = Some paid_text ->
  ~ row_accepted strip float name_text paid_text ->
  (forall k, (k < i)%nat ->
     exists nt pt,
       name_entries !! k = Some nt /\ paid_entries !! k = Some pt /\
       row_accepted strip float nt pt) ->
  calculate_split_form strip float total_amount total_people name_entries paid_entries
  = match float paid_text with
    | None =>
      ErrorBox "Invalid Input" "Please enter valid numeric values for payment."
    | Some _ =>
      ErrorBox "Missing Name"
        ("Please enter a name for Person " ++ digits (Z.of_nat (i + 1)))%string
    end.
Proof.
  intros Hi Hnt Hpt Hbad Hrows. unfold calculate_split_form.
  rewrite (read_entries_rejected name_entries paid_entries i name_text paid_text
             Hnt Hpt Hbad (Z.to_nat total_people) 0 [] []).
  - now destruct (float paid_text).
  - lia.
  - intros k Hk. apply Hrows. lia.
Qed.

(** X14.  When every row of the desktop form has a name that is not blank
    and a payment that converts to a finite number, and the form has one row
    per person, [calculate_split] raises nothing and shows no message: it
    writes the results, and the settlement in them is the one of the desktop
    loop for the stripped names and the converted payments.  Only a count of
    zero people, for which the form has no rows, ends in an uncaught
    [ZeroDivisionError]. *)
Theorem desktop_form_computes (total_amount : Q)
    (name_entries paid_entries : list string) (contributions : list Q) :
  Forall3 (row_finite strip float) name_entries paid_entries contributions ->
  let total_people := Z.of_nat (length name_entries) in
  let result :=
    calculate_split_form strip float total_amount total_people
      name_entries paid_entries in
  (name_entries = [] -> result = Uncaught ZeroDivisionError) /\
  (name_entries <> [] ->
   exists text st,
     result = Results text st /\
     calculate_split total_amount total_people (strip <$> name_entries) contributions
     = Done st).
Proof.
  intros Hrows total_people result. subst result total_people.
  pose proof (Forall3_length_lm _ _ _ _ Hrows) as Hlp.
  pose proof (Forall3_length_lr _ _ _ _ Hrows) as Hlc.
  unfold calculate_split_form. rewrite Nat2Z.id, Hlc.
  rewrite (read_entries_finite name_entries paid_entries _ _ _ Hrows 0 [] []
             eq_refl eq_refl).
  simpl. rewrite finite_amounts_Finite.
  unfold calculate_split, desktop_balances. split.
  - intros ->. apply Forall3_length_lr in Hrows. destruct contributions; [|discriminate].
    reflexivity.
  - intros Hne.
    assert (Hpos : (Z.of_nat (length contributions) =? 0)%Z = false).
    { apply Z.eqb_neq. destruct name_entries; [congruence | simpl in Hlc; lia]. }
    rewrite Hpos.
    set (balances := map _ contributions).
    assert (Hlb : length balances = length contributions)
      by (unfold balances; apply length_map).
    destruct (desktop_summary_ok (strip <$> name_entries) contributions balances
                (length contributions) 0) as (summary & Es & Hls).
    { rewrite length_fmap. lia. }
    { lia. }
    { lia. }
    rewrite Es.
    destruct (desktop_settle_done balances (strip <$> name_entries)) as [st Hst].
    { rewrite length_fmap. lia. }
    rewrite Hst. eexists _, st. split; reflexivity.
Qed.

End FormProofs.

(** The second row has no name and no number: the message is about the
    number. *)
Lemma desktop_form_first_bad_row_witness :
  calculate_split_form example_strip example_float 300 2
    ["Ann"; EmptyString] ["12"; "?"]%string
  = match example_float "?" with
    | None =>
      ErrorBox "Invalid Input" "Please enter valid numeric values for payment."
    | Some _ =>
      ErrorBox "Missing Name"
        ("Please enter a name for Person " ++ digits (Z.of_nat (1 + 1)))%string
    end.
Proof.
  apply (desktop_form_first_bad_row example_strip example_float 300 2
           ["Ann"; EmptyString] ["12"; "?"]%string 1 EmptyString "?").
  - simpl. lia.
  - reflexivity.
  - reflexivity.
  - intros [_ H]. now apply H.
  - intros k Hk. assert (k = 0%nat) as -> by lia.
    exists "Ann"%string, "12"%string. split; [reflexivity|]. split; [reflexivity|].
    split; [eexists; reflexivity | discriminate].
Defined.

Lemma desktop_form_computes_witness :
  let total_people := Z.of_nat (length ["Ann"; "Bob"]%string) in
  let result :=
    calculate_split_form example_strip example_float 3 total_people
      ["Ann"; "Bob"]%string ["123"; "1"]%string in
  (["Ann"; "Bob"]%string = [] -> result = Uncaught ZeroDivisionError) /\
  (["Ann"; "Bob"]%string <> [] ->
   exists text st,
     result = Results text st /\
     calculate_split 3 total_people (example_strip <$> ["Ann"; "Bob"]%string) [3; 1]
     = Done st).
Proof.
  apply (desktop_form_computes example_strip example_float 3
           ["Ann"; "Bob"]%string ["123"; "1"]%string [3; 1]).
  repeat constructor; discriminate.
Defined.

(** ** The web wizard *)

Lemma stage2_defaults_lengths (app : AppState) :
  length (app_names (stage2_defaults app)) = Z.to_nat (app_people app) /\
  length (app_paid (stage2_defaults app)) = Z.to_nat (app_people app).
Proof.
  unfold stage2_defaults. simpl. split.
  - destruct (bool_decide (app_names app = [])
              || negb (Z.of_nat (length (app_names app)) =? app_people app)%Z) eqn:E.
    + unfold default_names. now rewrite length_map, length_seq.
    + apply orb_false_iff in E as [_ E]. apply negb_false_iff, Z.eqb_eq in E. lia.
  - destruct (bool_decide (app_paid app = [])
              || negb (Z.of_nat (length (app_paid app)) =? app_people app)%Z) eqn:E.
    + now rewrite length_replicate.
    + apply orb_false_iff in E as [_ E]. apply negb_false_iff, Z.eqb_eq in E. lia.
Qed.

Section WizardProofs.
Variable strip : string -> string.
Variable name_input : nat -> string -> string.
Variable paid_input : nat -> string -> Q -> Q.

Lemma fill_names_ok (count i : nat) (names : list string) :
  (i + count <= length names)%nat ->
  exists names', fill_names name_input count i names = Ok names' /\
    length names' = length names.
Proof.
  revert i names. induction count as [|count IH]; intros i names Hlen; simpl.
  - now exists names.
  - destruct (lookup_lt_is_Some_2 names i ltac:(lia)) as [value ->].
    destruct (IH (S i) (<[i := name_input i value]> names)) as (names' & E & Hl).
    { rewrite length_insert. lia. }
    exists names'. split; [exact E|]. now rewrite Hl, length_insert.
Qed.

Lemma fill_paid_ok (names : list string) (count i : nat) (paid : list Q) :
  (i + count <= length names)%nat -> (i + count <= length paid)%nat ->
  exists paid', fill_paid paid_input names count i paid = Ok paid' /\
    length paid' = length paid.
Proof.
  revert i paid. induction count as [|count IH]; intros i paid Hn Hp; simpl.
  - now exists paid.
  - destruct (lookup_lt_is_Some_2 names i ltac:(lia)) as [name ->].
    destruct (lookup_lt_is_Some_2 paid i ltac:(lia)) as [value ->].
    destruct (IH (S i) (<[i := paid_input i name value]> paid)) as (paid' & E & Hl).
    { lia. }
    { rewrite length_insert. lia. }
    exists paid'. split; [exact E|]. now rewrite Hl, length_insert.
Qed.

(** Step 2 raises nothing, and leaves one name and one payment per person. *)
Lemma stage2_ok (app : AppState) :
  exists names paid,
    stage2 name_input paid_input app
    = Ok (MkAppState (app_stage app) (app_people app) (app_amount app) names paid
            (app_use_itemized app) (app_items app) (app_owed app) (app_balances app)) /\
    length names = Z.to_nat (app_people app) /\
    length paid = Z.to_nat (app_people app).
Proof.
  destruct (stage2_defaults_lengths app) as [Hn Hp]. unfold stage2.
  change (app_people (stage2_defaults app)) with (app_people app).
  destruct (fill_names_ok (Z.to_nat (app_people app)) 0
              (app_names (stage2_defaults app))) as (names & -> & Hln); [lia|].
  destruct (fill_paid_ok names (Z.to_nat (app_people app)) 0
              (app_paid (stage2_defaults app))) as (paid & -> & Hlp); [lia|lia|].
  exists names, paid. split; [reflexivity|]. lia.
Qed.

(** X15.  The button Calculate of the web wizard, from any state.  It
    either shows a message and leaves the state as it is, or stores one owed
    amount per name and one balance per name that has a payment, and opens a
    results page on which [settle] cannot fail (the amounts being finite).
    The one exception that can come out of it is the [ZeroDivisionError] of
    the equal split, and it comes exactly when there is no name, the split
    is equal and the total is positive.  Before the widgets of step 2 are
    drawn, its defaults leave one name and one payment per person. *)
Theorem wizard_calculate (app : AppState) :
  (length (app_names (stage2_defaults app)) = Z.to_nat (app_people app) /\
   length (app_paid (stage2_defaults app)) = Z.to_nat (app_people app)) /\
  match calculate strip app with
  | Raise e =>
    e = ZeroDivisionError /\ app_names app = [] /\
    app_use_itemized app = false /\ 0 < app_amount app
  | Ok (Message _ app') => app' = app
  | Ok (Rerun app3) =>
    app_stage app3 = 3%Z /\ app_names app3 = app_names app /\
    app_paid app3 = app_paid app /\
    exists owed balances headline text,
      app_owed app3 = Some owed /\ app_balances app3 = Some balances /\
      length owed = length (app_names app) /\
      length balances = (length (app_paid app) `min` length (app_names app))%nat /\
      results_page app3 owed balances = Page headline text
  end /\
  (app_names app = [] -> app_use_itemized app = false -> 0 < app_amount app ->
   calculate strip app = Raise ZeroDivisionError).
Proof.
  split; [apply stage2_defaults_lengths|].
  unfold calculate. split.
  - destruct (existsb _ (app_names app)); [reflexivity|].
    destruct (app_use_itemized app).
    + destruct (bool_decide (app_items app = [])); [reflexivity|].
      destruct (calc_with_itemized_length (app_items app) (app_paid app) (app_names app))
        as (Hlo & Hlb & _).
      destruct (calc_with_itemized (app_items app) (app_paid app) (app_names app))
        as [[total owed] balances]. simpl in *.
      split; [reflexivity|]. split; [reflexivity|]. split; [reflexivity|].
      assert (Hle : (length balances <= length (app_names app))%nat) by lia.
      destruct (settle_done balances (app_names app) Hle) as [st Hst].
      exists owed, balances. do 2 eexists.
      split; [reflexivity|]. split; [reflexivity|]. split; [exact Hlo|].
      split; [exact Hlb|]. unfold results_page. simpl. rewrite Hst. reflexivity.
    + destruct (Qleb (app_amount app) 0) eqn:Ea; [reflexivity|].
      unfold calc_with_equal_share.
      destruct (length (app_names app)) as [|n] eqn:En.
      * split; [reflexivity|]. split; [now apply length_zero_iff_nil|].
        split; [reflexivity|].
        apply Qnot_le_lt. intros Hle. apply Qleb_le in Hle. congruence.
      * set (owed := replicate (S n) (app_amount app / inject_Z (Z.of_nat (S n)))).
        set (balances := derive_balances (app_paid app) owed).
        assert (Hlo : length owed = S n) by (unfold owed; apply length_replicate).
        assert (Hlb : length balances = (length (app_paid app) `min` S n)%nat).
        { unfold balances, derive_balances. now rewrite length_map, length_zip, Hlo. }
        split; [reflexivity|]. split; [reflexivity|]. split; [reflexivity|].
        assert (Hle : (length balances <= length (app_names app))%nat) by lia.
        destruct (settle_done balances (app_names app) Hle) as [st Hst].
        exists owed, balances. do 2 eexists.
        split; [reflexivity|]. split; [reflexivity|]. split; [exact Hlo|].
        split; [exact Hlb|]. unfold results_page. simpl. rewrite Hst. reflexivity.
  - intros Hnames Hmode Hamount. rewrite Hnames, Hmode. simpl.
    assert (Qleb (app_amount app) 0 = false) as ->.
    { destruct (Qleb (app_amount app) 0) eqn:Ea; [|reflexivity].
      apply Qleb_le in Ea. lra. }
    reflexivity.
Qed.

End WizardProofs.

Lemma existsb_Exists {A : Type} (f : A -> bool) (l : list A) :
  existsb f l = true <-> Exists (fun x => f x = true) l.
Proof.
  induction l as [|x l IH]; simpl.
  - split; [discriminate | intros H; inversion H].
  - rewrite orb_true_iff, IH, Exists_cons. reflexivity.
Qed.

Section WizardFlow.
Variable strip : string -> string.
Variable name_input : nat -> string -> string.
Variable paid_input : nat -> string -> Q -> Q.

(** X16.  The equal split through the wizard's own steps.  Next refuses a
    number of people or a total that is not positive and changes nothing.
    Once Next has accepted them, Calculate cannot raise and cannot ask for a
    positive total: it either asks for a name, which it does exactly when
    the strip of some name is empty, or stores total / people as the owed
    amount of every person. *)
Theorem wizard_equal_flow (app : AppState) (people_count : Z) (total_amount : Q) :
  app_use_itemized app = false ->
  match next_step people_count total_amount app with
  | Message _ app' =>
    app' = app /\ ((people_count <= 0)%Z \/ total_amount <= 0)
  | Rerun app1 =>
    (0 < people_count)%Z /\ 0 < total_amount /\
    exists app2,
      stage2 name_input paid_input app1 = Ok app2 /\
      match calculate strip app2 with
      | Ok (Rerun app3) =>
        Forall (fun n => strip n <> EmptyString) (app_names app2) /\
        app_owed app3
        = Some (replicate (Z.to_nat people_count)
                  (total_amount / inject_Z people_count))
      | Ok (Message text app3) =>
        text = "Please enter a name for every person."%string /\
        Exists (fun n => strip n = EmptyString) (app_names app2)
      | Raise _ => False
      end
  end.
Proof.
  intros Hmode. unfold next_step.
  destruct (0 <? people_count)%Z eqn:Ep; simpl.
  2:{ split; [reflexivity|]. left. apply Z.ltb_ge in Ep. exact Ep. }
  destruct (Qltb 0 total_amount) eqn:Et.
  2:{ split; [reflexivity|]. right. now apply Qltb_ge. }
  apply Z.ltb_lt in Ep. apply Qltb_lt in Et.
  split; [exact Ep|]. split; [exact Et|].
  set (app1 := MkAppState 2 people_count total_amount (app_names app) (app_paid app)
                 (app_use_itemized app) (app_items app) (app_owed app)
                 (app_balances app)).
  destruct (stage2_ok name_input paid_input app1) as (names & paid & E & Hln & Hlp).
  eexists. split; [exact E|]. simpl in *.
  unfold calculate. simpl.
  destruct (existsb _ names) eqn:Eb.
  - split; [reflexivity|]. apply existsb_Exists in Eb.
    eapply Exists_impl; [exact Eb|]. simpl. intros n Hn.
    now apply bool_decide_eq_true in Hn.
  - rewrite Hmode.
    assert (Qleb total_amount 0 = false) as ->.
    { destruct (Qleb total_amount 0) eqn:Ea; [|reflexivity].
      apply Qleb_le in Ea. lra. }
    unfold calc_with_equal_share.
    destruct (length names) as [|n] eqn:En; [lia|]. simpl.
    split.
    + apply Forall_forall. intros n' Hn' Hblank.
      assert (Hex : existsb (fun n0 => bool_decide (strip n0 = EmptyString)) names = true).
      { apply existsb_Exists, Exists_exists. exists n'. split; [exact Hn'|].
        now apply bool_decide_eq_true. }
      congruence.
    + f_equal. assert (Hp : people_count = Z.of_nat (S n)) by lia.
      rewrite Hp, Nat2Z.id. reflexivity.
Qed.

End WizardFlow.

Lemma wizard_equal_flow_witness :
  match next_step 3 300 fresh_app with
  | Message _ app' => app' = fresh_app /\ ((3 <= 0)%Z \/ 300 <= 0)
  | Rerun app1 =>
    (0 < 3)%Z /\ 0 < 300 /\
    exists app2,
      stage2 untouched_name untouched_paid app1 = Ok app2 /\
      match calculate example_strip app2 with
      | Ok (Rerun app3) =>
        Forall (fun n => example_strip n <> EmptyString) (app_names app2) /\
        app_owed app3 = Some (replicate (Z.to_nat 3) (300 / inject_Z 3))
      | Ok (Message text app3) =>
        text = "Please enter a name for every person."%string /\
        Exists (fun n => example_strip n = EmptyString) (app_names app2)
      | Raise _ => False
      end
  end.
Proof.
  apply (wizard_equal_flow example_strip untouched_name untouched_paid fresh_app 3 300).
  reflexivity.
Defined.

(** * Statements that leave room for rounding *)

(** ** When the two cursor tests do not part *)





(** ** The side that the desktop loop walks to its end *)

(** X5.  The desktop loop moves a cursor on only at a remainder that is
    exactly zero.  So when it is left, every amount that remains in its list
    of debtors is exactly zero, or every amount that remains in its list of
    creditors is. *)
Theorem desktop_clears_one_list (balances : list Q) (names : list string) :
  (length balances <= length names)%nat ->
  exists st, desktop_settle balances names = Done st /\
    ((forall p e, ls_debtors st !! p = Some e -> snd e == 0) \/
     (forall p e, ls_creditors st !! p = Some e -> snd e == 0)).
Proof.
  intros Hlen. destruct (desktop_settle_done balances names Hlen) as [st Hst].
  exists st. split; [exact Hst|]. unfold desktop_settle in Hst.
  destruct (run_loop_side settled_desktop names _ _ st
              (debtors_of_positive balances) (creditors_of_positive balances) Hst)
    as [Hside|Hside].
  - left. intros p e Hp. now apply Qeqb_eq, (Hside p).
  - right. intros p e Hp. now apply Qeqb_eq, (Hside p).
Qed.

Lemma desktop_clears_one_list_witness :
  exists st, desktop_settle subcent_balances subcent_names = Done st /\
    ((forall p e, ls_debtors st !! p = Some e -> snd e == 0) \/
     (forall p e, ls_creditors st !! p = Some e -> snd e == 0)).
Proof.
  apply (desktop_clears_one_list subcent_balances subcent_names). simpl. lia.
Defined.

(** ** No line of [settle] below 0.01 *)

Lemma cent_or_more_debtors (balances : list Q) :
  Forall cent_or_more balances ->
  Forall (fun e : entry => cent <= snd e) (debtors_of balances).
Proof.
  intros H. apply Forall_forall. intros e He.
  apply elem_of_debtors_of in He as (b & Hb & Hneg & ->). simpl.
  rewrite Forall_forall in H.
  destruct (H b) as [Hz|Hc]; [apply list_elem_of_lookup; eauto | lra |].
  rewrite Qabs_neg in Hc by lra. exact Hc.
Qed.

Lemma cent_or_more_creditors (balances : list Q) :
  Forall cent_or_more balances ->
  Forall (fun e : entry => cent <= snd e) (creditors_of balances).
Proof.
  intros H. apply Forall_forall. intros [k b] He.
  apply elem_of_creditors_of in He as [Hb Hpos]. simpl in *.
  rewrite Forall_forall in H.
  destruct (H b) as [Hz|Hc]; [apply list_elem_of_lookup; eauto | lra |].
  rewrite Qabs_pos in Hc by lra. exact Hc.
Qed.

Lemma cent_from_insert (l : list entry) (i : nat) (d : entry) (r : Q) :
  cent_from i l -> l !! i = Some d ->
  cent_from (if settled_web r then S i else i) (<[i := (fst d, r)]> l).
Proof.
  intros Hfrom Hd p e Hp He.
  destruct (decide (p = i)) as [->|Hne].
  - destruct (settled_web r) eqn:Es; [lia|].
    rewrite list_lookup_insert_eq in He by (eapply lookup_lt_Some; eauto).
    injection He as <-. simpl. now apply Qltb_ge.
  - rewrite list_lookup_insert_ne in He by congruence.
    apply (Hfrom p e); [|exact He]. destruct (settled_web r); lia.
Qed.

Lemma floor_inv_step (names : list string) (st st' : loop_state) :
  floor_inv st -> loop_step settled_web names st st' -> floor_inv st'.
Proof.
  intros (Hd & Hc & Hl) (d & c & Ed & Ec & Eb).
  apply loop_body_inv in Eb as (dn & cn & _ & _ & ->).
  unfold floor_inv. simpl. split; [|split].
  - now apply cent_from_insert.
  - now apply cent_from_insert.
  - apply Forall_app. split; [exact Hl|]. constructor; [|constructor]. simpl.
    pose proof (Hd _ _ (Nat.le_refl _) Ed). pose proof (Hc _ _ (Nat.le_refl _) Ec).
    destruct (py_min_cases (snd d) (snd c)) as [[-> _]|[-> _]]; assumption.
Qed.

Lemma round_half_even_floor (y : Q) : (Qfloor y <= round_half_even y)%Z.
Proof.
  unfold round_half_even.
  destruct (Qcompare _ _); [destruct (Z.even _)|..]; lia.
Qed.

Lemma cents_of_cent (x : Q) : cent <= x -> (1 <= cents_of x)%Z.
Proof.
  intros H. unfold cents_of.
  pose proof (round_half_even_floor (x * 100)) as Hf.
  assert (H1 : (Qfloor 1 <= Qfloor (x * 100))%Z)
    by (apply Qfloor_resp_le; unfold cent in H; lra).
  change (Qfloor 1) with 1%Z in H1. lia.
Qed.

(** X7.  When every balance is zero or at least 0.01 from zero, as balances
    rounded to two decimals are, every line of [settle] carries an amount of
    at least 0.01, so that the hundredths it prints are at least one: the
    text of [settle] has no line that reads 0.00. *)
Theorem settle_writes_no_zero_line (balances : list Q) (names : list string) :
  (length balances <= length names)%nat ->
  Forall cent_or_more balances ->
  exists st, settle balances names = Done st /\
    Forall (fun t => cent <= t_amt t /\ (1 <= cents_of (t_amt t))%Z) (ls_lines st).
Proof.
  intros Hlen Hb. destruct (settle_done balances names Hlen) as [st Hst].
  exists st. split; [exact Hst|].
  assert (Hinv : floor_inv st).
  { revert Hst. unfold settle, run_loop.
    apply (settle_loop_invariant settled_web names floor_inv (floor_inv_step names)).
    unfold floor_inv. simpl. split; [|split; [|constructor]].
    - intros p e _ Hp.
      pose proof (sorted_desc_Forall _ _ (cent_or_more_debtors balances Hb)) as H.
      rewrite Forall_forall in H. apply H, list_elem_of_lookup. eauto.
    - intros p e _ Hp.
      pose proof (sorted_desc_Forall _ _ (cent_or_more_creditors balances Hb)) as H.
      rewrite Forall_forall in H. apply H, list_elem_of_lookup. eauto. }
  destruct Hinv as (_ & _ & Hl). eapply Forall_impl; [exact Hl|]. simpl.
  intros t Ht. split; [exact Ht | now apply cents_of_cent].
Qed.

Lemma settle_writes_no_zero_line_witness :
  exists st, settle dust_balances dust_names = Done st /\
    Forall (fun t => cent <= t_amt t /\ (1 <= cents_of (t_amt t))%Z) (ls_lines st).
Proof.
  apply (settle_writes_no_zero_line dust_balances dust_names).
  - simpl. lia.
  - unfold dust_balances.
    repeat (apply List.Forall_cons; [right; vm_compute; discriminate|]).
    apply List.Forall_nil.
Defined.

(** ** The itemized split as a running sum *)

Lemma foldl_Qplus_replicate_S (x s : Q) (n : nat) :
  foldl Qplus x (replicate (S n) s) = foldl Qplus (x + s) (replicate n s).
Proof. reflexivity. Qed.

Lemma add_shares_running (idx : gmap string nat) (share : Q) (k : nat)
    (participants : list string) (owed : list Q) (x : Q) :
  owed !! k = Some x ->
  add_shares idx share participants owed !! k
  = Some (foldl Qplus x (replicate (hits idx k participants) share)).
Proof.
  unfold add_shares, hits. revert owed x.
  induction participants as [|p ps IH]; intros owed x Hx; simpl; [exact Hx|].
  rewrite filter_cons. destruct (decide (idx !! p = Some k)) as [Ek|Hn].
  - rewrite Ek.
    change (length (p :: filter (fun p0 => idx !! p0 = Some k) ps))
      with (S (length (filter (fun p0 => idx !! p0 = Some k) ps))).
    rewrite foldl_Qplus_replicate_S. apply IH.
    now rewrite list_lookup_alter_eq, Hx.
  - destruct (idx !! p) as [k'|] eqn:Ek'.
    + apply IH. rewrite list_lookup_alter_ne by congruence. exact Hx.
    + now apply IH.
Qed.

Lemma shares_at_cons (idx : gmap string nat) (k : nat) (it : Item)
    (items : list Item) :
  shares_at idx k (it :: items)
  = (if item_valid it
     then replicate (hits idx k (item_participants it)) (item_share it)
     else []) ++ shares_at idx k items.
Proof.
  unfold shares_at. rewrite filter_cons.
  destruct (decide (item_valid it = true)) as [E|E];
    [rewrite E | apply not_true_is_false in E; rewrite E]; reflexivity.
Qed.

Lemma itemized_fold_running (idx : gmap string nat) (k : nat) (items : list Item)
    (acc : Q * list Q) (x : Q) :
  snd acc !! k = Some x ->
  snd (foldl (add_item idx) acc items) !! k
  = Some (foldl Qplus x (shares_at idx k items)).
Proof.
  revert acc x. induction items as [|it items IH]; intros acc x Hx; [exact Hx|].
  simpl. rewrite shares_at_cons, foldl_app.
  destruct (item_valid it) eqn:Ev.
  - rewrite (add_item_valid idx acc it Ev). apply IH. simpl.
    now apply add_shares_running.
  - rewrite (add_item_skip idx acc it Ev). simpl. now apply IH.
Qed.

Lemma hits_last (names : list string) (k : nat) (person : string)
    (participants : list string) :
  last_at names k person ->
  hits (name_index names) k participants = times_listed person participants.
Proof.
  intros Hlast. unfold hits, times_listed. f_equal. apply list_filter_iff.
  intros q. rewrite name_index_last. split.
  - intros [Hq _]. destruct Hlast as [Hp _]. congruence.
  - now intros ->.
Qed.

Lemma shares_at_last (names : list string) (k : nat) (person : string)
    (items : list Item) :
  last_at names k person ->
  shares_at (name_index names) k items = shares_of person items.
Proof.
  intros Hlast. unfold shares_at, shares_of.
  induction (filter (fun it => item_valid it = true) items) as [|it l IH];
    [reflexivity|].
  simpl. now rewrite IH, (hits_last names k person _ Hlast).
Qed.

(** X8.  The owed amount that [calc_with_itemized] returns for a person is
    [round(x, 2)] of the running sum [x] that starts at 0 and to which, item
    by item in the order of the list, the share amount / len(participants)
    of every item that is not skipped is added once for every time the item
    lists the person.  It is found at the last position of the master list
    that holds the person's name. *)
Theorem itemized_owed_running_sum (items : list Item) (paid : list Q)
    (names : list string) (k : nat) (person : string) :
  last_at names k person ->
  snd (fst (calc_with_itemized items paid names)) !! k
  = Some (round2 (running_sum (shares_of person items))).
Proof.
  intros Hlast. rewrite calc_with_itemized_owed.
  assert (Hk : (k < length names)%nat)
    by (destruct Hlast as [H _]; eapply lookup_lt_Some; eauto).
  rewrite list_lookup_fmap. unfold itemized_raw.
  rewrite (itemized_fold_running (name_index names) k items
             (0, replicate (length names) 0) 0)
    by (simpl; now apply lookup_replicate_2).
  simpl. now rewrite (shares_at_last names k person items Hlast).
Qed.

(** B shares 100 with A and 50 with C. *)
Lemma itemized_owed_running_sum_witness :
  snd (fst (calc_with_itemized itemized_items itemized_paid itemized_names)) !! 1%nat
  = Some (round2 (running_sum (shares_of "B" itemized_items))).
Proof.
  apply (itemized_owed_running_sum itemized_items itemized_paid itemized_names 1 "B").
  split; [reflexivity|].
  intros [|[|[|k']]] Hk'; simpl; try lia; discriminate.
Defined.

(** ** How far from zero a settlement leaves the balances *)

Lemma total_of_bound (l : list entry) (c : Q) :
  (forall p e, l !! p = Some e -> snd e <= c) ->
  total_of l <= c * inject_Z (Z.of_nat (length l)).
Proof.
  induction l as [|x l IH]; intros H.
  - simpl. change (inject_Z (Z.of_nat 0)) with 0. lra.
  - change (length (x :: l)) with (S (length l)). rewrite inject_Z_succ. simpl.
    pose proof (H 0%nat x eq_refl).
    pose proof (IH (fun p e Hp => H (S p) e Hp)). lra.
Qed.

Lemma inject_Z_of_nat_le (n m : nat) :
  (n <= m)%nat -> inject_Z (Z.of_nat n) <= inject_Z (Z.of_nat m).
Proof. intros H. rewrite <- Zle_Qle. lia. Qed.

(** Whatever the balances: when a cursor only moves past remainders below
    0.01, nothing ends further from zero than the sum of the balances and
    0.01 for every balance that is not zero. *)
Lemma run_loop_spread (settled : Q -> bool) `{!CursorTest settled}
    (balances : list Q) (names : list string) (debtors0 creditors0 : list entry) st :
  (forall x, settled x = true -> x < cent) ->
  Permutation debtors0 (debtors_of balances) ->
  Permutation creditors0 (creditors_of balances) ->
  run_loop settled names debtors0 creditors0 = Done st ->
  Forall (fun b' => Qabs b' <= Qabs (Qsum balances)
                    + cent * inject_Z (Z.of_nat (nonzero_count balances)))
    (apply_transfers balances (ls_lines st)).
Proof.
  intros Hs HD HC Hst.
  assert (Hpd : Forall (fun e : entry => 0 < snd e) debtors0)
    by (rewrite HD; apply debtors_of_positive).
  assert (Hpc : Forall (fun e : entry => 0 < snd e) creditors0)
    by (rewrite HC; apply creditors_of_positive).
  pose proof (run_loop_balance settled balances names _ _ st HD HC Hst) as Hbal.
  pose proof (run_loop_side settled names _ _ st Hpd Hpc Hst) as Hside.
  destruct (run_loop_tally settled names _ _ st Hpd Hpc Hst)
    as (Hnd & Hnc & _ & _ & Hsum).
  destruct (run_loop_count settled names _ _ st Hst) as (Hld & Hlc & _).
  pose proof (total_of_creditors_debtors balances) as Hdiff.
  rewrite <- (total_of_perm _ _ HD), <- (total_of_perm _ _ HC) in Hdiff.
  pose proof (length_debtors_creditors balances) as Hnz.
  rewrite <- (Permutation_length HD), <- (Permutation_length HC) in Hnz.
  pose proof (inject_Z_of_nat_le (length debtors0) (nonzero_count balances)
                ltac:(lia)) as HlD.
  pose proof (inject_Z_of_nat_le (length creditors0) (nonzero_count balances)
                ltac:(lia)) as HlC.
  pose proof (Qabs_nonneg (Qsum balances)) as Habs.
  pose proof (Qle_Qabs (Qsum balances)) as Hle.
  pose proof (Qle_Qabs (- Qsum balances)) as Hle'. rewrite Qabs_opp in Hle'.
  set (bound := Qabs (Qsum balances)
                + cent * inject_Z (Z.of_nat (nonzero_count balances))).
  assert (Hres : (forall p e, ls_debtors st !! p = Some e -> snd e <= bound) /\
                 (forall p e, ls_creditors st !! p = Some e -> snd e <= bound)).
  { unfold bound, cent in *. destruct Hside as [Hside|Hside].
    - assert (Hall : forall p e, ls_debtors st !! p = Some e -> snd e <= 1 # 100)
        by (intros p e Hp; apply Qlt_le_weak, Hs, (Hside p e Hp)).
      pose proof (total_of_bound _ _ Hall) as Htot. rewrite Hld in Htot. split.
      + intros p e Hp. pose proof (total_of_ge _ Hnd p e Hp). lra.
      + intros p e Hp. pose proof (total_of_ge _ Hnc p e Hp). lra.
    - assert (Hall : forall p e, ls_creditors st !! p = Some e -> snd e <= 1 # 100)
        by (intros p e Hp; apply Qlt_le_weak, Hs, (Hside p e Hp)).
      pose proof (total_of_bound _ _ Hall) as Htot. rewrite Hlc in Htot. split.
      + intros p e Hp. pose proof (total_of_ge _ Hnd p e Hp). lra.
      + intros p e Hp. pose proof (total_of_ge _ Hnc p e Hp). lra. }
  destruct Hres as [Hrd Hrc].
  assert (Hb0 : 0 <= bound).
  { unfold bound, cent.
    pose proof (inject_Z_of_nat_le 0 (nonzero_count balances) ltac:(lia)) as H0.
    change (inject_Z (Z.of_nat 0)) with 0 in H0. lra. }
  apply Forall_lookup. intros k b' Hb'.
  assert (Hk : (k < length balances)%nat).
  { apply lookup_lt_Some in Hb'. now rewrite length_apply_transfers in Hb'. }
  destruct (lookup_lt_is_Some_2 balances k Hk) as [b Hb].
  destruct (Hbal k b Hb) as (b1 & Hb1 & Hd & Hc & Hz).
  assert (b1 = b') by congruence. subst b1.
  apply Qabs_Qle_condition.
  destruct (Qlt_le_dec b 0) as [Hneg|Hnonneg].
  - destruct (Hd Hneg) as (p & e & _ & He & E & Hr).
    pose proof (Hrd p e He). split; lra.
  - destruct (Qlt_le_dec 0 b) as [Hpos|Hnonpos].
    + destruct (Hc Hpos) as (p & e & _ & He & E & Hr).
      pose proof (Hrc p e He). split; lra.
    + pose proof (Hz ltac:(lra)). split; lra.
Qed.

Lemma settled_web_below (x : Q) : settled_web x = true -> x < cent.
Proof. apply Qltb_lt. Qed.

Lemma settled_desktop_below (x : Q) : settled_desktop x = true -> x < cent.
Proof. intros H. apply Qeqb_eq in H. rewrite H. reflexivity. Qed.

Lemma either_spread (run : list Q -> list string -> outcome) (balances : list Q)
    (names : list string) (st : loop_state) :
  run = settle \/ run = desktop_settle ->
  run balances names = Done st ->
  Forall (fun b' => Qabs b' <= Qabs (Qsum balances)
                    + cent * inject_Z (Z.of_nat (nonzero_count balances)))
    (apply_transfers balances (ls_lines st)).
Proof.
  intros [-> | ->] Hst.
  - apply (run_loop_spread settled_web balances names _ _ st settled_web_below
             (sorted_desc_perm _) (sorted_desc_perm _) Hst).
  - apply (run_loop_spread settled_desktop balances names _ _ st settled_desktop_below
             (Permutation_refl _) (Permutation_refl _) Hst).
Qed.

(** ** Settlement correctness *)



(** ** Conservation, counted in cents *)

Lemma cents_of_cents (x : Q) (z : Z) : x == z # 100 -> cents_of x = z.
Proof. apply round_half_even_cents. Qed.

Lemma Qsum_cents (balances : list Q) :
  Forall is_cents balances ->
  Qsum balances == inject_Z (Zsum (cents_of <$> balances)) * (1 # 100).
Proof.
  induction 1 as [|b l [z Hz] _ IH].
  - reflexivity.
  - change (Qsum (b :: l)) with (b + Qsum l).
    change (Zsum (cents_of <$> b :: l))
      with (cents_of b + Zsum (cents_of <$> l))%Z.
    rewrite inject_Z_plus, IH, (cents_of_cents b z Hz), Hz, Qmake_100. ring.
Qed.

Lemma cents_count_bound (balances : list Q) (n : nat) :
  Forall is_cents balances ->
  Qabs (Qsum balances) <= inject_Z (Z.of_nat n) * (1 # 100) ->
  (Z.abs (Zsum (cents_of <$> balances)) <= Z.of_nat n)%Z.
Proof.
  intros Hc Hb. apply Qabs_Qle_condition in Hb as [Hlo Hhi].
  rewrite (Qsum_cents balances Hc) in Hlo, Hhi.
  assert (H1 : inject_Z (- Z.of_nat n) <= inject_Z (Zsum (cents_of <$> balances)))
    by (rewrite inject_Z_opp; lra).
  assert (H2 : inject_Z (Zsum (cents_of <$> balances)) <= inject_Z (Z.of_nat n))
    by lra.
  rewrite <- Zle_Qle in H1, H2. lia.
Qed.

(** C2, as the code has it.  For payments and a total of ordinary size, one
    payment per participant, payments that sum to the total that is split
    (the total of the equal split, or the returned grand total of the
    itemized split) and, for the itemized split, every participant of a
    valid item in the master list: the balances, each counted as its nearest
    whole number of cents, sum to at most participantCount cents from
    zero. *)
Theorem balances_conserved_in_cents (paid : list Q) (names : list string) :
  length paid = length names ->
  Forall ordinary paid ->
  (forall total owed balances,
     ordinary total ->
     Qsum paid == total ->
     calc_with_equal_share total paid names = Ok (owed, balances) ->
     (Z.abs (Zsum (cents_of <$> balances)) <= Z.of_nat (length names))%Z) /\
  (forall items total owed balances,
     all_listed names items ->
     calc_with_itemized items paid names = (total, owed, balances) ->
     ordinary total ->
     Qsum paid == total ->
     (Z.abs (Zsum (cents_of <$> balances)) <= Z.of_nat (length names))%Z).
Proof.
  intros Hlen _. split.
  - intros total owed balances _ Hpaid. unfold calc_with_equal_share.
    destruct (length names) as [|n] eqn:En; [discriminate|].
    intros [= <- <-].
    apply cents_count_bound; [apply derive_balances_cents|].
    pose proof (equal_share_sum total paid n Hlen Hpaid) as Hsum.
    pose proof (inject_Z_of_nat_pos (S n) ltac:(lia)) as Hpos.
    change (total / inject_Z (Z.of_nat (S n))
            :: replicate n (total / inject_Z (Z.of_nat (S n))))
      with (replicate (S n) (total / inject_Z (Z.of_nat (S n)))).
    lra.
  - intros items total owed balances Hall Hcalc _ Hpaid.
    assert (Htotal : total == valid_total items).
    { destruct (itemized_raw_totals items names) as (_ & Htot & _).
      unfold calc_with_itemized in Hcalc.
      destruct (itemized_raw items names) as [total' raw]. simpl in *.
      now injection Hcalc as <- _ _. }
    assert (Hpaid' : Qsum paid == valid_total items) by (now rewrite Hpaid).
    pose proof (itemized_sum items paid names Hlen Hall Hpaid') as Hsum.
    destruct (calc_with_itemized_length items paid names) as (_ & _ & Hcents).
    rewrite Hcalc in Hsum, Hcents. simpl in *.
    now apply cents_count_bound.
Qed.

Lemma balances_conserved_in_cents_witness :
  (Z.abs (Zsum (cents_of <$> scenario_rounded)) <= Z.of_nat (length scenario_names))%Z /\
  (Z.abs (Zsum (cents_of <$> [5000 # 100; (-7500) # 100; 2500 # 100]))
   <= Z.of_nat (length itemized_names))%Z.
Proof.
  assert (Hpaid1 : Forall ordinary scenario_paid).
  { unfold scenario_paid.
    repeat (apply List.Forall_cons; [vm_compute; discriminate|]).
    apply List.Forall_nil. }
  assert (Hpaid2 : Forall ordinary itemized_paid).
  { unfold itemized_paid.
    repeat (apply List.Forall_cons; [vm_compute; discriminate|]).
    apply List.Forall_nil. }
  split.
  - apply (proj1 (balances_conserved_in_cents scenario_paid scenario_names
                    eq_refl Hpaid1) 300
             (replicate 3 (300 / inject_Z (Z.of_nat 3))) scenario_rounded);
      [vm_compute; discriminate | reflexivity | reflexivity].
  - apply (proj2 (balances_conserved_in_cents itemized_paid itemized_names
                    eq_refl Hpaid2)
             itemized_items (0 + 100 + 50) [5000 # 100; 7500 # 100; 2500 # 100]);
      [|reflexivity|vm_compute; discriminate|reflexivity].
    repeat constructor; intros _; repeat constructor;
      apply list_elem_of_In; simpl; auto.
Defined.

(** ** From the inputs to the settled balances *)

Lemma nonzero_count_bound (balances : list Q) (n : nat) :
  (length balances <= n)%nat ->
  inject_Z (Z.of_nat (nonzero_count balances)) <= inject_Z (Z.of_nat n).
Proof.
  intros H. apply inject_Z_of_nat_le.
  pose proof (nonzero_count_le balances). lia.
Qed.

(** X11.  The equal split from the inputs to the end: with at least one
    name, one payment per name, payments and a total of ordinary size and
    payments that sum to the total, [calc_with_equal_share] returns, the
    settlement of its balances is computed without error by [settle] and by
    the desktop form, and carrying it out leaves every participant within
    0.015 per participant of zero: half a cent for the rounding of every
    balance and a cent for every remainder below the tolerance. *)
Theorem equal_split_end_to_end (total : Q) (paid : list Q) (names : list string) :
  names <> [] ->
  length paid = length names ->
  Forall ordinary paid ->
  ordinary total ->
  Qsum paid == total ->
  exists owed balances st st',
    calc_with_equal_share total paid names = Ok (owed, balances) /\
    settle balances names = Done st /\
    calculate_split total (Z.of_nat (length names)) names paid = Done st' /\
    Forall (fun b' => Qabs b' <= inject_Z (Z.of_nat (length names)) * (3 # 200))
      (apply_transfers balances (ls_lines st)) /\
    Forall (fun b' => Qabs b' <= inject_Z (Z.of_nat (length names)) * (3 # 200))
      (apply_transfers balances (ls_lines st')).
Proof.
  intros Hne Hlen _ _ Hpaid.
  destruct (length names) as [|n] eqn:En; [now destruct names|].
  set (balances := derive_balances paid
                     (replicate (S n) (total / inject_Z (Z.of_nat (S n))))).
  assert (Hcalc : calc_with_equal_share total paid names
                  = Ok (replicate (S n) (total / inject_Z (Z.of_nat (S n))), balances)).
  { unfold calc_with_equal_share. rewrite En. reflexivity. }
  assert (Hlen' : length paid = length names) by lia.
  destruct (calc_with_equal_share_length _ _ _ _ _ Hlen' Hcalc) as [Hlb _].
  pose proof (shells_same_balances _ _ _ _ _ Hlen' Hcalc) as Hdesk.
  rewrite En in Hdesk.
  assert (Hle : (length balances <= length names)%nat) by lia.
  destruct (settle_done balances names Hle) as [st Hst].
  destruct (desktop_settle_done balances names Hle) as [st' Hst'].
  exists (replicate (S n) (total / inject_Z (Z.of_nat (S n)))), balances, st, st'.
  split; [exact Hcalc|]. split; [exact Hst|].
  split; [unfold calculate_split; rewrite Hdesk; exact Hst'|].
  pose proof (equal_share_sum total paid n Hlen Hpaid) as Hsum.
  fold balances in Hsum.
  pose proof (nonzero_count_bound balances (S n) ltac:(lia)) as Hnz.
  split.
  - eapply Forall_impl;
      [exact (either_spread settle balances names st (or_introl eq_refl) Hst)|].
    simpl. intros b' Hb'. unfold cent in Hb'. lra.
  - eapply Forall_impl;
      [exact (either_spread desktop_settle balances names st' (or_intror eq_refl) Hst')|].
    simpl. intros b' Hb'. unfold cent in Hb'. lra.
Qed.

Lemma equal_split_end_to_end_witness :
  exists owed balances st st',
    calc_with_equal_share 300 scenario_paid scenario_names = Ok (owed, balances) /\
    settle balances scenario_names = Done st /\
    calculate_split 300 (Z.of_nat (length scenario_names)) scenario_names scenario_paid
    = Done st' /\
    Forall (fun b' => Qabs b' <= inject_Z (Z.of_nat (length scenario_names)) * (3 # 200))
      (apply_transfers balances (ls_lines st)) /\
    Forall (fun b' => Qabs b' <= inject_Z (Z.of_nat (length scenario_names)) * (3 # 200))
      (apply_transfers balances (ls_lines st')).
Proof.
  apply (equal_split_end_to_end 300 scenario_paid scenario_names).
  - discriminate.
  - reflexivity.
  - unfold scenario_paid.
    repeat (apply List.Forall_cons; [vm_compute; discriminate|]).
    apply List.Forall_nil.
  - vm_compute. discriminate.
  - reflexivity.
Defined.

(** X12.  The itemized split from the inputs to the end: with one payment per
    name, payments of ordinary size, every participant of a valid item in
    the master list and payments that sum to the total of the valid items,
    the settlement that [settle] computes for the balances of
    [calc_with_itemized] is computed without error, and carrying it out
    leaves every participant within 0.02 per participant of zero: half a
    cent for each of the two roundings and a cent for every remainder below
    the tolerance. *)
Theorem itemized_end_to_end (items : list Item) (paid : list Q)
    (names : list string) :
  length paid = length names ->
  Forall ordinary paid ->
  all_listed names items ->
  Qsum paid == valid_total items ->
  exists total owed balances st,
    calc_with_itemized items paid names = (total, owed, balances) /\
    settle balances names = Done st /\
    Forall (fun b' => Qabs b' <= inject_Z (Z.of_nat (length names)) * (2 # 100))
      (apply_transfers balances (ls_lines st)).
Proof.
  intros Hlen _ Hall Hpaid.
  pose proof (itemized_sum items paid names Hlen Hall Hpaid) as Hsum.
  destruct (calc_with_itemized_length items paid names) as (_ & Hlb & _).
  destruct (calc_with_itemized items paid names) as [[total owed] balances].
  simpl in *.
  assert (Hle : (length balances <= length names)%nat) by lia.
  destruct (settle_done balances names Hle) as [st Hst].
  exists total, owed, balances, st. split; [reflexivity|]. split; [exact Hst|].
  pose proof (nonzero_count_bound balances (length names) Hle) as Hnz.
  eapply Forall_impl;
    [exact (either_spread settle balances names st (or_introl eq_refl) Hst)|].
  simpl. intros b' Hb'. unfold cent in Hb'. lra.
Qed.

Lemma itemized_end_to_end_witness :
  exists total owed balances st,
    calc_with_itemized itemized_items itemized_paid itemized_names
    = (total, owed, balances) /\
    settle balances itemized_names = Done st /\
    Forall (fun b' => Qabs b' <= inject_Z (Z.of_nat (length itemized_names)) * (2 # 100))
      (apply_transfers balances (ls_lines st)).
Proof.
  apply (itemized_end_to_end itemized_items itemized_paid itemized_names).
  - reflexivity.
  - unfold itemized_paid.
    repeat (apply List.Forall_cons; [vm_compute; discriminate|]).
    apply List.Forall_nil.
  - repeat constructor; intros _; repeat constructor;
      apply list_elem_of_In; simpl; tauto.
  - reflexivity.
Defined.
